(** * The view [Element] of the editing engine and the bookmark converters

    A shallow embedding of [packages/ckeditor5-engine/src/view/element.ts]
    and of the bookmark editing plugin, with the properties of the
    specification stated and settled over it.

    Conventions of the embedding:
    - a string is the sequence of the bytes of its UTF-8 encoding, and its
      characters are told by [characters];
    - a JavaScript [Map] is an insertion-ordered association list without
      duplicate keys ([map_set] keeps the position of an existing key and
      appends a new one, [map_delete] removes the entry);
    - an attribute value is [string | ElementAttributeValue]: the tagged
      variant [AttrValue]; the structured values are reached through the
      interface [ElementAttributeValue] only, as in the source;
    - a method that mutates [this] returns the new state of the element and
      the change notifications it fired, in the small state monad [Op];
    - the children and the parent pointers live in a store of nodes, and the
      methods on children run in a state-and-error monad [TreeOp]. *)

From Stdlib Require Import Ascii.
From stdpp Require Import base option list strings sorting gmap.

(** ** Strings *)

(** A string of the program is a sequence of characters; a string here is
    the sequence of the bytes of its UTF-8 encoding, which is how a string
    written in this file is read. A character is a well-formed sequence of
    one to four bytes; a byte that begins no such sequence is a character
    of its own, with the number of the byte as its code. *)
Definition isContinuation (b : ascii) : bool :=
  (128 <=? N_of_ascii b)%N && (N_of_ascii b <? 192)%N.

(** Whether a string begins with [count] continuation bytes. *)
Fixpoint continuationBytes (count : nat) (s : string) : bool :=
  match count, s with
  | 0, _ => true
  | S count, String b rest => isContinuation b && continuationBytes count rest
  | S _, EmptyString => false
  end.

(** The number of bytes of the first character of a string. *)
Definition characterSize (s : string) : nat :=
  match s with
  | EmptyString => 0
  | String b rest =>
      let n := N_of_ascii b in
      if (n <? 192)%N then 1
      else if (n <? 224)%N then (if continuationBytes 1 rest then 2 else 1)
      else if (n <? 240)%N then (if continuationBytes 2 rest then 3 else 1)
      else if (n <? 248)%N then (if continuationBytes 3 rest then 4 else 1)
      else 1
  end.

(** The characters of a string, each with its bytes; [more] bytes of the
    character at hand are still to come. *)
Fixpoint characters_go (more : nat) (s : string) : list string :=
  match s with
  | EmptyString => []
  | String b rest =>
      let more' :=
        match more with
        | S more' => more'
        | 0 => characterSize s - 1
        end in
      match more', characters_go more' rest with
      | S _, character :: others => String b character :: others
      | _, others => String b "" :: others
      end
  end.

Definition characters (s : string) : list string := characters_go 0 s.

(** The code point of a character. *)
Definition codePoint (character : string) : N :=
  let low (b : ascii) : N := N.land (N_of_ascii b) 63 in
  match character with
  | String b0 EmptyString => N_of_ascii b0
  | String b0 (String b1 EmptyString) =>
      N.lor (N.shiftl (N.land (N_of_ascii b0) 31) 6) (low b1)
  | String b0 (String b1 (String b2 EmptyString)) =>
      N.lor (N.shiftl (N.land (N_of_ascii b0) 15) 12)
        (N.lor (N.shiftl (low b1) 6) (low b2))
  | String b0 (String b1 (String b2 (String b3 EmptyString))) =>
      N.lor (N.shiftl (N.land (N_of_ascii b0) 7) 18)
        (N.lor (N.shiftl (low b1) 12) (N.lor (N.shiftl (low b2) 6) (low b3)))
  | _ => 0
  end.

(** What [\s] matches, the white space and the line terminators of the
    language: U+0009 to U+000D, U+0020, U+00A0, U+1680, U+2000 to U+200A,
    U+2028, U+2029, U+202F, U+205F, U+3000 and U+FEFF. *)
Definition isWhiteSpace (code : N) : bool :=
  ((9 <=? code) && (code <=? 13)
   || (code =? 32) || (code =? 160) || (code =? 5760)
   || (8192 <=? code) && (code <=? 8202)
   || (code =? 8232) || (code =? 8233) || (code =? 8239) || (code =? 8287)
   || (code =? 12288) || (code =? 65279))%N.

Definition whiteSpace (character : string) : bool :=
  isWhiteSpace (codePoint character).

(** [String.prototype.split( /\s+/ )], on the characters of a string: the
    pieces between the maximal runs of white space, the empty pieces at both
    ends included. The first piece of the result is the piece at hand;
    [skipping] tells that a run of white space is being passed. *)
Fixpoint splitCharacters (skipping : bool) (chars : list string)
  : list (list string) :=
  match chars with
  | [] => [[]]
  | c :: rest =>
      if whiteSpace c
      then if skipping then splitCharacters true rest
           else [] :: splitCharacters true rest
      else match splitCharacters false rest with
           | piece :: pieces => (c :: piece) :: pieces
           | [] => [[c]]
           end
  end.

Definition split_ws (s : string) : list string :=
  String.concat "" <$> splitCharacters false (characters s).

(** [Array.prototype.join]. *)
Definition join (sep : string) (l : list string) : string :=
  String.concat sep l.

(** [Array.prototype.sort] without a comparison function, on strings:
    ascending order of the code units. *)
Definition sort (l : list string) : list string := merge_sort String.le l.

(** ** Insertion-ordered maps *)

Abbreviation JsMap A := (list (string * A)).

Section js_map.
Context {A : Type}.

Fixpoint map_get (k : string) (m : JsMap A) : option A :=
  match m with
  | [] => None
  | (k', v) :: rest => if decide (k' = k) then Some v else map_get k rest
  end.

Definition map_has (k : string) (m : JsMap A) : bool :=
  bool_decide (is_Some (map_get k m)).

Fixpoint map_set (k : string) (v : A) (m : JsMap A) : JsMap A :=
  match m with
  | [] => [(k, v)]
  | (k', v') :: rest =>
      if decide (k' = k) then (k, v) :: rest
      else (k', v') :: map_set k v rest
  end.

Definition map_delete (k : string) (m : JsMap A) : JsMap A :=
  filter (λ kv, kv.1 ≠ k) m.

Definition map_keys (m : JsMap A) : list string := m.*1.

Definition map_size (m : JsMap A) : nat := length m.

(** The invariant of a [Map]: no key occurs twice. *)
Definition map_wf (m : JsMap A) : Prop := NoDup (map_keys m).
End js_map.

(** [toMap] of the utilities on an iterable of pairs (or on the entries of
    an object): [new Map( entries )]. *)
Definition toMap {A} (entries : list (string * A)) : JsMap A :=
  foldl (λ m kv, map_set kv.1 kv.2 m) [] entries.

(** ** Values that cross the interface *)

(** [ArrayOrItem<string>]. *)
Inductive ArrayOrItem :=
  | Single (s : string)
  | Many (l : list string).

Definition toArray (t : ArrayOrItem) : list string :=
  match t with Single s => [s] | Many l => l end.

(** A regular expression, given by the strings it matches. *)
Record RegExp := { re_test : string → bool }.

(** A pattern of the matcher: [true | string | RegExp]. *)
Inductive Pattern :=
  | PTrue
  | PString (s : string)
  | PRegExp (r : RegExp).

Definition instanceofRegExp (p : Pattern) : bool :=
  match p with PRegExp _ => true | _ => false end.

(** Modelled from the spec: [isPatternMatched] of [view/matcher.ts], which is
    not among the sources. A value "matches" a pattern when the pattern is
    [true], is that very string, or is a regular expression that matches it. *)
Definition isPatternMatched (pattern : Pattern) (item : string) : bool :=
  match pattern with
  | PTrue => true
  | PString s => bool_decide (s = item)
  | PRegExp r => re_test r item
  end.

(** [NormalizedPropertyPattern]: key pattern, token pattern and an optional
    value pattern. *)
Definition NormalizedPropertyPattern : Type :=
  Pattern * Pattern * option Pattern.

(** [patternValue || true]: [undefined] and the empty string are falsy. *)
Definition orTrue (p : option Pattern) : Pattern :=
  match p with
  | None | Some (PString EmptyString) => PTrue
  | Some p => p
  end.

(** A value handed to the constructor or to [_setAttribute]
    ([unknown | Styles | [ string, StyleValue ]]). *)
Inductive AttributeInput (V : Type) :=
  | InNull
  | InString (s : string)
  | InValue (v : V)
  | InArray (l : list string)
  | InStyles (styles : list (string * string))
  | InOther (repr : string).
Arguments InNull {V}.
Arguments InString {V} s.
Arguments InValue {V} v.
Arguments InArray {V} l.
Arguments InStyles {V} styles.
Arguments InOther {V} repr.

(** ** The interface of structured attribute values *)

Module Value.
(** [interface ElementAttributeValue]. The overloaded [set] is split into
    [set_pair] ([set( name, value )]) and [set] ([set( stylesOrTokens )]). *)
Class ElementAttributeValue (V : Type) := {
  isEmpty : V → bool;
  size : V → nat;
  setTo : V → string → V;
  has : V → string → bool;
  keys : V → list string;
  set_pair : V → string → string → V;
  set : V → AttributeInput V → V;
  remove : V → ArrayOrItem → V;
  toString : V → string;
  clear : V → V;
  isSimilar : V → V → bool;
  canMergeFrom : V → V → bool;
  isMatching : V → V → bool;
  mergeFrom : V → V → V;
  _getConsumables : V → option string → list string;
  _getTokensMatch :
    V → string → Pattern → Pattern → option (list (string * string));
  _clone : V → V
}.

(** The two classes that implement the interface: their constructors and
    the [instanceof] tests. *)
Class Kinds (V : Type) := {
  newTokenList : V;
  newStylesMap : V;
  instanceofTokenList : V → bool;
  instanceofStylesMap : V → bool
}.
End Value.

(** ** The element *)

(** [string | ElementAttributeValue]. *)
Inductive AttrValue (V : Type) :=
  | Plain (s : string)
  | Structured (v : V).
Arguments Plain {V} s.
Arguments Structured {V} v.

(** References to the nodes of a view tree (object identities). *)
Definition NodeRef : Type := nat.

Record Element (V : Type) := mkElement {
  name : string;
  _attrs : JsMap (AttrValue V);
  _children : list NodeRef
}.
Arguments mkElement {V} name _attrs _children.
Arguments name {V} e.
Arguments _attrs {V} e.
Arguments _children {V} e.

(** The argument of [isSimilar( otherElement : Item )]: the receiver itself,
    another element, or an item that is not an element. *)
Inductive Item (V : Type) :=
  | SameElement
  | OtherElement (e : Element V)
  | NotElement.
Arguments SameElement {V}.
Arguments OtherElement {V} e.
Arguments NotElement {V}.

(** The kinds of change notification. *)
Inductive ChangeType := ChildrenChange | AttributesChange.

Global Instance ChangeType_eq_dec : EqDecision ChangeType.
Proof. solve_decision. Defined.

Definition usesTokenList (elementName key : string) : bool :=
  bool_decide (key = "class")
  || bool_decide (elementName = "a") && bool_decide (key = "rel").

Definition usesStylesMap (elementName key : string) : bool :=
  bool_decide (key = "style").

(** Truthiness of [Map.get( key )]: [undefined] and the empty string are
    falsy, every object is truthy. *)
Definition truthy {V} (o : option (AttrValue V)) : bool :=
  match o with
  | None | Some (Plain EmptyString) => false
  | Some _ => true
  end.

(** The receiver of a method of the interface, [x as ElementAttributeValue]:
    at the keys that use a token list or a styles map the attribute map holds
    a structured value ([attrs_typed] below, which [_parseAttributes]
    establishes and the mutators keep). A string has none of the methods of
    the interface; it is given no receiver here. *)
Definition asValue {V} (o : option (AttrValue V)) : option V :=
  match o with
  | Some (Structured v) => Some v
  | _ => None
  end.

(** The typing of an attribute map for an element name: structured values at
    the structured keys, strings everywhere else. *)
Definition value_typed {V} (elementName key : string) (v : AttrValue V)
  : bool :=
  match v with
  | Plain _ =>
      negb (usesStylesMap elementName key || usesTokenList elementName key)
  | Structured _ =>
      usesStylesMap elementName key || usesTokenList elementName key
  end.

Definition attrs_typed {V} (elementName : string) (m : JsMap (AttrValue V))
  : Prop :=
  Forall (λ kv, value_typed elementName kv.1 kv.2 = true) m.

(** The double quote character of the template strings. *)
Definition dquote : string := String "034"%char "".

Section element.
Context {V : Type} `{!Value.ElementAttributeValue V, !Value.Kinds V}.

(** [String( value )]. *)
Definition coerceString (value : AttributeInput V) : string :=
  match value with
  | InNull => "null"
  | InString s => s
  | InValue v => Value.toString v
  | InArray l => join "," l
  | InStyles _ => "[object Object]"
  | InOther repr => repr
  end.

Definition valueString (value : AttrValue V) : string :=
  match value with
  | Plain s => s
  | Structured v => Value.toString v
  end.

(** *** Getters *)

Definition _classes (this : Element V) : option (AttrValue V) :=
  map_get "class" (_attrs this).

Definition _styles (this : Element V) : option (AttrValue V) :=
  map_get "style" (_attrs this).

Definition childCount (this : Element V) : nat := length (_children this).

Definition isEmpty (this : Element V) : bool :=
  bool_decide (length (_children this) = 0).

Definition getAttributeKeys (this : Element V) : list string :=
  (if truthy (_classes this) then ["class"] else [])
  ++ (if truthy (_styles this) then ["style"] else [])
  ++ filter (λ key, key ≠ "class" ∧ key ≠ "style") (map_keys (_attrs this)).

Definition getAttributes (this : Element V) : list (string * string) :=
  (λ kv, (kv.1, valueString kv.2)) <$> _attrs this.

Definition getAttribute (this : Element V) (key : string) : option string :=
  valueString <$> map_get key (_attrs this).

Definition hasAttribute (this : Element V) (key : string)
    (token : option string) : bool :=
  if negb (map_has key (_attrs this)) then false
  else match token with
       | Some token =>
           if usesStylesMap (name this) key || usesTokenList (name this) key
           then match asValue (map_get key (_attrs this)) with
                | Some v => Value.has v token
                | None => false
                end
           else match map_get key (_attrs this) with
                | Some (Plain s) => bool_decide (s = token)
                | _ => false
                end
       | None => true
       end.

(** *** Comparison *)

(** One round of the three loops over attribute pairs: when one of the two
    values is a string they are compared with [===], two structured values
    are compared with the given method of the interface. *)
Definition compareValues (method : V → V → bool)
    (value otherValue : AttrValue V) : bool :=
  match value, otherValue with
  | Structured v, Structured ov => method v ov
  | Plain s, Plain os => bool_decide (s = os)
  | _, _ => false
  end.

Definition isSimilar (this : Element V) (otherElement : Item V) : bool :=
  match otherElement with
  | NotElement => false
  | SameElement => true
  | OtherElement other =>
      if negb (bool_decide (name this = name other)) then false
      else if negb (bool_decide (map_size (_attrs this)
                                 = map_size (_attrs other)))
      then false
      else forallb (λ kv,
             match map_get kv.1 (_attrs other) with
             | None => false
             | Some otherValue => compareValues Value.isSimilar kv.2 otherValue
             end) (_attrs this)
  end.

Definition _canMergeAttributesFrom (this otherElement : Element V) : bool :=
  if negb (bool_decide (name this = name otherElement)) then false
  else forallb (λ kv,
         match map_get kv.1 (_attrs this) with
         | None => true
         | Some value => compareValues Value.canMergeFrom value kv.2
         end) (_attrs otherElement).

Definition _hasAttributesMatching (this otherElement : Element V) : bool :=
  if negb (bool_decide (name this = name otherElement)) then false
  else forallb (λ kv,
         match map_get kv.1 (_attrs this) with
         | None => false
         | Some value => compareValues Value.isMatching value kv.2
         end) (_attrs otherElement).

(** *** Matching *)

Definition Match : Type := list (string * option string).

Definition excluded (exclude : option (list string)) (key : string) : bool :=
  match exclude with
  | Some l => bool_decide (key ∈ l)
  | None => false
  end.

(** The inner loop of [_getAttributesMatch] over the attributes, for one
    pattern. The state is [( match, hasKey, hasValue )]; [None] is the
    [return undefined] inside the loop. *)
Fixpoint matchAttributes (patternKey patternToken : Pattern)
    (patternValue : option Pattern) (exclude : option (list string))
    (attrs : JsMap (AttrValue V)) (st : Match * bool * bool)
  : option (Match * bool * bool) :=
  match attrs with
  | [] => Some st
  | (key, value) :: rest =>
      let continue_ := matchAttributes patternKey patternToken patternValue
                         exclude rest in
      if excluded exclude key || negb (isPatternMatched patternKey key)
      then continue_ st
      else
        let '(matched, _, hasValue) := st in
        match value with
        | Plain s =>
            if isPatternMatched patternToken s
            then continue_ (matched ++ [(key, None)], true, true)
            else if negb (instanceofRegExp patternKey) then None
            else continue_ (matched, true, hasValue)
        | Structured v =>
            match Value._getTokensMatch v key patternToken
                    (orTrue patternValue) with
            | Some tokenMatch =>
                continue_
                  (matched ++ ((λ kt, (kt.1, Some kt.2)) <$> tokenMatch),
                   true, true)
            | None =>
                if negb (instanceofRegExp patternKey) then None
                else continue_ (matched, true, hasValue)
            end
        end
  end.

(** The outer loop over the patterns, with the matches collected so far. *)
Fixpoint matchPatterns (patterns : list NormalizedPropertyPattern)
    (exclude : option (list string)) (attrs : JsMap (AttrValue V))
    (matched : Match) : option Match :=
  match patterns with
  | [] => Some matched
  | (patternKey, patternToken, patternValue) :: rest =>
      match matchAttributes patternKey patternToken patternValue exclude attrs
              (matched, false, false) with
      | None => None
      | Some (matched', hasKey, hasValue) =>
          if negb hasKey || negb hasValue then None
          else matchPatterns rest exclude attrs matched'
      end
  end.

Definition _getAttributesMatch (this : Element V)
    (patterns : list NormalizedPropertyPattern)
    (exclude : option (list string)) : option Match :=
  matchPatterns patterns exclude (_attrs this) [].

(** *** Classes, styles and the identity string *)

Definition hasClass (this : Element V) (className : list string) : bool :=
  forallb (λ name,
    match asValue (_classes this) with
    | Some classes => Value.has classes name
    | None => false
    end) className.

Definition getClassNames (this : Element V) : list string :=
  match asValue (_classes this) with
  | Some classes => Value.keys classes
  | None => []
  end.

Definition hasStyle (this : Element V) (property : list string) : bool :=
  forallb (λ name,
    match asValue (_styles this) with
    | Some styles => Value.has styles name
    | None => false
    end) property.

Definition getIdentity (this : Element V) : string :=
  let classes :=
    match asValue (_classes this) with
    | Some classes => join "," (sort (Value.keys classes))
    | None => ""
    end in
  let styles :=
    match asValue (_styles this) with
    | Some styles => Value.toString styles
    | None => ""
    end in
  let attributes :=
    join " " (sort ((λ i, i.1 +:+ "=" +:+ dquote +:+ valueString i.2 +:+ dquote)
                      <$> filter (λ kv, kv.1 ≠ "style" ∧ kv.1 ≠ "class")
                                 (_attrs this))) in
  name this
  +:+ (if bool_decide (classes = "") then ""
       else " class=" +:+ dquote +:+ classes +:+ dquote)
  +:+ (if bool_decide (styles = "") then ""
       else " style=" +:+ dquote +:+ styles +:+ dquote)
  +:+ (if bool_decide (attributes = "") then "" else " " +:+ attributes).

End element.

(** ** Mutation of the attributes *)

(** A notification, as an observer receives it: its kind, and the subject
    (the receiver) in the state it has when the notification is fired. *)
Definition Notification (V : Type) : Type := ChangeType * Element V.

(** A method that mutates [this]: the state is the element and the
    notifications fired so far. *)
Definition Op (V A : Type) : Type :=
  Element V * list (Notification V) → A * (Element V * list (Notification V)).

Global Instance Op_ret {V} : MRet (Op V) := λ A a st, (a, st).

Global Instance Op_bind {V} : MBind (Op V) :=
  λ A B f m st, let '(a, st') := m st in f a st'.

(** Modelled from the spec: [_fireChange] of [Node] ([view/node.ts]) is not
    among the sources. [this._fireChange( type, this )] hands the observers
    a notification of the given kind about the receiver, before the change
    is applied. *)
Definition _fireChange {V} (type : ChangeType) : Op V unit :=
  λ st, (tt, (st.1, st.2 ++ [(type, st.1)])).

Definition getThis {V} : Op V (Element V) := λ st, (st.1, st).

(** A write to [this._attrs]. *)
Definition putAttrs {V} (m : JsMap (AttrValue V)) : Op V unit :=
  λ st, (tt, (mkElement (name st.1) m (_children st.1), st.2)).

(** [this._attrs.delete( key )], with its result. *)
Definition deleteAttr {V} (key : string) : Op V bool :=
  this ← getThis;
  putAttrs (map_delete key (_attrs this));;
  mret (map_has key (_attrs this)).

(** Running a method on an element, with no notification fired yet: the
    value returned, the element afterwards, and the notifications fired. *)
Definition run {V A} (m : Op V A) (this : Element V)
  : A * (Element V * list (Notification V)) := m (this, []).

Definition result {V A} (r : A * (Element V * list (Notification V))) : A :=
  r.1.
Definition after {V A} (r : A * (Element V * list (Notification V)))
  : Element V := r.2.1.
Definition fired {V A} (r : A * (Element V * list (Notification V)))
  : list (Notification V) := r.2.2.

Section mutation.
Context {V : Type} `{!Value.ElementAttributeValue V, !Value.Kinds V}.

Definition _setAttribute (key : string) (value : AttributeInput V)
    (reset : bool) : Op V unit :=
  _fireChange AttributesChange;;
  this ← getThis;
  if usesStylesMap (name this) key || usesTokenList (name this) key then
    let '(currentValue, attrs) :=
      match asValue (map_get key (_attrs this)) with
      | Some currentValue => (currentValue, _attrs this)
      | None =>
          let currentValue :=
            if usesStylesMap (name this) key then Value.newStylesMap
            else Value.newTokenList in
          (currentValue, map_set key (Structured currentValue) (_attrs this))
      end in
    let currentValue' :=
      if reset then Value.setTo currentValue (coerceString value)
      else if usesStylesMap (name this) key then
        match value with
        | InArray (property :: v :: _) => Value.set_pair currentValue property v
        | _ => Value.set currentValue value
        end
      else
        Value.set currentValue
          match value with
          | InString s => InArray (split_ws s)
          | _ => value
          end in
    putAttrs (map_set key (Structured currentValue') attrs)
  else
    putAttrs (map_set key (Plain (coerceString value)) (_attrs this)).

(** The tokens [_removeAttribute] hands to [remove]: a string is split at
    white space when the key uses a token list. *)
Definition removedTokens (elementName key : string) (tokens : ArrayOrItem)
  : ArrayOrItem :=
  match tokens with
  | Single s => if usesTokenList elementName key then Many (split_ws s)
                else tokens
  | Many _ => tokens
  end.

Definition _removeAttribute (key : string) (tokens : option ArrayOrItem)
  : Op V bool :=
  _fireChange AttributesChange;;
  this ← getThis;
  match tokens with
  | Some tokens =>
      if usesStylesMap (name this) key || usesTokenList (name this) key then
        match asValue (map_get key (_attrs this)) with
        | None => mret false
        | Some currentValue =>
            let tokens := removedTokens (name this) key tokens in
            let currentValue' := Value.remove currentValue tokens in
            putAttrs (map_set key (Structured currentValue') (_attrs this));;
            if Value.isEmpty currentValue' then deleteAttr key
            else mret false
        end
      else deleteAttr key
  | None => deleteAttr key
  end.

Definition _addClass (className : AttributeInput V) : Op V unit :=
  _setAttribute "class" className false.

Definition _removeClass (className : ArrayOrItem) : Op V unit :=
  _removeAttribute "class" (Some className);; mret tt.

Definition _removeStyle (property : ArrayOrItem) : Op V unit :=
  _removeAttribute "style" (Some property);; mret tt.

(** [for ( ... of ... ) body], for a body that does not leave the loop. *)
Fixpoint forEach {A} (body : A → Op V unit) (l : list A) : Op V unit :=
  match l with
  | [] => mret tt
  | x :: rest => body x;; forEach body rest
  end.

Definition attributeInput (value : AttrValue V) : AttributeInput V :=
  match value with
  | Plain s => InString s
  | Structured v => InValue v
  end.

(** The loops of [_mergeAttributesFrom] and [_subtractAttributesOf] run over
    the entries of the other element. When the other element is the
    receiver itself the entries are those of the live map; each round writes
    to, or deletes, the key it visits only, which leaves the entries still
    to visit as they were, so that the entries met are the same. *)
Definition _mergeAttributesFrom (otherElement : Element V) : Op V bool :=
  this ← getThis;
  if negb (_canMergeAttributesFrom this otherElement) then mret false
  else
    _fireChange AttributesChange;;
    forEach (λ kv,
      this ← getThis;
      match map_get kv.1 (_attrs this), kv.2 with
      | Some (Structured value), Structured otherValue =>
          putAttrs (map_set kv.1
                      (Structured (Value.mergeFrom value otherValue))
                      (_attrs this))
      | _, otherValue => _setAttribute kv.1 (attributeInput otherValue) true
      end) (_attrs otherElement);;
    mret true.

Definition _subtractAttributesOf (otherElement : Element V) : Op V bool :=
  this ← getThis;
  if negb (_hasAttributesMatching this otherElement) then mret false
  else
    _fireChange AttributesChange;;
    forEach (λ kv,
      this ← getThis;
      match map_get kv.1 (_attrs this), kv.2 with
      | Some (Structured value), Structured otherValue =>
          let value' := Value.remove value (Many (Value.keys otherValue)) in
          putAttrs (map_set kv.1 (Structured value') (_attrs this));;
          if Value.isEmpty value' then deleteAttr kv.1;; mret tt
          else mret tt
      | _, _ => deleteAttr kv.1;; mret tt
      end) (_attrs otherElement);;
    mret true.

(** *** Construction *)

(** One round of the loop of [_parseAttributes]: what becomes of the entry
    [( key, value )]; [None] when the entry is deleted. *)
Definition parseAttribute (elementName key : string)
    (value : AttributeInput V) : option (AttrValue V) :=
  match value with
  | InNull => None
  | _ =>
      if usesStylesMap elementName key then
        Some (Structured
          match value with
          | InValue v =>
              if Value.instanceofStylesMap v then Value._clone v
              else Value.setTo Value.newStylesMap (coerceString value)
          | _ => Value.setTo Value.newStylesMap (coerceString value)
          end)
      else if usesTokenList elementName key then
        Some (Structured
          match value with
          | InValue v =>
              if Value.instanceofTokenList v then Value._clone v
              else Value.setTo Value.newTokenList (coerceString value)
          | _ => Value.setTo Value.newTokenList (coerceString value)
          end)
      else Some (Plain (coerceString value))
  end.

(** The loop visits every entry of [toMap( attrs )] once, and deletes or
    rewrites the entry it visits, in place. *)
Definition _parseAttributes (elementName : string)
    (attrs : list (string * AttributeInput V)) : JsMap (AttrValue V) :=
  omap (λ kv, (kv.1,.) <$> parseAttribute elementName kv.1 kv.2) (toMap attrs).

End mutation.

(** ** The children and the parent pointers *)

(** A node of the view tree: a text node or an element, with its parent. *)
Inductive NodeKind (V : Type) :=
  | TextKind (data : string)
  | ElementKind (e : Element V).
Arguments TextKind {V} data.
Arguments ElementKind {V} e.

Record Node (V : Type) := mkNode {
  parent : option NodeRef;
  kind : NodeKind V
}.
Arguments mkNode {V} parent kind.
Arguments parent {V} n.
Arguments kind {V} n.

(** The state of a tree: the nodes by reference, and the notifications fired
    so far, each with its subject. *)
Record Tree (V : Type) := mkTree {
  nodes : gmap NodeRef (Node V);
  notified : list (ChangeType * NodeRef)
}.
Arguments mkTree {V} nodes notified.
Arguments nodes {V} t.
Arguments notified {V} t.

(** A method on the tree; [None] is a thrown error (a property of
    [undefined] is written, or the node is not found in its parent). *)
Definition TreeOp (V A : Type) : Type := Tree V → option (A * Tree V).

Global Instance TreeOp_ret {V} : MRet (TreeOp V) := λ A a t, Some (a, t).

Global Instance TreeOp_bind {V} : MBind (TreeOp V) :=
  λ A B f m t,
    match m t with
    | Some (a, t') => f a t'
    | None => None
    end.

Definition throw {V A} : TreeOp V A := λ _, None.

(** What is handed to [_insertChild]: a node, a string or a text proxy. *)
Inductive ChildInput :=
  | NodeInput (n : NodeRef)
  | StringInput (s : string)
  | TextProxyInput (data : string).

(** [Array.prototype.splice( index, howMany, ...items )] for an index that
    is not negative: the new array and the removed elements. *)
Definition splice {A} (index howMany : nat) (items l : list A)
  : list A * list A :=
  (take index l ++ items ++ drop (index + howMany) l,
   take howMany (drop index l)).

(** [Array.prototype.indexOf]. *)
Fixpoint indexOf (n : NodeRef) (l : list NodeRef) : option nat :=
  match l with
  | [] => None
  | x :: rest => if decide (x = n) then Some 0 else S <$> indexOf n rest
  end.

Section tree.
Context {V : Type}.

Definition fireChangeAt (type : ChangeType) (subject : NodeRef)
  : TreeOp V unit :=
  λ t, Some (tt, mkTree (nodes t) (notified t ++ [(type, subject)])).

Definition getNode (n : NodeRef) : TreeOp V (Node V) :=
  λ t, (λ node, (node, t)) <$> nodes t !! n.

Definition putNode (n : NodeRef) (node : Node V) : TreeOp V unit :=
  λ t, Some (tt, mkTree (<[n := node]> (nodes t)) (notified t)).

(** [this._children], of an element. *)
Definition getChildren (this : NodeRef) : TreeOp V (list NodeRef) :=
  node ← getNode this;
  match kind node with
  | ElementKind e => mret (_children e)
  | TextKind _ => throw
  end.

Definition putChildren (this : NodeRef) (l : list NodeRef) : TreeOp V unit :=
  node ← getNode this;
  match kind node with
  | ElementKind e =>
      putNode this
        (mkNode (parent node) (ElementKind (mkElement (name e) (_attrs e) l)))
  | TextKind _ => throw
  end.

(** [node.parent]. *)
Definition getParent (n : NodeRef) : TreeOp V (option NodeRef) :=
  node ← getNode n; mret (parent node).

(** [( node as any ).parent = p]. *)
Definition putParent (n : NodeRef) (p : option NodeRef) : TreeOp V unit :=
  node ← getNode n; putNode n (mkNode p (kind node)).

(** [new Text( document, data )]: a fresh, detached text node. *)
Definition newText (data : string) : TreeOp V NodeRef :=
  λ t, let n := fresh (dom (nodes t)) in
       Some (n, mkTree (<[n := mkNode None (TextKind data)]> (nodes t))
                  (notified t)).

Fixpoint normalize (items : list ChildInput) : TreeOp V (list NodeRef) :=
  match items with
  | [] => mret []
  | item :: rest =>
      n ← match item with
          | NodeInput n => mret n
          | StringInput s => newText s
          | TextProxyInput data => newText data
          end;
      ns ← normalize rest;
      mret (n :: ns)
  end.

(** The loop of [_removeChildren]: [children[ i ].parent = null] for the
    indices from [index] on, [howMany] of them. *)
Fixpoint clearParents (children : list NodeRef) (index howMany : nat)
  : TreeOp V unit :=
  match howMany with
  | 0 => mret tt
  | S howMany' =>
      match children !! index with
      | Some child =>
          putParent child None;;
          clearParents children (S index) howMany'
      | None => throw
      end
  end.

Definition _removeChildren (this : NodeRef) (index howMany : nat)
  : TreeOp V (list NodeRef) :=
  fireChangeAt ChildrenChange this;;
  children ← getChildren this;
  clearParents children index howMany;;
  children ← getChildren this;
  let '(children', removed) := splice index howMany [] children in
  putChildren this children';;
  mret removed.

(** Modelled from the spec: [Node._remove] is not among the sources; the
    node is detached from its parent, by [_removeChildren] at the index the
    node has among the children of the parent. *)
Definition _remove (n : NodeRef) : TreeOp V unit :=
  p ← getParent n;
  match p with
  | Some p =>
      children ← getChildren p;
      match indexOf n children with
      | Some index => _removeChildren p index 1;; mret tt
      | None => throw
      end
  | None => throw
  end.

(** The loop of [_insertChild], with the running [index] and [count]. *)
Fixpoint insertNodes (this : NodeRef) (index count : nat)
    (ns : list NodeRef) : TreeOp V nat :=
  match ns with
  | [] => mret count
  | node :: rest =>
      p ← getParent node;
      (if bool_decide (p = None) then mret tt else _remove node);;
      putParent node (Some this);;
      children ← getChildren this;
      putChildren this (splice index 0 [node] children).1;;
      insertNodes this (S index) (S count) rest
  end.

Definition _insertChild (this : NodeRef) (index : nat)
    (items : list ChildInput) : TreeOp V nat :=
  fireChangeAt ChildrenChange this;;
  ns ← normalize items;
  insertNodes this index 0 ns.

Definition _appendChild (this : NodeRef) (items : list ChildInput)
  : TreeOp V nat :=
  children ← getChildren this;
  _insertChild this (length children) items.

(** The children and the parent of a node, read off a tree. *)
Definition childrenOf (t : Tree V) (this : NodeRef) : option (list NodeRef) :=
  match nodes t !! this with
  | Some node =>
      match kind node with
      | ElementKind e => Some (_children e)
      | TextKind _ => None
      end
  | None => None
  end.

Definition parentOf (t : Tree V) (n : NodeRef) : option (option NodeRef) :=
  parent <$> nodes t !! n.

End tree.

(** ** The bookmark converters *)

(** What a matcher function returns for an accepted element:
    [{ name: true, attributes: [ 'id' ] }]. *)
Record MatcherResult := mkMatcherResult {
  match_name : bool;
  match_attributes : list string
}.

(** An element of the model, with its attributes. *)
Record ModelElement := mkModelElement {
  model_name : string;
  model_attributes : JsMap string
}.

Section bookmark.
Context {V : Type} `{!Value.ElementAttributeValue V, !Value.Kinds V}.

Definition upcastMatcher (element : Element V) (dataPipeline : bool)
  : option MatcherResult :=
  let isAnchorElement := bool_decide (name element = "a") in
  if negb isAnchorElement then None
  else
    let hasIdAttribute := hasAttribute element "id" None in
    let hasHrefAttribute := hasAttribute element "href" None in
    let isEmpty := isEmpty element in
    if negb hasIdAttribute || hasHrefAttribute || dataPipeline && negb isEmpty
    then None
    else Some (mkMatcherResult true ["id"]).

(** Modelled from the spec: [DowncastWriter.createEmptyElement] is not among
    the sources; the element is made by the constructor of [Element], from a
    name and the attributes, and has no children. *)
Definition createEmptyElement (elementName : string)
    (attrs : list (string * AttributeInput V)) : Element V :=
  mkElement elementName (_parseAttributes elementName attrs) [].

(** [modelElement.getAttribute( key )], as handed on to a writer. *)
Definition modelAttribute (modelElement : ModelElement) (key : string)
  : AttributeInput V :=
  match map_get key (model_attributes modelElement) with
  | Some s => InString s
  | None => InOther "undefined"
  end.

(** The [view] function of the [dataDowncast] converter. *)
Definition dataDowncast (modelElement : ModelElement) : Element V :=
  createEmptyElement "a" [("id", modelAttribute modelElement "bookmarkId")].

(** The [upcast] converter: the matcher, then the [model] function. *)
Definition upcast (viewElement : Element V) : option ModelElement :=
  match upcastMatcher viewElement true with
  | Some _ =>
      Some (mkModelElement "bookmark"
              match getAttribute viewElement "id" with
              | Some bookmarkId => [("bookmarkId", bookmarkId)]
              | None => []
              end)
  | None => None
  end.

End bookmark.

(** ** The two structured values *)

(** Modelled from the spec: [TokenList] ([view/tokenlist.ts]) is not among
    the sources. It is "an ordered set of whitespace-separated tokens, with
    merge, subtract and similarity semantics": the tokens are kept without
    repetition in the order in which they were added, the string form lists
    them in that order, and two token lists are similar when they hold the
    same tokens. *)
Module TokenList.

Definition t : Type := list string.

Definition add (token : string) (s : t) : t :=
  if bool_decide (token ∈ s) then s else s ++ [token].

(** Empty tokens are not added. *)
Definition addTokens (tokens : list string) (s : t) : t :=
  foldl (λ acc token, if bool_decide (token = "") then acc else add token acc)
        s tokens.

Definition isEmpty (s : t) : bool := bool_decide (length s = 0).
Definition size (s : t) : nat := length s.
Definition has (s : t) (name : string) : bool := bool_decide (name ∈ s).
Definition keys (s : t) : list string := s.
Definition clear (s : t) : t := [].
Definition setTo (s : t) (value : string) : t := addTokens (split_ws value) [].
Definition set (s : t) (tokens : ArrayOrItem) : t :=
  addTokens (toArray tokens) s.
Definition remove (s : t) (tokens : ArrayOrItem) : t :=
  foldl (λ acc token, filter (λ x, x ≠ token) acc) s (toArray tokens).
Definition toString (s : t) : string := join " " s.

Definition isSimilar (s other : t) : bool :=
  bool_decide (size s = size other) && forallb (has other) (keys s).

Definition canMergeFrom (s other : t) : bool := true.

Definition isMatching (s other : t) : bool := forallb (has s) (keys other).

Definition mergeFrom (s other : t) : t := foldl (λ acc token, add token acc) s other.

Definition _getConsumables (s : t) (name : option string) : list string :=
  match name with
  | None | Some EmptyString => keys s
  | Some name => [name]
  end.

Definition _getTokensMatch (s : t) (attributeKey : string)
    (patternToken : Pattern) : option (list (string * string)) :=
  match patternToken with
  | PTrue => Some ((λ token, (attributeKey, token)) <$> keys s)
  | PString p =>
      if forallb (has s) (split_ws p)
      then Some ((λ token, (attributeKey, token)) <$> split_ws p)
      else None
  | PRegExp r =>
      match filter (λ token, re_test r token = true) (keys s) with
      | [] => None
      | matched => Some ((λ token, (attributeKey, token)) <$> matched)
      end
  end.

Definition _clone (s : t) : t := s.

End TokenList.

(** Modelled from the spec: [StylesMap] ([view/stylesmap.ts]) is not among
    the sources. It is "a normalized key-value store for CSS declarations";
    the shorthand expansion, which the spec leaves to the styles processor,
    is left out: a declaration is stored under the name it was given. The
    string form lists the declarations in ascending order, a semicolon after
    each. *)
Module StylesMap.

Definition t : Type := JsMap string.

(** The characters of a string up to the first occurrence of [c], and the
    rest after it. *)
Fixpoint cut (c : ascii) (s : string) : string * option string :=
  match s with
  | EmptyString => (EmptyString, None)
  | String x rest =>
      if decide (x = c) then (EmptyString, Some rest)
      else let '(head, tail) := cut c rest in (String x head, tail)
  end.

Fixpoint trimLeft (s : string) : string :=
  match s with
  | String c rest => if Ascii.is_space c then trimLeft rest else s
  | EmptyString => EmptyString
  end.

Definition trim (s : string) : string :=
  String.rev (trimLeft (String.rev (trimLeft s))).

(** The declarations of an inline style, [name: value; ...]; a piece
    without a name or without a value is skipped. *)
Fixpoint declarations (fuel : nat) (s : string) : list (string * string) :=
  match fuel with
  | 0 => []
  | S fuel' =>
      let '(piece, rest) := cut ";" s in
      let here :=
        match cut ":" piece with
        | (property, Some value) =>
            if bool_decide (trim property = "") || bool_decide (trim value = "")
            then []
            else [(trim property, trim value)]
        | (_, None) => []
        end in
      match rest with
      | Some rest => here ++ declarations fuel' rest
      | None => here
      end
  end.

Definition parseInlineStyles (s : string) : list (string * string) :=
  declarations (S (String.length s)) s.

Definition isEmpty (s : t) : bool := bool_decide (length s = 0).
Definition size (s : t) : nat := length s.
Definition has (s : t) (name : string) : bool := map_has name s.
Definition keys (s : t) : list string := map_keys s.
Definition getAsString (s : t) (name : string) : option string :=
  map_get name s.
Definition clear (s : t) : t := [].
Definition set_pair (s : t) (name value : string) : t := map_set name value s.
Definition set (s : t) (styles : list (string * string)) : t :=
  foldl (λ acc kv, map_set kv.1 kv.2 acc) s styles.
Definition setTo (s : t) (value : string) : t :=
  set [] (parseInlineStyles value).
Definition remove (s : t) (names : ArrayOrItem) : t :=
  foldl (λ acc name, map_delete name acc) s (toArray names).

Definition toString (s : t) : string :=
  if isEmpty s then ""
  else join ";" (sort ((λ kv, kv.1 +:+ ":" +:+ kv.2) <$> s)) +:+ ";".

Definition isSimilar (s other : t) : bool :=
  bool_decide (size s = size other)
  && forallb (λ name,
       has other name
       && bool_decide (getAsString other name = getAsString s name)) (keys s).

Definition canMergeFrom (s other : t) : bool :=
  forallb (λ name,
    negb (has s name
          && negb (bool_decide (getAsString s name = getAsString other name))))
    (keys other).

Definition isMatching (s other : t) : bool :=
  forallb (λ name,
    has s name && bool_decide (getAsString s name = getAsString other name))
    (keys other).

Definition mergeFrom (s other : t) : t :=
  foldl (λ acc kv, if has acc kv.1 then acc else map_set kv.1 kv.2 acc)
        s other.

Definition _getConsumables (s : t) (name : option string) : list string :=
  match name with
  | None | Some EmptyString => keys s
  | Some name => [name]
  end.

Definition _getTokensMatch (s : t) (attributeKey : string)
    (patternToken patternValue : Pattern) : option (list (string * string)) :=
  match filter (λ kv, isPatternMatched patternToken kv.1 = true
                      ∧ isPatternMatched patternValue kv.2 = true) s with
  | [] => None
  | matched => Some ((λ kv, (attributeKey, kv.1)) <$> matched)
  end.

Definition _clone (s : t) : t := s.

End StylesMap.

(** The values of the two classes, behind the one interface. A method with
    a second value of the interface is called with a value of the same
    class (the two values of one key on two elements of one name are); for
    two values of different classes the model answers [false], or leaves
    the receiver as it is. *)
Inductive StructuredValue :=
  | Tokens (s : TokenList.t)
  | Styles (s : StylesMap.t).

Definition tokensInput (value : AttributeInput StructuredValue) : ArrayOrItem :=
  match value with
  | InString s => Single s
  | InArray l => Many l
  | _ => Many []
  end.

Definition stylesInput (value : AttributeInput StructuredValue)
  : list (string * string) :=
  match value with
  | InStyles styles => styles
  | _ => []
  end.

Global Instance StructuredValue_interface
  : Value.ElementAttributeValue StructuredValue := {|
  Value.isEmpty v :=
    match v with Tokens s => TokenList.isEmpty s | Styles s => StylesMap.isEmpty s end;
  Value.size v :=
    match v with Tokens s => TokenList.size s | Styles s => StylesMap.size s end;
  Value.setTo v value :=
    match v with
    | Tokens s => Tokens (TokenList.setTo s value)
    | Styles s => Styles (StylesMap.setTo s value)
    end;
  Value.has v name :=
    match v with Tokens s => TokenList.has s name | Styles s => StylesMap.has s name end;
  Value.keys v :=
    match v with Tokens s => TokenList.keys s | Styles s => StylesMap.keys s end;
  Value.set_pair v name value :=
    match v with
    | Tokens s => Tokens s
    | Styles s => Styles (StylesMap.set_pair s name value)
    end;
  Value.set v value :=
    match v with
    | Tokens s => Tokens (TokenList.set s (tokensInput value))
    | Styles s => Styles (StylesMap.set s (stylesInput value))
    end;
  Value.remove v tokens :=
    match v with
    | Tokens s => Tokens (TokenList.remove s tokens)
    | Styles s => Styles (StylesMap.remove s tokens)
    end;
  Value.toString v :=
    match v with Tokens s => TokenList.toString s | Styles s => StylesMap.toString s end;
  Value.clear v :=
    match v with
    | Tokens s => Tokens (TokenList.clear s)
    | Styles s => Styles (StylesMap.clear s)
    end;
  Value.isSimilar v other :=
    match v, other with
    | Tokens s, Tokens o => TokenList.isSimilar s o
    | Styles s, Styles o => StylesMap.isSimilar s o
    | _, _ => false
    end;
  Value.canMergeFrom v other :=
    match v, other with
    | Tokens s, Tokens o => TokenList.canMergeFrom s o
    | Styles s, Styles o => StylesMap.canMergeFrom s o
    | _, _ => false
    end;
  Value.isMatching v other :=
    match v, other with
    | Tokens s, Tokens o => TokenList.isMatching s o
    | Styles s, Styles o => StylesMap.isMatching s o
    | _, _ => false
    end;
  Value.mergeFrom v other :=
    match v, other with
    | Tokens s, Tokens o => Tokens (TokenList.mergeFrom s o)
    | Styles s, Styles o => Styles (StylesMap.mergeFrom s o)
    | _, _ => v
    end;
  Value._getConsumables v name :=
    match v with
    | Tokens s => TokenList._getConsumables s name
    | Styles s => StylesMap._getConsumables s name
    end;
  Value._getTokensMatch v attributeKey patternToken patternValue :=
    match v with
    | Tokens s => TokenList._getTokensMatch s attributeKey patternToken
    | Styles s =>
        StylesMap._getTokensMatch s attributeKey patternToken patternValue
    end;
  Value._clone v :=
    match v with
    | Tokens s => Tokens (TokenList._clone s)
    | Styles s => Styles (StylesMap._clone s)
    end
|}.

Global Instance StructuredValue_kinds : Value.Kinds StructuredValue := {|
  Value.newTokenList := Tokens [];
  Value.newStylesMap := Styles [];
  Value.instanceofTokenList v :=
    match v with Tokens _ => true | Styles _ => false end;
  Value.instanceofStylesMap v :=
    match v with Tokens _ => false | Styles _ => true end
|}.

(** The elements of the programs: their structured values are token lists
    and styles maps. *)
Definition ViewElement : Type := Element StructuredValue.

(** [new Element( document, name, attrs )], without children. *)
Definition createElement (elementName : string)
    (attrs : list (string * AttributeInput StructuredValue)) : ViewElement :=
  mkElement elementName (_parseAttributes elementName attrs) [].

(** ** Notions of the statements *)

Section statement_notions.
Context {V : Type} `{!Value.ElementAttributeValue V, !Value.Kinds V}.

(** The attributes a key pattern selects: those whose key is not excluded
    and matches the pattern. *)
Definition keySelected (patternKey : Pattern) (exclude : option (list string))
    (key : string) : bool :=
  negb (excluded exclude key) && isPatternMatched patternKey key.

(** Whether the value of an attribute (or one of its tokens) matches the
    value pattern. *)
Definition valueMatched (patternToken : Pattern) (patternValue : option Pattern)
    (key : string) (value : AttrValue V) : bool :=
  match value with
  | Plain s => isPatternMatched patternToken s
  | Structured v =>
      bool_decide (is_Some (Value._getTokensMatch v key patternToken
                              (orTrue patternValue)))
  end.

(** What an attribute whose value matches adds to the match: its key alone
    for a string, its key with each matching token for a structured value. *)
Definition valueMatch (patternToken : Pattern) (patternValue : option Pattern)
    (key : string) (value : AttrValue V) : Match :=
  match value with
  | Plain s => [(key, None)]
  | Structured v =>
      match Value._getTokensMatch v key patternToken (orTrue patternValue) with
      | Some tokenMatch => (λ kt, (kt.1, Some kt.2)) <$> tokenMatch
      | None => []
      end
  end.

(** The match of all the attributes selected by the key pattern whose value
    matches, in the order of the map. *)
Fixpoint collectedMatch (patternKey patternToken : Pattern)
    (patternValue : option Pattern) (exclude : option (list string))
    (attrs : JsMap (AttrValue V)) : Match :=
  match attrs with
  | [] => []
  | (key, value) :: rest =>
      (if keySelected patternKey exclude key
          && valueMatched patternToken patternValue key value
       then valueMatch patternToken patternValue key value else [])
      ++ collectedMatch patternKey patternToken patternValue exclude rest
  end.

End statement_notions.

(** What a run of a mutator from the state [st] to the state [st'] may
    change: the attributes at the keys [K] only, and the notifications it
    adds are of the kind "attributes". *)
Definition changes_only {V} (K : list string)
    (st st' : Element V * list (Notification V)) : Prop :=
  name st'.1 = name st.1
  ∧ _children st'.1 = _children st.1
  ∧ (∀ key, key ∉ K →
       map_get key (_attrs st'.1) = map_get key (_attrs st.1))
  ∧ ∃ extra, st'.2 = st.2 ++ extra
             ∧ Forall (λ n : Notification V, n.1 = AttributesChange) extra.

(** A node that [_insertChild] can take into the element [this]: it is in
    the tree, and either it has no parent, or it is among the children of
    its parent, which is not [this]. *)
Definition attachable {V} (t : Tree V) (this n : NodeRef) : Prop :=
  ∃ p, parentOf t n = Some p
       ∧ match p with
         | None => True
         | Some q =>
             q ≠ this
             ∧ ∃ siblings, childrenOf t q = Some siblings ∧ n ∈ siblings
         end.

(** The elements and patterns of the examples. *)
Definition dataKeys : Pattern := PRegExp {| re_test := String.prefix "data-" |}.

Definition dataFooElement : ViewElement :=
  createElement "div" [("data-foo", InString "bar")].

Definition dataFooBarElement : ViewElement :=
  createElement "div" [("data-foo", InString "bar"); ("data-bar", InString "baz")].

(** A tree for the examples: the element 0 holds the text nodes 1 and 2,
    the text node 3 has no parent, the element 4 holds the text node 5. *)
Definition exampleTree : Tree StructuredValue :=
  mkTree
    (list_to_map
       [(0, mkNode None (ElementKind (mkElement "p" [] [1; 2])));
        (1, mkNode (Some 0) (TextKind "x"));
        (2, mkNode (Some 0) (TextKind "y"));
        (3, mkNode None (TextKind "z"));
        (4, mkNode None (ElementKind (mkElement "div" [] [5])));
        (5, mkNode (Some 4) (TextKind "w"))])
    [].

(** Two anchors whose [rel] attributes hold the same tokens, in two
    orders. *)
Definition relXY : ViewElement := createElement "a" [("rel", InString "x y")].
Definition relYX : ViewElement := createElement "a" [("rel", InString "y x")].

(** The element of the example in the documentation of [getIdentity]. *)
Definition fooElement : ViewElement :=
  createElement "foo"
    [("banana", InString "10"); ("apple", InString "20");
     ("style", InString "color: red; border-color: white;");
     ("class", InString "baz")].

(** The invariants of the two structured values: a token list holds no
    token twice, a styles map no name twice. *)
Definition value_wf (value : AttrValue StructuredValue) : Prop :=
  match value with
  | Plain _ => True
  | Structured (Tokens s) => NoDup s
  | Structured (Styles s) => map_wf s
  end.

(** The invariant of the attributes of an element: no key twice, and
    every value of the kind its key asks for. *)
Definition element_inv {V} (e : Element V) : Prop :=
  map_wf (_attrs e) ∧ attrs_typed (name e) (_attrs e).

(** Two attribute elements to merge and to subtract, and one whose
    [title] stands in the way. *)
Definition spanA : ViewElement :=
  createElement "span" [("class", InString "a"); ("title", InString "t")].
Definition spanB : ViewElement :=
  createElement "span" [("class", InString "b"); ("lang", InString "en")].
Definition spanU : ViewElement :=
  createElement "span" [("title", InString "u")].

(** [value === null], on what the constructor is given. *)
Definition isNull {V} (value : AttributeInput V) : bool :=
  match value with InNull => true | _ => false end.

(** The rounds of the loops of [_mergeAttributesFrom] and
    [_subtractAttributesOf], by name. *)
Definition mergeRound {V} `{!Value.ElementAttributeValue V, !Value.Kinds V}
    (kv : string * AttrValue V) : Op V unit :=
  this ← getThis;
  match map_get kv.1 (_attrs this), kv.2 with
  | Some (Structured value), Structured otherValue =>
      putAttrs (map_set kv.1 (Structured (Value.mergeFrom value otherValue))
                  (_attrs this))
  | _, otherValue => _setAttribute kv.1 (attributeInput otherValue) true
  end.

Definition subtractRound {V} `{!Value.ElementAttributeValue V}
    (kv : string * AttrValue V) : Op V unit :=
  this ← getThis;
  match map_get kv.1 (_attrs this), kv.2 with
  | Some (Structured value), Structured otherValue =>
      let value' := Value.remove value (Many (Value.keys otherValue)) in
      putAttrs (map_set kv.1 (Structured value') (_attrs this));;
      if Value.isEmpty value' then deleteAttr kv.1;; mret tt
      else mret tt
  | _, _ => deleteAttr kv.1;; mret tt
  end.

(** An attribute map of strings only, at keys that use no structured value
    on an element of the given name. *)
Definition plain_attrs {V} (elementName : string) (m : JsMap (AttrValue V))
  : Prop :=
  ∀ key value, (key, value) ∈ m →
    (∃ s, value = Plain s)
    ∧ usesStylesMap elementName key || usesTokenList elementName key = false.

(** ** Consumables, and the children by index *)

(** [NormalizedConsumables]: whether the name of the element is among the
    consumables, and the attributes, [[ key ]] or [[ key, token ]]. *)
Record NormalizedConsumables := mkConsumables {
  consumable_name : bool;
  consumable_attributes : list (string * option string)
}.

Section consumables.
Context {V : Type} `{!Value.ElementAttributeValue V}.

(** [if ( key )]: [undefined] and the empty string are falsy. *)
Definition truthyKey (key : option string) : bool :=
  match key with
  | None | Some EmptyString => false
  | Some _ => true
  end.

(** What one attribute adds to the consumables. *)
Definition attributeConsumables (key : string) (value : AttrValue V)
    (token : option string) : list (string * option string) :=
  match value with
  | Plain _ => [(key, None)]
  | Structured value =>
      (λ prop, (key, Some prop)) <$> Value._getConsumables value token
  end.

Definition _getConsumables (this : Element V) (key token : option string)
  : NormalizedConsumables :=
  let attributes :=
    match key with
    | None | Some EmptyString =>
        flat_map (λ kv, attributeConsumables kv.1 kv.2 None) (_attrs this)
    | Some key =>
        match map_get key (_attrs this) with
        | Some value => attributeConsumables key value token
        | None => []
        end
    end in
  mkConsumables (negb (truthyKey key)) attributes.

(** [this._children[ index ]]; no child at an index that is negative. *)
Definition getChild (this : Element V) (index : Z) : option NodeRef :=
  if decide (index < 0)%Z then None else _children this !! Z.to_nat index.

(** [this._children.indexOf( node )], [-1] when the node is not found. *)
Definition getChildIndex (this : Element V) (node : NodeRef) : Z :=
  match indexOf node (_children this) with
  | Some index => Z.of_nat index
  | None => (-1)%Z
  end.

End consumables.

(** ** Trees whose parent pointers and children agree *)

(** No node is twice among the children of an element, the children of an
    element have it as their parent, and a node that has a parent is among
    the children of it. *)
Definition tree_consistent {V} (t : Tree V) : Prop :=
  (∀ p cs, childrenOf t p = Some cs →
     NoDup cs ∧ ∀ c, c ∈ cs → parentOf t c = Some (Some p))
  ∧ (∀ n p, parentOf t n = Some (Some p) →
       ∃ cs, childrenOf t p = Some cs ∧ n ∈ cs).

(** The change an insertion fires on the parent a node is taken from. *)
Definition movedFrom {V} (t : Tree V) (n : NodeRef)
  : list (ChangeType * NodeRef) :=
  match parentOf t n with
  | Some (Some q) => [(ChildrenChange, q)]
  | _ => []
  end.

(** ** The bookmark elements the plugin tracks *)

(** An element of the model, by reference: the map of the tracked elements
    is keyed by the elements themselves. *)
Definition ModelRef : Type := nat.

(** An item of the changes of the differ: a change of an attribute, which
    has no name, or the insertion or removal of a node of some name; an
    insertion comes with the node behind its position. *)
Inductive DiffItem :=
  | DiffAttribute
  | DiffInsert (name : string) (nodeAfter : ModelRef)
  | DiffRemove (name : string).

Global Instance DiffItem_eq_dec : EqDecision DiffItem.
Proof. solve_decision. Defined.

Section tracking.
(** The model the plugin reads: [element.root.rootName], and the element
    behind a reference. *)
Variable rootName : ModelRef → string.
Variable modelElement : ModelRef → ModelElement.

(** [bookmarkElement.getAttribute( 'bookmarkId' )], [None] for
    [undefined]. *)
Definition bookmarkIdOf (element : ModelRef) : option string :=
  map_get "bookmarkId" (model_attributes (modelElement element)).

(** The loop of [_trackBookmarkElements] over the changes of the differ,
    on the map [bookmarkElements]; a [return] leaves the loop. *)
Fixpoint _trackBookmarkElements (changes : list DiffItem)
    (bookmarkElements : gmap ModelRef (option string))
  : gmap ModelRef (option string) :=
  match changes with
  | [] => bookmarkElements
  | change :: rest =>
      match change with
      | DiffAttribute => bookmarkElements
      | DiffRemove name =>
          if bool_decide (name ≠ "bookmark") then bookmarkElements
          else filter (λ entry, rootName entry.1 ≠ "$graveyard")
                 bookmarkElements
      | DiffInsert name bookmarkElement =>
          if bool_decide (name ≠ "bookmark") then bookmarkElements
          else _trackBookmarkElements rest
                 (<[bookmarkElement := bookmarkIdOf bookmarkElement]>
                    bookmarkElements)
      end
  end.

End tracking.

(** A model for the examples: the element 1 is in the graveyard, the
    elements are bookmarks with the id [b]. *)
Definition exampleRootName (element : ModelRef) : string :=
  if decide (element = 1) then "$graveyard" else "main".

Definition exampleModelElement (element : ModelRef) : ModelElement :=
  mkModelElement "bookmark" [("bookmarkId", "b")].

(** The changes the loop goes past: the insertions of bookmarks. *)
Definition bookmarkInsertion (change : DiffItem) : bool :=
  match change with
  | DiffInsert name _ => bool_decide (name = "bookmark")
  | _ => false
  end.

(** The names a string names, in the words of the statement about
    [_removeAttribute]: the string is [piece run piece ... run piece], where
    no piece holds white space and every run is white space, is not empty
    and is followed by no white space; the names are the pieces, in their
    order. Strings are taken by their characters. *)
Inductive namesIn : list string → list (list string) → Prop :=
  | namesIn_last piece :
      Forall (λ c, whiteSpace c = false) piece →
      namesIn piece [piece]
  | namesIn_run piece run rest pieces :
      Forall (λ c, whiteSpace c = false) piece →
      run ≠ [] →
      Forall (λ c, whiteSpace c = true) run →
      (∀ c, head rest = Some c → whiteSpace c = false) →
      namesIn rest pieces →
      namesIn (piece ++ run ++ rest) (piece :: pieces).

(** What one round of the loop of [_mergeAttributesFrom], and one of the
    loop of [_subtractAttributesOf], leaves under the key it visits, on an
    element of the name [elementName] that holds [current] there. *)
Definition mergedValue {V} `{!Value.ElementAttributeValue V, !Value.Kinds V}
    (key : string) (otherValue : AttrValue V) (elementName : string)
    (current : option (AttrValue V)) : option (AttrValue V) :=
  match current, otherValue with
  | Some (Structured value), Structured otherValue =>
      Some (Structured (Value.mergeFrom value otherValue))
  | _, _ =>
      Some (if usesStylesMap elementName key || usesTokenList elementName key
            then Structured
                   (Value.setTo
                      match asValue current with
                      | Some value => value
                      | None => if usesStylesMap elementName key
                                then Value.newStylesMap
                                else Value.newTokenList
                      end
                      (coerceString (attributeInput otherValue)))
            else Plain (coerceString (attributeInput otherValue)))
  end.

Definition subtractedValue {V} `{!Value.ElementAttributeValue V}
    (key : string) (otherValue : AttrValue V) (elementName : string)
    (current : option (AttrValue V)) : option (AttrValue V) :=
  match current, otherValue with
  | Some (Structured value), Structured otherValue =>
      let remaining := Value.remove value (Many (Value.keys otherValue)) in
      if Value.isEmpty remaining then None else Some (Structured remaining)
  | _, _ => None
  end.

(** Three characters of white space beyond ASCII, by their bytes: U+00A0,
    U+3000 and U+FEFF. *)
Definition noBreakSpace : string := String "194"%char (String "160"%char "").
Definition ideographicSpace : string :=
  String "227"%char (String "128"%char (String "128"%char "")).
Definition byteOrderMark : string :=
  String "239"%char (String "187"%char (String "191"%char "")).

(** * Properties *)

(** ** Insertion-ordered maps *)

Section js_map_facts.
Context {A : Type}.
Implicit Types (m : JsMap A) (k : string) (v : A).

Lemma map_get_delete_eq k m : map_get k (map_delete k m) = None.
Proof.
  unfold map_delete. induction m as [|[k' v'] m IH]; [done|].
  rewrite filter_cons. simpl. destruct (decide (k' ≠ k)) as [Hne|Heq]; simpl.
  - by rewrite decide_False.
  - exact IH.
Qed.

Lemma map_get_delete_ne k k' m :
  k ≠ k' → map_get k' (map_delete k m) = map_get k' m.
Proof.
  intros Hne. unfold map_delete. induction m as [|[k0 v0] m IH]; [done|].
  rewrite filter_cons. simpl. destruct (decide (k0 ≠ k)) as [H0|H0]; simpl.
  - by rewrite IH.
  - apply dec_stable in H0. subst k0. by rewrite decide_False.
Qed.

Lemma map_get_set_eq k v m : map_get k (map_set k v m) = Some v.
Proof.
  induction m as [|[k' v'] m IH]; simpl.
  - by rewrite decide_True.
  - destruct (decide (k' = k)) as [->|Hne]; simpl.
    + by rewrite decide_True.
    + by rewrite decide_False.
Qed.

Lemma map_get_set_ne k k' v m :
  k ≠ k' → map_get k' (map_set k v m) = map_get k' m.
Proof.
  intros Hne. induction m as [|[k0 v0] m IH]; simpl.
  - by rewrite decide_False.
  - destruct (decide (k0 = k)) as [->|H0]; simpl.
    + by rewrite !decide_False.
    + by rewrite IH.
Qed.

Lemma map_delete_set k v m : map_delete k (map_set k v m) = map_delete k m.
Proof.
  unfold map_delete. induction m as [|[k' v'] m IH]; simpl.
  - rewrite filter_cons. simpl. by rewrite decide_False by (intros H; by apply H).
  - destruct (decide (k' = k)) as [->|Hne].
    + rewrite !filter_cons. simpl.
      by rewrite !decide_False by (intros H; by apply H).
    + rewrite !filter_cons. simpl. by rewrite IH.
Qed.

Lemma map_delete_absent k m : map_get k m = None → map_delete k m = m.
Proof.
  unfold map_delete. induction m as [|[k' v'] m IH]; [done|]. simpl.
  destruct (decide (k' = k)) as [->|Hne]; [done|]. intros Hm.
  rewrite filter_cons. simpl. rewrite decide_True by done. by rewrite IH.
Qed.

Lemma map_has_true k m : map_has k m = true ↔ is_Some (map_get k m).
Proof. unfold map_has. by rewrite bool_decide_eq_true. Qed.

Lemma map_has_false k m : map_has k m = false ↔ map_get k m = None.
Proof.
  unfold map_has. rewrite bool_decide_eq_false, <-eq_None_not_Some. done.
Qed.

Lemma map_has_delete k m : map_has k (map_delete k m) = false.
Proof. apply map_has_false, map_get_delete_eq. Qed.

Lemma map_get_elem_of k v m : map_get k m = Some v → (k, v) ∈ m.
Proof.
  induction m as [|[k' v'] m IH]; [done|]. simpl.
  destruct (decide (k' = k)) as [->|Hne].
  - intros [= ->]. left.
  - intros H. right. by apply IH.
Qed.

Lemma map_get_None_keys k m : map_get k m = None ↔ k ∉ map_keys m.
Proof.
  unfold map_keys. induction m as [|[k' v'] m IH]; simpl.
  - split; [intros _; apply not_elem_of_nil|done].
  - rewrite not_elem_of_cons. destruct (decide (k' = k)) as [->|Hne].
    + split; [done|]. by intros [? _].
    + rewrite IH. intuition congruence.
Qed.

Lemma map_get_is_Some_keys k m : is_Some (map_get k m) ↔ k ∈ map_keys m.
Proof.
  destruct (map_get k m) as [v|] eqn:E.
  - split; [intros _|by eauto].
    destruct (decide (k ∈ map_keys m)) as [|Hn]; [done|].
    apply map_get_None_keys in Hn. congruence.
  - split; [by intros [? ?]|]. intros Hin. by apply map_get_None_keys in E.
Qed.

Lemma elem_of_map_get k v m : map_wf m → (k, v) ∈ m → map_get k m = Some v.
Proof.
  unfold map_wf, map_keys. induction m as [|[k' v'] m IH]; simpl.
  - intros _ H. by apply elem_of_nil in H.
  - rewrite NoDup_cons. intros [Hk Hm] Hin.
    apply elem_of_cons in Hin as [[= -> ->]|Hin].
    + by rewrite decide_True.
    + destruct (decide (k' = k)) as [->|Hne]; [|by apply IH].
      exfalso. apply Hk. apply list_elem_of_fmap. by exists (k, v).
Qed.

Lemma map_keys_set k v m :
  map_keys (map_set k v m)
  = if map_has k m then map_keys m else map_keys m ++ [k].
Proof.
  unfold map_keys, map_has. induction m as [|[k' v'] m IH]; csimpl; [done|].
  destruct (decide (k' = k)) as [->|Hne]; csimpl; [done|].
  rewrite IH. by destruct (bool_decide _).
Qed.

Lemma map_wf_set k v m : map_wf m → map_wf (map_set k v m).
Proof.
  unfold map_wf. rewrite map_keys_set. destruct (map_has k m) eqn:E; [done|].
  intros Hm. apply map_has_false, map_get_None_keys in E.
  apply NoDup_app. split_and!; [done| |apply NoDup_singleton].
  intros x Hx ->%list_elem_of_singleton. done.
Qed.

Lemma map_wf_delete k m : map_wf m → map_wf (map_delete k m).
Proof.
  unfold map_wf, map_keys, map_delete. induction m as [|[k' v'] m IH]; [done|].
  simpl. rewrite NoDup_cons. intros [Hk Hm]. rewrite filter_cons. simpl.
  destruct (decide (k' ≠ k)); [|by apply IH]. simpl. apply NoDup_cons.
  split; [|by apply IH]. intros Hin. apply Hk.
  apply list_elem_of_fmap in Hin as [[k0 v0] [-> Hin]].
  apply list_elem_of_filter in Hin as [_ Hin].
  apply list_elem_of_fmap. by exists (k0, v0).
Qed.

Lemma foldl_map_set_wf (entries : list (string * A)) m :
  map_wf m → map_wf (foldl (λ m kv, map_set kv.1 kv.2 m) m entries).
Proof.
  revert m. induction entries as [|[k v] entries IH]; intros m Hm; [done|].
  simpl. by apply IH, map_wf_set.
Qed.

Lemma toMap_wf (entries : list (string * A)) : map_wf (toMap entries).
Proof. apply foldl_map_set_wf. unfold map_wf. apply NoDup_nil_2. Qed.

End js_map_facts.

(** ** Attributes: removal, keys, classes and styles *)

(** Unfolds the plumbing of the state monad of the mutators. *)
(** ** Strings: the names in a string *)

Lemma splitCharacters_names (chars : list string) :
  namesIn chars (splitCharacters false chars)
  ∧ ∀ run, run ≠ [] → Forall (λ c, whiteSpace c = true) run →
           namesIn (run ++ chars) ([] :: splitCharacters true chars).
Proof.
  induction chars as [|c chars [IHfalse IHtrue]].
  { split; [by apply namesIn_last|]. intros run Hrun Hwhite.
    change (namesIn ([] ++ run ++ []) [[]; []]).
    apply namesIn_run; try done. by apply namesIn_last. }
  assert (Hfalse : namesIn (c :: chars) (splitCharacters false (c :: chars))).
  { cbn [splitCharacters]. destruct (whiteSpace c) eqn:Hc.
    - apply (IHtrue [c]); [done|]. by apply Forall_singleton.
    - inversion IHfalse as [piece Hpiece Heq Hsplit
                           |piece run rest pieces Hpiece Hrun Hwhite Hhead Hrest
                              Heq Hsplit].
      + apply namesIn_last. by apply Forall_cons_2.
      + change (namesIn ((c :: piece) ++ run ++ rest) ((c :: piece) :: pieces)).
        apply namesIn_run; try done. by apply Forall_cons_2. }
  split; [done|]. intros run Hrun Hwhite.
  destruct (whiteSpace c) eqn:Hc.
  - cbn [splitCharacters]. rewrite Hc.
    replace (run ++ c :: chars) with ((run ++ [c]) ++ chars)
      by (by rewrite <-app_assoc).
    apply IHtrue.
    + by destruct run.
    + apply Forall_app. split; [done|]. by apply Forall_singleton.
  - assert (Hsame : splitCharacters true (c :: chars)
                    = splitCharacters false (c :: chars)).
    { cbn [splitCharacters]. by rewrite Hc. }
    rewrite Hsame. change (namesIn ([] ++ run ++ c :: chars)
                             ([] :: splitCharacters false (c :: chars))).
    apply namesIn_run; try done. by intros c' [= <-].
Qed.

Lemma splitCharacters_nonempty (skipping : bool) (chars : list string) :
  splitCharacters skipping chars ≠ [].
Proof.
  revert skipping. induction chars as [|c chars IH]; intros skipping; simpl;
    [done|].
  destruct (whiteSpace c).
  - destruct skipping; [apply IH|done].
  - by destruct (splitCharacters false chars).
Qed.

Lemma splitCharacters_piece (piece chars : list string) :
  Forall (λ c, whiteSpace c = false) piece →
  splitCharacters false (piece ++ chars)
  = match splitCharacters false chars with
    | first :: pieces => (piece ++ first) :: pieces
    | [] => [piece]
    end.
Proof.
  pose proof (splitCharacters_nonempty false chars) as Hsome.
  induction 1 as [|c piece Hc Hpiece IH]; simpl.
  { by destruct (splitCharacters false chars). }
  rewrite Hc, IH. by destruct (splitCharacters false chars).
Qed.

Lemma splitCharacters_run (run chars : list string) :
  Forall (λ c, whiteSpace c = true) run →
  (∀ c, head chars = Some c → whiteSpace c = false) →
  splitCharacters true (run ++ chars) = splitCharacters false chars.
Proof.
  induction 1 as [|c run Hc Hrun IH]; intros Hhead; simpl.
  - destruct chars as [|c chars]; [done|]. simpl.
    by rewrite (Hhead c eq_refl).
  - rewrite Hc. by apply IH.
Qed.

(** The names in a string are those [split] gives, and no others. *)
Lemma namesIn_split (chars : list string) (pieces : list (list string)) :
  namesIn chars pieces ↔ pieces = splitCharacters false chars.
Proof.
  split; [|intros ->; apply splitCharacters_names].
  induction 1 as [piece Hpiece
                 |piece run rest pieces Hpiece Hrun Hwhite Hhead Hrest IH].
  - rewrite <-(app_nil_r piece) at 2.
    rewrite splitCharacters_piece by done. simpl. by rewrite app_nil_r.
  - rewrite splitCharacters_piece by done.
    destruct run as [|c run]; [done|].
    apply Forall_cons in Hwhite as [Hc Hwhite]. simpl. rewrite Hc.
    rewrite splitCharacters_run by done. by rewrite app_nil_r, IH.
Qed.

Lemma split_ws_names (s : string) :
  ∃ pieces, namesIn (characters s) pieces
            ∧ split_ws s = String.concat "" <$> pieces.
Proof.
  exists (splitCharacters false (characters s)).
  split; [apply splitCharacters_names|done].
Qed.

Ltac op_unfold :=
  unfold run, result, after, fired, deleteAttr, putAttrs, getThis, _fireChange,
    mbind, mret, Op_bind, Op_ret in *; simpl in *.

Section attribute_facts.
Context {V : Type} `{!Value.ElementAttributeValue V, !Value.Kinds V}.
Implicit Types (this other : Element V) (key : string).

(** C3. [_removeAttribute( key, tokens )] with tokens and a structured key
    (one that uses a styles map or a token list: class, style, rel on an
    anchor) removes the named tokens from the structured value only, and
    deletes the key when the value has become empty; when the key holds no
    structured value nothing changes. The named tokens are the tokens of
    the array given, or the string given; under a key that uses a token
    list, a string names the tokens it holds between its runs of white
    space. Without tokens, or for a plain key, the whole key is deleted. In
    every case the boolean returned tells whether the attribute was
    removed: it is [true] exactly when the key was present before the call
    and is absent after it. *)
Theorem removeAttribute_tokens_or_key this key (tokens : option ArrayOrItem) :
  let r := run (_removeAttribute key tokens) this in
  let structuredKey :=
    usesStylesMap (name this) key || usesTokenList (name this) key in
  structuredKey
  = bool_decide (key = "style")
    || (bool_decide (key = "class")
        || bool_decide (name this = "a") && bool_decide (key = "rel"))
  ∧ name (after r) = name this
  ∧ _children (after r) = _children this
  ∧ match tokens, structuredKey, asValue (map_get key (_attrs this)) with
    | Some tokens, true, Some currentValue =>
        ∃ named,
          match tokens with
          | Many names => named = Many names
          | Single names =>
              if usesTokenList (name this) key
              then ∃ pieces, namesIn (characters names) pieces
                             ∧ named = Many (String.concat "" <$> pieces)
              else named = Single names
          end
          ∧ let remaining := Value.remove currentValue named in
            if Value.isEmpty remaining
            then _attrs (after r) = map_delete key (_attrs this)
                 ∧ result r = true
            else _attrs (after r)
                 = map_set key (Structured remaining) (_attrs this)
                 ∧ result r = false
    | Some _, true, None => _attrs (after r) = _attrs this ∧ result r = false
    | _, _, _ =>
        _attrs (after r) = map_delete key (_attrs this)
        ∧ result r = map_has key (_attrs this)
    end
  ∧ (result r = true
     ↔ map_has key (_attrs this) = true
       ∧ map_has key (_attrs (after r)) = false).
Proof.
  intros r structuredKey. split; [done|]. subst r structuredKey.
  destruct this as [nm attrs children].
  unfold _removeAttribute. op_unfold.
  assert (Hdel : ∀ b : bool, b = map_has key attrs →
            (b = true ↔ map_has key attrs = true
                        ∧ map_has key (map_delete key attrs) = false)).
  { intros b ->. rewrite map_has_delete. intuition. }
  destruct tokens as [tokens|]; simpl; [|by split_and!; auto].
  destruct (usesStylesMap nm key || usesTokenList nm key) eqn:Hstructured;
    simpl; [|by split_and!; auto].
  destruct (map_get key attrs) as [[s|currentValue]|] eqn:Hget; simpl.
  - split_and!; auto. split; [done|]. intros [? ?]. congruence.
  - assert (Hhas : map_has key attrs = true).
    { apply map_has_true. rewrite Hget. by eexists. }
    assert (Hnamed :
      match tokens with
      | Many names => removedTokens nm key tokens = Many names
      | Single names =>
          if usesTokenList nm key
          then ∃ pieces, namesIn (characters names) pieces
                         ∧ removedTokens nm key tokens
                           = Many (String.concat "" <$> pieces)
          else removedTokens nm key tokens = Single names
      end).
    { unfold removedTokens. destruct tokens as [names|names]; [|done].
      destruct (usesTokenList nm key); [|done].
      destruct (split_ws_names names) as (pieces & Hpieces & ->).
      by exists pieces. }
    set (remaining := Value.remove currentValue (removedTokens nm key tokens)).
    assert (Hset : map_has key (map_set key (Structured remaining) attrs)
                   = true).
    { apply map_has_true. rewrite map_get_set_eq. by eexists. }
    destruct (Value.isEmpty remaining) eqn:Hempty; simpl.
    + rewrite map_delete_set. split_and!; [done|done| |].
      * exists (removedTokens nm key tokens). split; [done|].
        fold remaining. by rewrite Hempty.
      * by rewrite map_has_delete, Hset.
    + split_and!; [done|done| |].
      * exists (removedTokens nm key tokens). split; [done|].
        fold remaining. by rewrite Hempty.
      * split; [done|]. intros [_ Hgone]. congruence.
  - split_and!; auto. split; [done|]. intros [Hhas _].
    apply map_has_true in Hhas. rewrite Hget in Hhas. by destruct Hhas.
Qed.

(** C9. [_removeAttribute] fires exactly one notification, of the kind
    "attributes", whatever the key and the tokens are and whatever it
    returns; the observers get it with the element still in the state it
    had before the call. *)
Theorem removeAttribute_always_notifies this key (tokens : option ArrayOrItem) :
  fired (run (_removeAttribute key tokens) this) = [(AttributesChange, this)].
Proof.
  destruct this as [nm attrs children]. unfold _removeAttribute. op_unfold.
  destruct tokens as [tokens|]; [|done].
  destruct (usesStylesMap nm key || usesTokenList nm key); [|done].
  destruct (asValue (map_get key attrs)) as [currentValue|]; [|done].
  simpl. by destruct (Value.isEmpty _).
Qed.

(** A call on an absent key notifies, removes nothing and returns false. *)
Lemma removeAttribute_absent this key (tokens : option ArrayOrItem) :
  map_has key (_attrs this) = false →
  let r := run (_removeAttribute key tokens) this in
  result r = false ∧ after r = this ∧ fired r = [(AttributesChange, this)].
Proof.
  intros Habsent. pose proof Habsent as Hnone. apply map_has_false in Hnone.
  destruct this as [nm attrs children]. unfold _removeAttribute. op_unfold.
  rewrite Hnone. simpl.
  destruct tokens as [tokens|];
    [destruct (usesStylesMap nm key || usesTokenList nm key)|];
    simpl; rewrite ?Habsent, ?(map_delete_absent _ _ Hnone); done.
Qed.

(** C10. [hasClass()] and [hasStyle()] without arguments answer [true] on
    every element, one without a class or a style attribute included: the
    loop over the arguments has no round. *)
Theorem hasClass_hasStyle_no_argument this :
  hasClass this [] = true ∧ hasStyle this [] = true.
Proof. done. Qed.

(** With an argument, an element without the attribute answers [false]. *)
Lemma hasClass_absent this className classNames :
  map_has "class" (_attrs this) = false →
  hasClass this (className :: classNames) = false.
Proof.
  intros Habsent%map_has_false. unfold hasClass, _classes. simpl.
  by rewrite Habsent.
Qed.

(** At a structured key a typed map holds an object, which is truthy. *)
Lemma truthy_typed this key :
  attrs_typed (name this) (_attrs this) →
  usesStylesMap (name this) key || usesTokenList (name this) key = true →
  truthy (map_get key (_attrs this)) = map_has key (_attrs this).
Proof.
  intros Htyped Hkey. destruct (map_get key (_attrs this)) as [v|] eqn:Hget.
  - assert (map_has key (_attrs this) = true) as ->.
    { apply map_has_true. rewrite Hget. by eexists. }
    apply map_get_elem_of in Hget. unfold attrs_typed in Htyped.
    rewrite Forall_forall in Htyped. specialize (Htyped _ Hget). simpl in Htyped.
    destruct v as [s|v]; [|done]. simpl in Htyped. rewrite Hkey in Htyped. done.
  - simpl. symmetry. by apply map_has_false.
Qed.

(** C5. [getAttributeKeys] yields [class] first when that attribute is
    present, then [style] when present, then the other keys in the order
    in which the map stores them; no key is yielded twice, and the keys
    yielded are the keys of the map. *)
Theorem getAttributeKeys_order this :
  map_wf (_attrs this) →
  attrs_typed (name this) (_attrs this) →
  getAttributeKeys this
  = (if map_has "class" (_attrs this) then ["class"] else [])
    ++ (if map_has "style" (_attrs this) then ["style"] else [])
    ++ filter (λ key, key ≠ "class" ∧ key ≠ "style") (map_keys (_attrs this))
  ∧ NoDup (getAttributeKeys this)
  ∧ ∀ key, key ∈ getAttributeKeys this ↔ key ∈ map_keys (_attrs this).
Proof.
  intros Hwf Htyped. unfold getAttributeKeys, _classes, _styles.
  rewrite !truthy_typed by done.
  split; [done|].
  assert (Hmem : ∀ key,
    key ∈ (if map_has "class" (_attrs this) then ["class"] else [])
          ++ (if map_has "style" (_attrs this) then ["style"] else [])
          ++ filter (λ key, key ≠ "class" ∧ key ≠ "style")
               (map_keys (_attrs this))
    ↔ key ∈ map_keys (_attrs this)).
  { intros key. rewrite !elem_of_app, list_elem_of_filter.
    rewrite <-!map_get_is_Some_keys, <-!map_has_true.
    destruct (decide (key = "class")) as [->|Hc].
    - destruct (map_has "class" _) eqn:E.
      + rewrite list_elem_of_singleton. intuition.
      + split; [|done]. intros [H1|[H1|[[H1 _] _]]]; try done.
        * by apply elem_of_nil in H1.
        * destruct (map_has "style" _);
            [by apply list_elem_of_singleton in H1|by apply elem_of_nil in H1].
    - destruct (decide (key = "style")) as [->|Hs].
      + destruct (map_has "style" _) eqn:E.
        * rewrite list_elem_of_singleton. intuition.
        * split; [|done]. intros [H1|[H1|[[_ H1] _]]]; try done.
          -- destruct (map_has "class" _);
               [by apply list_elem_of_singleton in H1|by apply elem_of_nil in H1].
          -- by apply elem_of_nil in H1.
      + split; [|by auto].
        intros [H1|[H1|[_ H1]]]; [| |done].
        * destruct (map_has "class" _);
            [by apply list_elem_of_singleton in H1|by apply elem_of_nil in H1].
        * destruct (map_has "style" _);
            [by apply list_elem_of_singleton in H1|by apply elem_of_nil in H1]. }
  split; [|exact Hmem].
  assert (Hfilter : NoDup (filter (λ key, key ≠ "class" ∧ key ≠ "style")
                             (map_keys (_attrs this))))
    by (by apply NoDup_filter).
  apply NoDup_app. split_and!.
  - destruct (map_has "class" _); [apply NoDup_singleton|apply NoDup_nil_2].
  - intros key Hkey. destruct (map_has "class" _);
      [apply list_elem_of_singleton in Hkey as ->|by apply elem_of_nil in Hkey].
    rewrite elem_of_app, list_elem_of_filter. intros [H1|[[H1 _] _]]; [|done].
    destruct (map_has "style" _);
      [by apply list_elem_of_singleton in H1|by apply elem_of_nil in H1].
  - apply NoDup_app. split_and!; [|
      |done].
    + destruct (map_has "style" _); [apply NoDup_singleton|apply NoDup_nil_2].
    + intros key Hkey. destruct (map_has "style" _);
        [apply list_elem_of_singleton in Hkey as ->|by apply elem_of_nil in Hkey].
      rewrite list_elem_of_filter. by intros [[_ H1] _].
Qed.

End attribute_facts.

(** ** Construction *)

Section construction_facts.
Context {V : Type} `{!Value.ElementAttributeValue V, !Value.Kinds V}.

(** The loop of [_parseAttributes] rewrites the entry of a key by
    [parseAttribute], and touches no other entry. *)
Lemma map_get_parseAttributes (elementName key : string)
    (attrs : list (string * AttributeInput V)) :
  map_get key (_parseAttributes elementName attrs)
  = map_get key (toMap attrs) ≫= parseAttribute elementName key.
Proof.
  unfold _parseAttributes. pose proof (toMap_wf attrs) as Hwf.
  induction (toMap attrs) as [|[k v] m IH]; [done|].
  unfold map_wf, map_keys in Hwf. rewrite fmap_cons, NoDup_cons in Hwf.
  destruct Hwf as [Hk Hm]. specialize (IH Hm). csimpl.
  destruct (decide (k = key)) as [->|Hne].
  - destruct (parseAttribute elementName key v) as [x|] eqn:Hparse; simpl.
    + by rewrite decide_True.
    + rewrite IH. apply (map_get_None_keys (A:=AttributeInput V)) in Hk.
      simpl in Hk. by rewrite Hk.
  - destruct (parseAttribute elementName k v) as [x|]; simpl; [|done].
    by rewrite decide_False.
Qed.

Lemma parseAttributes_wf (elementName : string)
    (attrs : list (string * AttributeInput V)) :
  map_wf (_parseAttributes elementName attrs).
Proof.
  unfold _parseAttributes. pose proof (toMap_wf attrs) as Hwf.
  induction (toMap attrs) as [|[k v] m IH]; [apply NoDup_nil_2|].
  unfold map_wf, map_keys in Hwf. rewrite fmap_cons, NoDup_cons in Hwf.
  destruct Hwf as [Hk Hm]. specialize (IH Hm). csimpl.
  destruct (parseAttribute elementName k v) as [x|]; simpl; [|done].
  unfold map_wf, map_keys. rewrite fmap_cons. apply NoDup_cons. split; [|done].
  simpl. intros Hin. apply Hk.
  apply list_elem_of_fmap in Hin as [[k' x'] [-> Hin]].
  apply list_elem_of_omap in Hin as [[k0 v0] [Hin Hsome]]. simpl in Hsome.
  destruct (parseAttribute elementName k0 v0); simplify_eq/=.
  apply list_elem_of_fmap. by exists (k', v0).
Qed.

(** The constructor establishes the typing of the attribute map. *)
Lemma parseAttributes_typed (elementName : string)
    (attrs : list (string * AttributeInput V)) :
  attrs_typed elementName (_parseAttributes elementName attrs).
Proof.
  unfold attrs_typed, _parseAttributes. apply Forall_forall.
  intros [k x] Hin. apply list_elem_of_omap in Hin as [[k0 v0] [_ Hsome]].
  simpl in *. unfold parseAttribute in Hsome.
  destruct (usesStylesMap elementName k0) eqn:Hs,
    (usesTokenList elementName k0) eqn:Ht, v0;
    simplify_eq/=; by rewrite ?Hs, ?Ht.
Qed.

End construction_facts.

Lemma getAttributeKeys_order_witness :
  getAttributeKeys fooElement = ["class"; "style"; "banana"; "apple"]
  ∧ NoDup (getAttributeKeys fooElement).
Proof.
  destruct (getAttributeKeys_order fooElement) as (Horder & Hnodup & _).
  - unfold map_wf. apply (parseAttributes_wf "foo").
  - apply (parseAttributes_typed "foo").
  - split; [exact Horder|exact Hnodup].
Defined.

(** C7. The structured attributes are told by the name of the element and
    the key together. For the value the constructor is given for a key: a
    [null] is removed and never stored; else [style] is stored as a styles
    map and [class] as a token list, on every element; [rel] is stored as a
    token list on an element named [a] and as a plain string on an element
    of any other name; every other key is stored as a plain string. *)
Theorem parseAttributes_dispatch (elementName key : string)
    (attrs : list (string * AttributeInput StructuredValue))
    (value : AttributeInput StructuredValue) :
  map_get key (toMap attrs) = Some value →
  let stored := map_get key (_parseAttributes elementName attrs) in
  usesTokenList elementName "rel" = bool_decide (elementName = "a")
  ∧ usesTokenList elementName "class" = true
  ∧ usesStylesMap elementName "style" = true
  ∧ match value with
    | InNull => stored = None
    | _ =>
        if bool_decide (key = "style")
        then ∃ s, stored = Some (Structured (Styles s))
        else if bool_decide (key = "class")
        then ∃ s, stored = Some (Structured (Tokens s))
        else if bool_decide (key = "rel")
        then if bool_decide (elementName = "a")
             then ∃ s, stored = Some (Structured (Tokens s))
             else stored = Some (Plain (coerceString value))
        else stored = Some (Plain (coerceString value))
    end.
Proof.
  intros Hget stored. subst stored. rewrite map_get_parseAttributes, Hget.
  split_and!; [|done|done|].
  { unfold usesTokenList. simpl. by rewrite andb_true_r. }
  unfold parseAttribute, usesStylesMap, usesTokenList. simpl.
  destruct value as [|s|[t|t]|l|st|repr]; [done|..];
    repeat case_bool_decide; simplify_eq/=; eauto.
Qed.

(** A key that the constructor is not given is not stored. *)
Lemma parseAttributes_absent (elementName key : string)
    (attrs : list (string * AttributeInput StructuredValue)) :
  map_get key (toMap attrs) = None →
  map_get key (_parseAttributes elementName attrs) = None.
Proof. intros Hget. by rewrite map_get_parseAttributes, Hget. Qed.

Lemma parseAttributes_dispatch_witness :
  map_get "rel" (_parseAttributes "a" [("rel", InString "x y"); ("id", InNull)])
  = Some (Structured (Tokens ["x"; "y"]))
  ∧ map_get "rel" (_parseAttributes "div" [("rel", InString "x y")])
    = Some (Plain "x y")
  ∧ map_get "id" (_parseAttributes "a" [("rel", InString "x y"); ("id", InNull)])
    = None.
Proof.
  pose proof (parseAttributes_dispatch "a" "id"
                [("rel", InString "x y"); ("id", InNull)] InNull eq_refl)
    as (_ & _ & _ & Hnull).
  split_and!; [reflexivity|reflexivity|exact Hnull].
Defined.

(** ** The bookmark converters *)

Section bookmark_facts.
Context {V : Type} `{!Value.ElementAttributeValue V, !Value.Kinds V}.

Lemma hasAttribute_key (element : Element V) (key : string) :
  hasAttribute element key None = map_has key (_attrs element).
Proof. unfold hasAttribute. by destruct (map_has key _). Qed.

(** C8. The matcher of the upcast accepts an element exactly when it is
    named [a], has an [id] attribute, has no [href] attribute and, in the
    data pipeline, has no children; what it returns then is
    [{ name: true, attributes: [ 'id' ] }]. An anchor with [id] and [href]
    is never accepted. The data downcast of a bookmark with the id [id]
    is an [a] element without children whose only attribute is [id], with
    that value; the upcast of that element is a bookmark with that id. *)
Theorem bookmark_upcastMatcher (element : Element V) (dataPipeline : bool)
    (id : string) :
  (is_Some (upcastMatcher element dataPipeline)
   ↔ name element = "a"
     ∧ map_has "id" (_attrs element) = true
     ∧ map_has "href" (_attrs element) = false
     ∧ (dataPipeline = true → _children element = []))
  ∧ (upcastMatcher element dataPipeline = None
     ∨ upcastMatcher element dataPipeline = Some (mkMatcherResult true ["id"]))
  ∧ (map_has "href" (_attrs element) = true →
     upcastMatcher element dataPipeline = None)
  ∧ dataDowncast (mkModelElement "bookmark" [("bookmarkId", id)])
    = mkElement (V:=V) "a" [("id", Plain id)] []
  ∧ upcast (dataDowncast (V:=V) (mkModelElement "bookmark" [("bookmarkId", id)]))
    = Some (mkModelElement "bookmark" [("bookmarkId", id)]).
Proof.
  assert (Hempty : isEmpty element = true ↔ _children element = []).
  { unfold isEmpty. rewrite bool_decide_eq_true. apply length_zero_iff_nil. }
  unfold upcastMatcher. rewrite !hasAttribute_key.
  split_and!; [| | |done|done].
  - case_bool_decide as Hname; simpl; [|split; [by intros [? ?]|by intros [? _]]].
    destruct (map_has "id" _), (map_has "href" _); simpl;
      try (split; [by intros [? ?]|by intros (_&?&?&_)]).
    destruct dataPipeline; simpl.
    + destruct (isEmpty element) eqn:E; simpl.
      * split; [intros _|by eauto]. split_and!; auto. intros _. by apply Hempty.
      * split; [by intros [? ?]|]. intros (_&_&_&Hc).
        apply Hempty in Hc; [|done]. congruence.
    + split; [intros _|by eauto]. by split_and!.
  - destruct (negb _); [by left|]. destruct (_ || _); [by left|by right].
  - intros ->. destruct (negb (bool_decide _)); [done|].
    by rewrite orb_true_r.
Qed.

End bookmark_facts.

Lemma bookmark_upcastMatcher_witness :
  upcastMatcher (createElement "a" [("id", InString "foo"); ("href", InString "#")])
    true = None
  ∧ upcastMatcher (createElement "a" [("id", InString "foo")]) true
    = Some (mkMatcherResult true ["id"]).
Proof.
  split; [|reflexivity].
  by apply (bookmark_upcastMatcher
              (createElement "a" [("id", InString "foo"); ("href", InString "#")])
              true "foo").
Defined.

(** ** Matching of attributes *)

Section matching_facts.
Context {V : Type} `{!Value.ElementAttributeValue V, !Value.Kinds V}.
Implicit Types (attrs : JsMap (AttrValue V)) (matched : Match).

(** The inner loop, in closed form. With a key pattern that is not a regular
    expression the loop gives up at the first selected attribute whose value
    does not match; with a regular expression it goes on. *)
Lemma matchAttributes_closed patternKey patternToken patternValue exclude
    attrs matched (hasKey hasValue : bool) :
  let selected :=
    filter (λ kv, keySelected patternKey exclude kv.1 = true) attrs in
  matchAttributes patternKey patternToken patternValue exclude attrs
    (matched, hasKey, hasValue)
  = if instanceofRegExp patternKey
       || forallb (λ kv, valueMatched patternToken patternValue kv.1 kv.2)
            selected
    then Some (matched ++ collectedMatch patternKey patternToken patternValue
                            exclude attrs,
               hasKey || negb (bool_decide (selected = [])),
               hasValue
               || existsb (λ kv, valueMatched patternToken patternValue kv.1 kv.2)
                    selected)
    else None.
Proof.
  revert matched hasKey hasValue.
  induction attrs as [|[key value] attrs IH]; intros matched hasKey hasValue.
  { simpl. rewrite orb_true_r, app_nil_r, !orb_false_r. done. }
  assert (Hcond : excluded exclude key || negb (isPatternMatched patternKey key)
                  = negb (keySelected patternKey exclude key)).
  { unfold keySelected. by destruct (excluded _ _), (isPatternMatched _ _). }
  cbn [matchAttributes collectedMatch]. rewrite filter_cons, Hcond. cbn [fst snd].
  destruct (keySelected patternKey exclude key) eqn:Hsel; cbn [negb andb].
  2: { rewrite decide_False by done. rewrite IH. done. }
  rewrite decide_True by done. cbn [forallb existsb fst snd].
  destruct value as [s|v]; simpl.
  - destruct (isPatternMatched patternToken s) eqn:Hvalue; simpl.
    + rewrite IH. rewrite ?orb_true_r. simpl.
      destruct (instanceofRegExp patternKey || forallb _ _); [|done].
      by rewrite <-app_assoc.
    + destruct (instanceofRegExp patternKey) eqn:Hre; simpl; [|done].
      rewrite IH. rewrite ?Hre. simpl. by rewrite ?orb_true_r.
  - destruct (Value._getTokensMatch v key patternToken (orTrue patternValue))
      as [tokenMatch|] eqn:Htokens; simpl.
    + rewrite IH. rewrite ?orb_true_r. simpl.
      destruct (instanceofRegExp patternKey || forallb _ _); [|done].
      by rewrite <-app_assoc.
    + destruct (instanceofRegExp patternKey) eqn:Hre; simpl; [|done].
      rewrite IH. rewrite ?Hre. simpl. by rewrite ?orb_true_r.
Qed.

Lemma matchPatterns_no_value patterns exclude attrs matched
    patternKey patternToken patternValue :
  (patternKey, patternToken, patternValue) ∈ patterns →
  (∀ key value, (key, value) ∈ attrs →
     keySelected patternKey exclude key = true →
     valueMatched patternToken patternValue key value = false) →
  matchPatterns patterns exclude attrs matched = None.
Proof.
  intros Hin Hno. revert matched.
  induction patterns as [|[[pk pt] pv] patterns IH]; intros matched.
  { by apply elem_of_nil in Hin. }
  simpl. rewrite matchAttributes_closed.
  apply elem_of_cons in Hin as [[= <- <- <-]|Hin].
  - destruct (_ || _); [|done]. simpl.
    assert (existsb (λ kv, valueMatched patternToken patternValue kv.1 kv.2)
              (filter (λ kv, keySelected patternKey exclude kv.1 = true) attrs)
            = false) as ->.
    { apply not_true_is_false. intros Hex. apply existsb_exists in Hex
        as [[key value] [Hel Hm]]. apply list_elem_of_In in Hel.
      apply list_elem_of_filter in Hel as [Hsel Hel]. simpl in *.
      rewrite (Hno key value) in Hm; done. }
    by rewrite orb_true_r.
  - destruct (_ || _); [|done]. destruct (negb _ || negb _); [done|].
    by apply IH.
Qed.

(** C1, as the code has it. If no attribute selected by a key pattern has
    a value (or token) that matches the value pattern, the call returns no
    match, whether the key pattern is an exact string or a regular
    expression. What a regular expression as the key pattern tolerates is a
    selected attribute whose value does not match, next to one whose value
    does: that attribute is skipped, and the match holds the attributes
    whose values match; with an exact key pattern one selected attribute
    whose value does not match makes the call return no match. *)
Theorem getAttributesMatch_key_without_value (this : Element V)
    (exclude : option (list string)) :
  (∀ patterns patternKey patternToken patternValue,
     (patternKey, patternToken, patternValue) ∈ patterns →
     (∀ key value, (key, value) ∈ _attrs this →
        keySelected patternKey exclude key = true →
        valueMatched patternToken patternValue key value = false) →
     _getAttributesMatch this patterns exclude = None)
  ∧ (∀ patternKey patternToken patternValue,
       let selected :=
         filter (λ kv, keySelected patternKey exclude kv.1 = true)
           (_attrs this) in
       _getAttributesMatch this [(patternKey, patternToken, patternValue)]
         exclude
       = if (instanceofRegExp patternKey
             || forallb (λ kv, valueMatched patternToken patternValue kv.1 kv.2)
                  selected)
            && existsb (λ kv, valueMatched patternToken patternValue kv.1 kv.2)
                 selected
         then Some (collectedMatch patternKey patternToken patternValue
                      exclude (_attrs this))
         else None).
Proof.
  split.
  - intros patterns patternKey patternToken patternValue Hin Hno.
    by eapply matchPatterns_no_value.
  - intros patternKey patternToken patternValue selected.
    unfold _getAttributesMatch. simpl. rewrite matchAttributes_closed.
    fold selected. destruct (_ || _); [|done]. simpl.
    destruct (existsb _ selected) eqn:Hex; simpl.
    + assert (bool_decide (selected = []) = false) as ->; [|done].
      apply bool_decide_eq_false. intros Hnil. by rewrite Hnil in Hex.
    + by rewrite orb_true_r.
Qed.

End matching_facts.

Lemma getAttributesMatch_key_without_value_witness :
  _getAttributesMatch dataFooElement [(PString "data-foo", PString "baz", None)]
    None = None
  ∧ _getAttributesMatch dataFooElement [(dataKeys, PString "baz", None)] None
    = None
  ∧ _getAttributesMatch dataFooBarElement [(dataKeys, PString "baz", None)] None
    = Some [("data-bar", None)]
  ∧ _getAttributesMatch dataFooBarElement
      [(PTrue, PString "baz", None)] None = None.
Proof.
  destruct (getAttributesMatch_key_without_value dataFooElement None)
    as [Hnone _].
  split_and!; [| |reflexivity|reflexivity].
  - apply (Hnone _ (PString "data-foo") (PString "baz") None); [left|].
    intros key value Hin. apply list_elem_of_singleton in Hin as [= -> ->].
    reflexivity.
  - apply (Hnone _ dataKeys (PString "baz") None); [left|].
    intros key value Hin. apply list_elem_of_singleton in Hin as [= -> ->].
    reflexivity.
Defined.

(** C1, as stated, fails: the key pattern [/^data-/] matches the key of the
    only attribute, [data-foo="bar"], whose value does not match the value
    pattern [baz]; the call returns no match, not a match that holds the
    key. *)
Lemma getAttributesMatch_regexp_counterexample :
  isPatternMatched dataKeys "data-foo" = true
  ∧ _attrs dataFooElement = [("data-foo", Plain "bar")]
  ∧ isPatternMatched (PString "baz") "bar" = false
  ∧ _getAttributesMatch dataFooElement [(dataKeys, PString "baz", None)] None
    ≠ Some [("data-foo", None)]
  ∧ ¬ is_Some (_getAttributesMatch dataFooElement
                 [(dataKeys, PString "baz", None)] None).
Proof. split_and!; [done|done|done|done|]. by intros [? ?]. Qed.

(** ** Merging and subtracting attributes *)

Section merge_facts.
Context {V : Type} `{!Value.ElementAttributeValue V, !Value.Kinds V}.
Implicit Types (st : Element V * list (Notification V)) (K : list string).

Lemma changes_only_refl K st : changes_only K st st.
Proof.
  split_and!; auto. all: exists []; by rewrite app_nil_r.
Qed.

Lemma changes_only_trans K st1 st2 st3 :
  changes_only K st1 st2 → changes_only K st2 st3 → changes_only K st1 st3.
Proof.
  intros (Hn1 & Hc1 & Hk1 & e1 & He1 & Hf1) (Hn2 & Hc2 & Hk2 & e2 & He2 & Hf2).
  split_and!; [congruence|congruence| |].
  - intros key Hkey. by rewrite Hk2, Hk1.
  - exists (e1 ++ e2). rewrite He2, He1, app_assoc. split; [done|].
    by apply Forall_app.
Qed.

Lemma changes_only_mono K K' st st' :
  K ⊆ K' → changes_only K st st' → changes_only K' st st'.
Proof.
  intros Hsub (Hn & Hc & Hk & He). split_and!; auto.
Qed.

Lemma changes_only_putAttrs key value st :
  changes_only [key] st
    (putAttrs (map_set key value (_attrs st.1)) st).2.
Proof.
  split_and!; simpl; auto.
  - intros key' Hne. apply map_get_set_ne. intros ->. apply Hne. left.
  - exists []. by rewrite app_nil_r.
Qed.

Lemma changes_only_deleteAttr key st :
  changes_only [key] st (deleteAttr key st).2.
Proof.
  split_and!; simpl; auto.
  - intros key' Hne. apply map_get_delete_ne. intros ->. apply Hne. left.
  - exists []. by rewrite app_nil_r.
Qed.

Lemma changes_only_fireChange st :
  changes_only [] st (_fireChange AttributesChange st).2.
Proof.
  split_and!; simpl; auto. exists [(AttributesChange, st.1)].
  split; [done|]. by apply Forall_singleton.
Qed.

Lemma changes_only_setAttribute key value reset st :
  changes_only [key] st (_setAttribute key value reset st).2.
Proof.
  destruct st as [[nm attrs children] log].
  unfold _setAttribute. op_unfold.
  assert (Hlog : ∃ extra,
    log ++ [(AttributesChange, mkElement nm attrs children)] = log ++ extra
    ∧ Forall (λ n : Notification V, n.1 = AttributesChange) extra).
  { eexists. split; [done|]. by apply Forall_singleton. }
  assert (Hne : ∀ key', key' ∉ [key] → key ≠ key').
  { intros key' Hnotin ->. apply Hnotin. left. }
  destruct (usesStylesMap nm key || usesTokenList nm key); simpl.
  - destruct (asValue (map_get key attrs)) as [currentValue|]; simpl.
    + split_and!; simpl; auto. intros key' Hkey.
      by rewrite map_get_set_ne by auto.
    + split_and!; simpl; auto. intros key' Hkey.
      by rewrite !map_get_set_ne by auto.
  - split_and!; simpl; auto. intros key' Hkey.
    by rewrite map_get_set_ne by auto.
Qed.

(** A loop whose rounds change the attribute at the key they visit only. *)
Lemma changes_only_forEach (body : string * AttrValue V → Op V unit)
    (entries : JsMap (AttrValue V)) st :
  (∀ kv st, changes_only [kv.1] st (body kv st).2) →
  changes_only (map_keys entries) st (forEach body entries st).2.
Proof.
  intros Hbody. revert st.
  induction entries as [|kv entries IH]; intros st; simpl.
  { apply changes_only_refl. }
  unfold mbind, Op_bind. destruct (body kv st) as [[] st'] eqn:Hst'.
  eapply changes_only_trans.
  - eapply changes_only_mono; [|pose proof (Hbody kv st) as H'; by rewrite Hst' in H'].
    intros key ->%list_elem_of_singleton. unfold map_keys. csimpl. left.
  - eapply changes_only_mono; [|apply IH].
    intros key Hkey. unfold map_keys. csimpl. by right.
Qed.

Lemma changes_only_merge_round (kv : string * AttrValue V) st :
  changes_only [kv.1] st
    ((this ← getThis;
      match map_get kv.1 (_attrs this), kv.2 with
      | Some (Structured value), Structured otherValue =>
          putAttrs (map_set kv.1
                      (Structured (Value.mergeFrom value otherValue))
                      (_attrs this))
      | _, otherValue => _setAttribute kv.1 (attributeInput otherValue) true
      end) st).2.
Proof.
  unfold mbind, Op_bind, getThis. simpl.
  destruct (map_get kv.1 (_attrs st.1)) as [[s|value]|], kv.2 as [os|otherValue];
    try apply changes_only_setAttribute.
  apply changes_only_putAttrs.
Qed.

Lemma changes_only_subtract_round (kv : string * AttrValue V) st :
  changes_only [kv.1] st
    ((this ← getThis;
      match map_get kv.1 (_attrs this), kv.2 with
      | Some (Structured value), Structured otherValue =>
          let value' := Value.remove value (Many (Value.keys otherValue)) in
          putAttrs (map_set kv.1 (Structured value') (_attrs this));;
          if Value.isEmpty value' then deleteAttr kv.1;; mret tt
          else mret tt
      | _, _ => deleteAttr kv.1;; mret tt
      end) st).2.
Proof.
  unfold mbind, Op_bind, getThis, mret, Op_ret. simpl.
  destruct (map_get kv.1 (_attrs st.1)) as [[s|value]|], kv.2 as [os|otherValue];
    try apply changes_only_deleteAttr.
  simpl. destruct (Value.isEmpty _).
  - eapply changes_only_trans; [apply changes_only_putAttrs|].
    apply (changes_only_deleteAttr kv.1 (_, _)).
  - apply changes_only_putAttrs.
Qed.

(** A loop whose rounds fire nothing fires nothing. *)
Lemma silent_forEach (body : string * AttrValue V → Op V unit)
    (entries : JsMap (AttrValue V)) st :
  (∀ kv st, (body kv st).2.2 = st.2) →
  (forEach body entries st).2.2 = st.2.
Proof.
  intros Hbody. revert st.
  induction entries as [|kv entries IH]; intros st; simpl; [done|].
  unfold mbind, Op_bind. destruct (body kv st) as [[] st'] eqn:Hst'.
  rewrite IH. pose proof (Hbody kv st) as H'. by rewrite Hst' in H'.
Qed.

Lemma silent_subtract_round (kv : string * AttrValue V) st :
  ((this ← getThis;
    match map_get kv.1 (_attrs this), kv.2 with
    | Some (Structured value), Structured otherValue =>
        let value' := Value.remove value (Many (Value.keys otherValue)) in
        putAttrs (map_set kv.1 (Structured value') (_attrs this));;
        if Value.isEmpty value' then deleteAttr kv.1;; mret tt
        else mret tt
    | _, _ => deleteAttr kv.1;; mret tt
    end) st).2.2 = st.2.
Proof.
  unfold mbind, Op_bind, getThis, mret, Op_ret. simpl.
  destruct (map_get kv.1 (_attrs st.1)) as [[s|value]|], kv.2 as [os|otherValue];
    try done.
  simpl. by destruct (Value.isEmpty _).
Qed.

(** A loop over the entries of a map visits every key once: what it
    leaves under a key is what the round of that key leaves there. *)
Lemma forEach_at_key (body : string * AttrValue V → Op V unit)
    (effect : string → AttrValue V → string → option (AttrValue V)
              → option (AttrValue V))
    (entries : JsMap (AttrValue V)) st key value :
  (∀ kv st, changes_only [kv.1] st (body kv st).2) →
  (∀ kv st, map_get kv.1 (_attrs (body kv st).2.1)
            = effect kv.1 kv.2 (name st.1) (map_get kv.1 (_attrs st.1))) →
  map_wf entries →
  (key, value) ∈ entries →
  map_get key (_attrs (forEach body entries st).2.1)
  = effect key value (name st.1) (map_get key (_attrs st.1)).
Proof.
  intros Hframe Heffect. revert st.
  induction entries as [|kv entries IH]; intros st Hwf Hin.
  { by apply elem_of_nil in Hin. }
  unfold map_wf, map_keys in Hwf. rewrite fmap_cons, NoDup_cons in Hwf.
  destruct Hwf as [Hfresh Hwf]. simpl. unfold mbind, Op_bind.
  pose proof (Hframe kv st) as Hround. pose proof (Heffect kv st) as Hvalue.
  destruct (body kv st) as [[] st'] eqn:Hst'. simpl in Hround, Hvalue.
  apply elem_of_cons in Hin as [<-|Hin].
  - pose proof (changes_only_forEach body entries st' Hframe)
      as (_ & _ & Hrest & _).
    rewrite Hrest by done. done.
  - rewrite IH by done. destruct Hround as (Hname & _ & Hkeep & _).
    rewrite Hname, Hkeep; [done|]. intros Hkey%list_elem_of_singleton.
    apply Hfresh. rewrite <-Hkey. apply list_elem_of_fmap. by exists (key, value).
Qed.

Lemma setAttribute_at_key key (value : AttributeInput V) st :
  map_get key (_attrs (_setAttribute key value true st).2.1)
  = Some (if usesStylesMap (name st.1) key || usesTokenList (name st.1) key
          then Structured
                 (Value.setTo
                    match asValue (map_get key (_attrs st.1)) with
                    | Some current => current
                    | None => if usesStylesMap (name st.1) key
                              then Value.newStylesMap
                              else Value.newTokenList
                    end
                    (coerceString value))
          else Plain (coerceString value)).
Proof.
  destruct st as [[nm attrs children] log]. unfold _setAttribute. op_unfold.
  destruct (usesStylesMap nm key || usesTokenList nm key); simpl.
  - destruct (asValue (map_get key attrs)); simpl; by rewrite map_get_set_eq.
  - by rewrite map_get_set_eq.
Qed.

Lemma merge_round_at_key (kv : string * AttrValue V) st :
  map_get kv.1
    (_attrs ((this ← getThis;
              match map_get kv.1 (_attrs this), kv.2 with
              | Some (Structured value), Structured otherValue =>
                  putAttrs (map_set kv.1
                              (Structured (Value.mergeFrom value otherValue))
                              (_attrs this))
              | _, otherValue =>
                  _setAttribute kv.1 (attributeInput otherValue) true
              end) st).2.1)
  = mergedValue kv.1 kv.2 (name st.1) (map_get kv.1 (_attrs st.1)).
Proof.
  unfold mbind, Op_bind, getThis, mergedValue. simpl.
  destruct (map_get kv.1 (_attrs st.1)) as [[s|value]|] eqn:Hget,
    kv.2 as [os|otherValue];
    try (rewrite setAttribute_at_key, Hget; done).
  simpl. by rewrite map_get_set_eq.
Qed.

Lemma subtract_round_at_key (kv : string * AttrValue V) st :
  map_get kv.1
    (_attrs ((this ← getThis;
              match map_get kv.1 (_attrs this), kv.2 with
              | Some (Structured value), Structured otherValue =>
                  let value' :=
                    Value.remove value (Many (Value.keys otherValue)) in
                  putAttrs (map_set kv.1 (Structured value') (_attrs this));;
                  if Value.isEmpty value' then deleteAttr kv.1;; mret tt
                  else mret tt
              | _, _ => deleteAttr kv.1;; mret tt
              end) st).2.1)
  = subtractedValue kv.1 kv.2 (name st.1) (map_get kv.1 (_attrs st.1)).
Proof.
  unfold mbind, Op_bind, getThis, mret, Op_ret, subtractedValue. simpl.
  destruct (map_get kv.1 (_attrs st.1)) as [[s|value]|], kv.2 as [os|otherValue];
    simpl; try apply map_get_delete_eq.
  destruct (Value.isEmpty _); simpl.
  - apply map_get_delete_eq.
  - apply map_get_set_eq.
Qed.

Lemma coerceString_attributeInput (value : AttrValue V) :
  coerceString (attributeInput value) = valueString value.
Proof. by destruct value. Qed.

(** C4. [_mergeAttributesFrom] and [_subtractAttributesOf] first run their
    check, and return what the check returns. When the check fails they
    fire nothing and leave the element as it is. When it passes, the first
    notification they fire is of the kind "attributes" and shows the
    element as it was before the call, every further one is of that kind;
    the name and the children stay, and so does every attribute whose key
    is not a key of the other element. Under every key of the other
    element the merge leaves the value of the other element: merged into
    the structured value of the element where both hold one, else as a new
    styles map or token list set to its string under a key that uses one,
    else as its string. Under every key of the other element the
    subtraction leaves nothing, or, where both hold a structured value, the
    value of the element without the tokens the other value has, when that
    is not empty. *)
Theorem merge_subtract_gated (this otherElement : Element V) :
  element_inv this →
  map_wf (_attrs otherElement) →
  let merged := run (_mergeAttributesFrom otherElement) this in
  let subtracted := run (_subtractAttributesOf otherElement) this in
  let applied (r : bool * (Element V * list (Notification V))) :=
    (∃ rest, fired r = (AttributesChange, this) :: rest
             ∧ Forall (λ n : Notification V, n.1 = AttributesChange) rest)
    ∧ name (after r) = name this
    ∧ _children (after r) = _children this
    ∧ ∀ key, key ∉ map_keys (_attrs otherElement) →
             map_get key (_attrs (after r)) = map_get key (_attrs this) in
  result merged = _canMergeAttributesFrom this otherElement
  ∧ (if _canMergeAttributesFrom this otherElement
     then applied merged
          ∧ ∀ key otherValue, (key, otherValue) ∈ _attrs otherElement →
              map_get key (_attrs (after merged))
              = Some
                  match map_get key (_attrs this), otherValue with
                  | Some (Structured value), Structured otherValue' =>
                      Structured (Value.mergeFrom value otherValue')
                  | _, _ =>
                      if usesStylesMap (name this) key
                      then Structured (Value.setTo Value.newStylesMap
                                         (valueString otherValue))
                      else if usesTokenList (name this) key
                      then Structured (Value.setTo Value.newTokenList
                                         (valueString otherValue))
                      else Plain (valueString otherValue)
                  end
     else fired merged = [] ∧ after merged = this)
  ∧ result subtracted = _hasAttributesMatching this otherElement
  ∧ (if _hasAttributesMatching this otherElement
     then applied subtracted ∧ fired subtracted = [(AttributesChange, this)]
          ∧ ∀ key otherValue, (key, otherValue) ∈ _attrs otherElement →
              map_get key (_attrs (after subtracted))
              = match map_get key (_attrs this), otherValue with
                | Some (Structured value), Structured otherValue' =>
                    let remaining :=
                      Value.remove value (Many (Value.keys otherValue')) in
                    if Value.isEmpty remaining then None
                    else Some (Structured remaining)
                | _, _ => None
                end
     else fired subtracted = [] ∧ after subtracted = this).
Proof.
  intros [Hwf Htyped] Hwf'.
  assert (Happlied : ∀ body : string * AttrValue V → Op V unit,
    (∀ kv st, changes_only [kv.1] st (body kv st).2) →
    let r := forEach body (_attrs otherElement)
               (this, [(AttributesChange, this)]) in
    (∃ rest, r.2.2 = (AttributesChange, this) :: rest
             ∧ Forall (λ n : Notification V, n.1 = AttributesChange) rest)
    ∧ name r.2.1 = name this
    ∧ _children r.2.1 = _children this
    ∧ ∀ key, key ∉ map_keys (_attrs otherElement) →
             map_get key (_attrs r.2.1) = map_get key (_attrs this)).
  { intros body Hbody r.
    destruct (changes_only_forEach body (_attrs otherElement)
                (this, [(AttributesChange, this)]) Hbody)
      as (Hn & Hc & Hk & extra & He & Hf).
    fold r in Hn, Hc, Hk, He. split_and!; auto. exists extra. by split. }
  assert (Hmerged : _canMergeAttributesFrom this otherElement = true →
    ∀ key otherValue, (key, otherValue) ∈ _attrs otherElement →
      mergedValue key otherValue (name this) (map_get key (_attrs this))
      = Some
          match map_get key (_attrs this), otherValue with
          | Some (Structured value), Structured otherValue' =>
              Structured (Value.mergeFrom value otherValue')
          | _, _ =>
              if usesStylesMap (name this) key
              then Structured (Value.setTo Value.newStylesMap
                                 (valueString otherValue))
              else if usesTokenList (name this) key
              then Structured (Value.setTo Value.newTokenList
                                 (valueString otherValue))
              else Plain (valueString otherValue)
          end).
  { intros Hcheck key otherValue Hin. unfold mergedValue.
    rewrite coerceString_attributeInput.
    unfold _canMergeAttributesFrom in Hcheck.
    destruct (negb (bool_decide (name this = name otherElement))); [done|].
    rewrite forallb_forall in Hcheck.
    specialize (Hcheck _ (proj1 (list_elem_of_In _ _) Hin)). simpl in Hcheck.
    destruct (map_get key (_attrs this)) as [[s|value]|] eqn:Hget.
    - apply map_get_elem_of in Hget. unfold attrs_typed in Htyped.
      rewrite Forall_forall in Htyped. specialize (Htyped _ Hget).
      simpl in Htyped. apply negb_true_iff, orb_false_elim in Htyped as [-> ->].
      by destruct otherValue.
    - destruct otherValue as [os|otherValue']; [done|done].
    - simpl. destruct (usesStylesMap (name this) key),
        (usesTokenList (name this) key); by destruct otherValue. }
  intros merged subtracted applied. subst merged subtracted applied.
  unfold _mergeAttributesFrom, _subtractAttributesOf. op_unfold.
  split_and!.
  - destruct (_canMergeAttributesFrom this otherElement); simpl; [|done].
    by destruct (forEach _ _ _) as [[] ?].
  - destruct (_canMergeAttributesFrom this otherElement) eqn:Hcheck; simpl;
      [|done].
    pose proof (Happlied _ changes_only_merge_round) as Hrun. simpl in Hrun.
    unfold mbind, Op_bind, getThis in Hrun.
    match goal with |- context [forEach ?body ?entries0 ?st0] =>
      pose proof (λ key otherValue,
                    forEach_at_key body (@mergedValue V _ _) entries0 st0
                      key otherValue changes_only_merge_round
                      merge_round_at_key Hwf') as Hkeys end.
    simpl in Hkeys.
    destruct (forEach _ _ _) as [[] ?]. simpl in *. split; [done|].
    intros key otherValue Hin. rewrite (Hkeys key otherValue Hin).
    by apply Hmerged.
  - destruct (_hasAttributesMatching this otherElement); simpl; [|done].
    by destruct (forEach _ _ _) as [[] ?].
  - destruct (_hasAttributesMatching this otherElement); simpl; [|done].
    pose proof (Happlied _ changes_only_subtract_round) as Hrun. simpl in Hrun.
    unfold mbind, Op_bind, getThis, mret, Op_ret in Hrun.
    pose proof (silent_forEach _ (_attrs otherElement)
                  (this, [(AttributesChange, this)]) silent_subtract_round)
      as Hsilent.
    unfold mbind, Op_bind, getThis, mret, Op_ret in Hsilent.
    pose proof (λ key otherValue,
                  forEach_at_key _ (@subtractedValue V _) (_attrs otherElement)
                    (this, [(AttributesChange, this)])
                    key otherValue changes_only_subtract_round
                    subtract_round_at_key Hwf') as Hkeys.
    unfold mbind, Op_bind, getThis, mret, Op_ret in Hkeys. simpl in Hkeys.
    destruct (forEach _ _ _) as [[] ?]. simpl in *.
    split; [done|]. split; [done|].
    intros key otherValue Hin. by rewrite (Hkeys key otherValue Hin).
Qed.

(** What a merge that passes its check leaves: every key of the other
    element is a key of the element. *)
Lemma map_has_set key key' (value : AttrValue V) (m : JsMap (AttrValue V)) :
  map_has key' (map_set key value m)
  = bool_decide (key = key') || map_has key' m.
Proof.
  apply eq_true_iff_eq. rewrite orb_true_iff, bool_decide_eq_true, !map_has_true.
  destruct (decide (key = key')) as [->|Hne].
  - rewrite map_get_set_eq. split; [by left|by eauto].
  - rewrite map_get_set_ne by done. split; [by right|]. by intros [?|?].
Qed.

Lemma setAttribute_has key key' value reset st :
  map_has key' (_attrs (_setAttribute key value reset st).2.1)
  = bool_decide (key = key') || map_has key' (_attrs st.1).
Proof.
  destruct st as [e log]. unfold _setAttribute. op_unfold.
  destruct (usesStylesMap (name e) key || usesTokenList (name e) key); simpl.
  - destruct (asValue (map_get key (_attrs e))); simpl;
      rewrite !map_has_set; by destruct (bool_decide (key = key')).
  - by rewrite map_has_set.
Qed.

Lemma forEach_has (body : string * AttrValue V → Op V unit)
    (entries : JsMap (AttrValue V)) st key :
  (∀ kv st, map_has key (_attrs (body kv st).2.1)
            = bool_decide (kv.1 = key) || map_has key (_attrs st.1)) →
  map_has key (_attrs (forEach body entries st).2.1)
  = map_has key (_attrs st.1) || bool_decide (key ∈ map_keys entries).
Proof.
  intros Hbody. revert st.
  induction entries as [|kv entries IH]; intros st; simpl.
  { by rewrite orb_false_r. }
  unfold mbind, Op_bind. destruct (body kv st) as [[] st'] eqn:Hst'.
  rewrite IH. pose proof (Hbody kv st) as Hround. rewrite Hst' in Hround.
  simpl in Hround. rewrite Hround. unfold map_keys. csimpl.
  apply eq_true_iff_eq.
  rewrite !orb_true_iff, !bool_decide_eq_true, elem_of_cons.
  intuition congruence.
Qed.

Lemma merge_round_has (kv : string * AttrValue V) st key :
  map_has key
    (_attrs ((this ← getThis;
              match map_get kv.1 (_attrs this), kv.2 with
              | Some (Structured value), Structured otherValue =>
                  putAttrs (map_set kv.1
                              (Structured (Value.mergeFrom value otherValue))
                              (_attrs this))
              | _, otherValue =>
                  _setAttribute kv.1 (attributeInput otherValue) true
              end) st).2.1)
  = bool_decide (kv.1 = key) || map_has key (_attrs st.1).
Proof.
  unfold mbind, Op_bind, getThis. simpl.
  destruct (map_get kv.1 (_attrs st.1)) as [[s|value]|], kv.2 as [os|otherValue];
    try apply setAttribute_has.
  simpl. apply map_has_set.
Qed.

Lemma mergeAttributesFrom_keys (this otherElement : Element V) key :
  _canMergeAttributesFrom this otherElement = true →
  map_has key (_attrs (after (run (_mergeAttributesFrom otherElement) this)))
  = map_has key (_attrs this)
    || bool_decide (key ∈ map_keys (_attrs otherElement)).
Proof.
  intros Hcheck. unfold _mergeAttributesFrom. op_unfold. rewrite Hcheck. simpl.
  match goal with |- context [forEach ?body ?entries0 ?st0] =>
    pose proof (forEach_has body entries0 st0 key
                  (λ kv1 st1, merge_round_has kv1 st1 key)) as Hloop end.
  by destruct (forEach _ _ _) as [[] st'].
Qed.

(** What a subtraction that passes its check leaves: no new key, and no
    key that the other element holds with a plain value. *)
Lemma subtract_round_has (kv : string * AttrValue V) st key :
  map_has key
    (_attrs ((this ← getThis;
              match map_get kv.1 (_attrs this), kv.2 with
              | Some (Structured value), Structured otherValue =>
                  let value' :=
                    Value.remove value (Many (Value.keys otherValue)) in
                  putAttrs (map_set kv.1 (Structured value') (_attrs this));;
                  if Value.isEmpty value' then deleteAttr kv.1;; mret tt
                  else mret tt
              | _, _ => deleteAttr kv.1;; mret tt
              end) st).2.1) = true →
  map_has key (_attrs st.1) = true
  ∧ (∀ s, kv.2 = Plain s → key ≠ kv.1).
Proof.
  unfold mbind, Op_bind, getThis, mret, Op_ret. simpl.
  assert (Hdelete : ∀ m : JsMap (AttrValue V),
    map_has key (map_delete kv.1 m) = true →
    map_has key m = true ∧ key ≠ kv.1).
  { intros m Hhas. destruct (decide (kv.1 = key)) as [<-|Hne].
    - by rewrite map_has_delete in Hhas.
    - split; [|done]. apply map_has_true. apply map_has_true in Hhas.
      by rewrite map_get_delete_ne in Hhas. }
  destruct (map_get kv.1 (_attrs st.1)) as [[s|value]|] eqn:Hget,
    kv.2 as [os|otherValue]; simpl;
    try (intros [? ?]%Hdelete; split; [done|by intros]).
  assert (Hpresent : map_has kv.1 (_attrs st.1) = true).
  { apply map_has_true. rewrite Hget. by eexists. }
  destruct (Value.isEmpty _); simpl.
  - intros [Hhas Hne]%Hdelete. split; [|done].
    rewrite map_has_set in Hhas. apply orb_true_iff in Hhas as [Heq|Hhas];
      [|done]. by apply bool_decide_eq_true in Heq.
  - intros Hhas. split; [|done]. rewrite map_has_set in Hhas.
    apply orb_true_iff in Hhas as [Heq|Hhas]; [|done].
    apply bool_decide_eq_true in Heq. by subst.
Qed.

Lemma forEach_shrinks (body : string * AttrValue V → Op V unit)
    (entries : JsMap (AttrValue V)) st key :
  (∀ kv st, map_has key (_attrs (body kv st).2.1) = true →
            map_has key (_attrs st.1) = true
            ∧ (∀ s, kv.2 = Plain s → key ≠ kv.1)) →
  map_has key (_attrs (forEach body entries st).2.1) = true →
  map_has key (_attrs st.1) = true
  ∧ (∀ s, (key, Plain s) ∉ entries).
Proof.
  intros Hbody. revert st.
  induction entries as [|kv entries IH]; intros st; simpl.
  { intros Hhas. split; [done|]. intros s. apply not_elem_of_nil. }
  unfold mbind, Op_bind. destruct (body kv st) as [[] st'] eqn:Hst'.
  intros [Hhas Hrest]%IH. pose proof (Hbody kv st) as Hround.
  rewrite Hst' in Hround. destruct (Hround Hhas) as [Hst Hkv].
  split; [done|]. intros s [<-|Hin]%elem_of_cons; [|by eapply Hrest].
  by apply (Hkv s).
Qed.

Lemma subtractAttributesOf_keys (this otherElement : Element V) key :
  _hasAttributesMatching this otherElement = true →
  map_has key (_attrs (after (run (_subtractAttributesOf otherElement) this)))
  = true →
  map_has key (_attrs this) = true
  ∧ ∀ s, (key, Plain s) ∉ _attrs otherElement.
Proof.
  intros Hcheck. unfold _subtractAttributesOf. op_unfold. rewrite Hcheck. simpl.
  match goal with |- context [forEach ?body ?entries0 ?st0] =>
    pose proof (forEach_shrinks body entries0 st0 key
                  (λ kv1 st1, subtract_round_has kv1 st1 key)) as Hloop end.
  by destruct (forEach _ _ _) as [[] st'].
Qed.

End merge_facts.

Lemma merge_subtract_gated_witness :
  let merged := run (_mergeAttributesFrom spanB) spanA in
  let subtracted := run (_subtractAttributesOf spanB) spanA in
  let applied (r : bool * (ViewElement * list (Notification StructuredValue))) :=
    (∃ rest, fired r = (AttributesChange, spanA) :: rest
             ∧ Forall (λ n : Notification StructuredValue, n.1 = AttributesChange) rest)
    ∧ name (after r) = name spanA
    ∧ _children (after r) = _children spanA
    ∧ ∀ key, key ∉ map_keys (_attrs spanB) →
             map_get key (_attrs (after r)) = map_get key (_attrs spanA) in
  result merged = _canMergeAttributesFrom spanA spanB
  ∧ (if _canMergeAttributesFrom spanA spanB
     then applied merged
          ∧ ∀ key otherValue, (key, otherValue) ∈ _attrs spanB →
              map_get key (_attrs (after merged))
              = Some
                  match map_get key (_attrs spanA), otherValue with
                  | Some (Structured value), Structured otherValue' =>
                      Structured (Value.mergeFrom value otherValue')
                  | _, _ =>
                      if usesStylesMap (name spanA) key
                      then Structured (Value.setTo Value.newStylesMap
                                         (valueString otherValue))
                      else if usesTokenList (name spanA) key
                      then Structured (Value.setTo Value.newTokenList
                                         (valueString otherValue))
                      else Plain (valueString otherValue)
                  end
     else fired merged = [] ∧ after merged = spanA)
  ∧ result subtracted = _hasAttributesMatching spanA spanB
  ∧ (if _hasAttributesMatching spanA spanB
     then applied subtracted ∧ fired subtracted = [(AttributesChange, spanA)]
          ∧ ∀ key otherValue, (key, otherValue) ∈ _attrs spanB →
              map_get key (_attrs (after subtracted))
              = match map_get key (_attrs spanA), otherValue with
                | Some (Structured value), Structured otherValue' =>
                    let remaining :=
                      Value.remove value (Many (Value.keys otherValue')) in
                    if Value.isEmpty remaining then None
                    else Some (Structured remaining)
                | _, _ => None
                end
     else fired subtracted = [] ∧ after subtracted = spanA).
Proof.
  apply (merge_subtract_gated spanA spanB).
  - split; [apply (parseAttributes_wf "span")
           |apply (parseAttributes_typed "span")].
  - apply (parseAttributes_wf "span").
Defined.

(** ** The invariant of the attributes *)

Section invariant_facts.
Context {V : Type} `{!Value.ElementAttributeValue V, !Value.Kinds V}.
Implicit Types (st : Element V * list (Notification V)).

Lemma attrs_typed_set nm key (value : AttrValue V) (m : JsMap (AttrValue V)) :
  value_typed nm key value = true →
  attrs_typed nm m → attrs_typed nm (map_set key value m).
Proof.
  intros Hvalue. unfold attrs_typed.
  induction m as [|[k v] m IH]; simpl; intros Hm.
  - by apply Forall_singleton.
  - apply Forall_cons in Hm as [Hk Hm]. destruct (decide (k = key)).
    + by apply Forall_cons_2.
    + apply Forall_cons_2; [done|]. by apply IH.
Qed.

Lemma attrs_typed_delete nm key (m : JsMap (AttrValue V)) :
  attrs_typed nm m → attrs_typed nm (map_delete key m).
Proof.
  unfold attrs_typed, map_delete. rewrite !Forall_forall.
  intros Hm kv [_ Hin]%list_elem_of_filter. by apply Hm.
Qed.

Lemma attrs_typed_structured nm key (v : V) (m : JsMap (AttrValue V)) :
  attrs_typed nm m →
  map_get key m = Some (Structured v) →
  usesStylesMap nm key || usesTokenList nm key = true.
Proof.
  intros Hm Hget%map_get_elem_of. unfold attrs_typed in Hm.
  rewrite Forall_forall in Hm. apply (Hm _ Hget).
Qed.

Lemma element_inv_set (e : Element V) key value :
  value_typed (name e) key value = true →
  element_inv e →
  element_inv (mkElement (name e) (map_set key value (_attrs e)) (_children e)).
Proof.
  intros Hvalue [Hwf Htyped]. split; simpl.
  - by apply map_wf_set.
  - by apply attrs_typed_set.
Qed.

Lemma element_inv_delete (e : Element V) key :
  element_inv e →
  element_inv (mkElement (name e) (map_delete key (_attrs e)) (_children e)).
Proof.
  intros [Hwf Htyped]. split; simpl.
  - by apply map_wf_delete.
  - by apply attrs_typed_delete.
Qed.

(** [_setAttribute] keeps the invariant. *)
Lemma setAttribute_inv key value reset st :
  element_inv st.1 → element_inv (_setAttribute key value reset st).2.1.
Proof.
  destruct st as [e log]. simpl. intros Hinv.
  unfold _setAttribute. op_unfold.
  destruct (usesStylesMap (name e) key || usesTokenList (name e) key) eqn:Hkey;
    simpl.
  - destruct (asValue (map_get key (_attrs e))) as [currentValue|]; simpl.
    + by apply (element_inv_set e).
    + apply (element_inv_set (mkElement (name e) _ (_children e))); [done|].
      by apply (element_inv_set e).
  - apply (element_inv_set e); [|done]. simpl. by rewrite Hkey.
Qed.

(** [_removeAttribute] keeps the invariant. *)
Lemma removeAttribute_inv key tokens st :
  element_inv st.1 → element_inv (_removeAttribute key tokens st).2.1.
Proof.
  destruct st as [e log]. simpl. intros Hinv.
  unfold _removeAttribute. op_unfold.
  destruct tokens as [tokens|]; simpl; [|by apply (element_inv_delete e)].
  destruct (usesStylesMap (name e) key || usesTokenList (name e) key) eqn:Hkey;
    simpl; [|by apply (element_inv_delete e)].
  destruct (asValue (map_get key (_attrs e))) as [currentValue|]; simpl;
    [|by destruct e].
  destruct (Value.isEmpty _); simpl.
  - apply (element_inv_delete (mkElement (name e) _ (_children e))).
    by apply (element_inv_set e).
  - by apply (element_inv_set e).
Qed.

(** A loop whose rounds keep a property of the element keeps it. *)
Lemma forEach_inv (I : Element V → Prop)
    (body : string * AttrValue V → Op V unit) (entries : JsMap (AttrValue V)) st :
  (∀ kv st, I st.1 → I (body kv st).2.1) →
  I st.1 → I (forEach body entries st).2.1.
Proof.
  intros Hbody. revert st.
  induction entries as [|kv entries IH]; intros st Hst; simpl; [done|].
  unfold mbind, Op_bind. destruct (body kv st) as [[] st'] eqn:Hst'.
  apply IH. pose proof (Hbody kv st Hst) as H'. by rewrite Hst' in H'.
Qed.

(** [_mergeAttributesFrom] and [_subtractAttributesOf] keep the invariant. *)
Lemma mergeAttributesFrom_inv (this otherElement : Element V) :
  element_inv this →
  element_inv (after (run (_mergeAttributesFrom otherElement) this)).
Proof.
  intros Hinv. unfold _mergeAttributesFrom. op_unfold.
  destruct (_canMergeAttributesFrom this otherElement); simpl; [|done].
  match goal with |- context [forEach ?body ?entries ?st] =>
    pose proof (forEach_inv element_inv body entries st) as Hloop end.
  destruct (forEach _ _ _) as [[] st']. simpl in *. apply Hloop; [|done].
  intros kv [e log] He. simpl in *.
  destruct (map_get kv.1 (_attrs e)) as [[s|value]|] eqn:Hget,
    kv.2 as [os|otherValue]; try apply (setAttribute_inv _ _ _ (e, log) He).
  simpl. apply (element_inv_set e); [|done]. simpl.
  destruct He as [_ Htyped]. by eapply attrs_typed_structured.
Qed.

Lemma subtractAttributesOf_inv (this otherElement : Element V) :
  element_inv this →
  element_inv (after (run (_subtractAttributesOf otherElement) this)).
Proof.
  intros Hinv. unfold _subtractAttributesOf. op_unfold.
  destruct (_hasAttributesMatching this otherElement); simpl; [|done].
  match goal with |- context [forEach ?body ?entries ?st] =>
    pose proof (forEach_inv element_inv body entries st) as Hloop end.
  destruct (forEach _ _ _) as [[] st']. simpl in *. apply Hloop; [|done].
  intros kv [e log] He. simpl in *.
  destruct (map_get kv.1 (_attrs e)) as [[s|value]|] eqn:Hget,
    kv.2 as [os|otherValue]; simpl; try by apply (element_inv_delete e).
  assert (Hset : element_inv
            (mkElement (name e)
               (map_set kv.1
                  (Structured (Value.remove value (Many (Value.keys otherValue))))
                  (_attrs e)) (_children e))).
  { apply (element_inv_set e); [|done]. simpl.
    destruct He as [_ Htyped]. by eapply attrs_typed_structured. }
  destruct (Value.isEmpty _); simpl; [|done].
  by apply (element_inv_delete (mkElement (name e) _ (_children e))).
Qed.

End invariant_facts.

(** ** Children *)

Section tree_facts.
Context {V : Type}.
Implicit Types (t : Tree V) (n this : NodeRef) (cs ns : list NodeRef).

Lemma bind_Some {A B} (m : TreeOp V A) (f : A → TreeOp V B) t a t' :
  m t = Some (a, t') → (m ≫= f) t = f a t'.
Proof. unfold mbind, TreeOp_bind. by intros ->. Qed.

Lemma childrenOf_exists t n cs :
  childrenOf t n = Some cs → is_Some (parentOf t n).
Proof.
  unfold childrenOf, parentOf. destruct (nodes t !! n); [eauto|done].
Qed.

(** What the primitive steps do, as seen through [parentOf] and
    [childrenOf]. *)
Lemma getParent_spec t n p :
  parentOf t n = Some p → getParent n t = Some (p, t).
Proof.
  unfold parentOf, getParent, getNode, mbind, TreeOp_bind, mret, TreeOp_ret.
  destruct (nodes t !! n); simpl; [|done]. by intros [= ->].
Qed.

Lemma getChildren_spec t this cs :
  childrenOf t this = Some cs → getChildren this t = Some (cs, t).
Proof.
  unfold childrenOf, getChildren, getNode, mbind, TreeOp_bind, mret, TreeOp_ret.
  destruct (nodes t !! this) as [node|]; simpl; [|done].
  destruct (kind node); [done|]. by intros [= ->].
Qed.

Lemma fireChangeAt_spec type this t :
  ∃ t', fireChangeAt type this t = Some (tt, t')
        ∧ (∀ x, parentOf t' x = parentOf t x)
        ∧ (∀ x, childrenOf t' x = childrenOf t x).
Proof. by eexists. Qed.

Lemma putParent_spec t n p :
  is_Some (parentOf t n) →
  ∃ t', putParent n p t = Some (tt, t')
        ∧ (∀ x, parentOf t' x = if decide (x = n) then Some p else parentOf t x)
        ∧ (∀ x, childrenOf t' x = childrenOf t x).
Proof.
  unfold parentOf, childrenOf, putParent, putNode, getNode, mbind, TreeOp_bind.
  destruct (nodes t !! n) as [node|] eqn:Hn; simpl; [|by intros [? ?]].
  intros _. eexists. split; [done|]. simpl. split; intros x.
  - destruct (decide (x = n)) as [->|Hne].
    + by rewrite lookup_insert_eq.
    + by rewrite lookup_insert_ne.
  - destruct (decide (x = n)) as [->|Hne].
    + by rewrite lookup_insert_eq, Hn.
    + by rewrite lookup_insert_ne.
Qed.

Lemma putChildren_spec t this cs cs' :
  childrenOf t this = Some cs →
  ∃ t', putChildren this cs' t = Some (tt, t')
        ∧ (∀ x, childrenOf t' x
                = if decide (x = this) then Some cs' else childrenOf t x)
        ∧ (∀ x, parentOf t' x = parentOf t x).
Proof.
  unfold parentOf, childrenOf, putChildren, putNode, getNode, mbind, TreeOp_bind.
  destruct (nodes t !! this) as [node|] eqn:Hn; simpl; [|done].
  destruct (kind node) as [|e] eqn:Hkind; [done|].
  intros _. eexists. split; [done|]. simpl. split; intros x.
  - destruct (decide (x = this)) as [->|Hne].
    + by rewrite lookup_insert_eq.
    + by rewrite lookup_insert_ne.
  - destruct (decide (x = this)) as [->|Hne].
    + by rewrite lookup_insert_eq, Hn.
    + by rewrite lookup_insert_ne.
Qed.

Lemma normalize_nodes ns t :
  normalize (NodeInput <$> ns) t = Some (ns, t).
Proof.
  induction ns as [|n ns IH]; [done|]. csimpl.
  unfold mbind, TreeOp_bind, mret, TreeOp_ret in *. by rewrite IH.
Qed.

Lemma indexOf_elem_of n cs :
  n ∈ cs → ∃ index, indexOf n cs = Some index ∧ cs !! index = Some n.
Proof.
  induction cs as [|c cs IH]; [by intros ?%elem_of_nil|]. simpl.
  destruct (decide (c = n)) as [->|Hne]; [by exists 0|].
  intros Hin. apply elem_of_cons in Hin as [->|Hin]; [done|].
  destruct (IH Hin) as (index & -> & Hlookup). by exists (S index).
Qed.

Lemma clearParents_spec cs index howMany t :
  index + howMany ≤ length cs →
  (∀ c, c ∈ take howMany (drop index cs) → is_Some (parentOf t c)) →
  ∃ t', clearParents cs index howMany t = Some (tt, t')
        ∧ (∀ x, parentOf t' x
                = if decide (x ∈ take howMany (drop index cs)) then Some None
                  else parentOf t x)
        ∧ (∀ x, childrenOf t' x = childrenOf t x).
Proof.
  revert index t. induction howMany as [|howMany IH]; intros index t Hlen Hin.
  { exists t. split; [done|]. split; [|done]. intros x.
    rewrite decide_False; [done|]. simpl. apply not_elem_of_nil. }
  destruct (lookup_lt_is_Some_2 cs index) as [c Hc]; [lia|].
  rewrite (drop_S _ _ _ Hc) in *. simpl in *. rewrite Hc.
  destruct (putParent_spec t c None) as (t1 & Hput & Hp1 & Hc1).
  { apply Hin. left. }
  rewrite (bind_Some _ _ _ _ _ Hput).
  destruct (IH (S index) t1) as (t2 & Hclear & Hp2 & Hc2); [lia| |].
  { intros c' Hc'. rewrite Hp1. destruct (decide (c' = c)); [by eexists|].
    apply Hin. by right. }
  exists t2. split; [done|]. split; intros x.
  - rewrite Hp2, Hp1. destruct (decide (x = c)) as [->|Hne].
    + rewrite (decide_True (P:=c ∈ c :: _)) by left. by destruct (decide _).
    + destruct (decide (x ∈ take howMany (drop (S index) cs))) as [Hx|Hx].
      * by rewrite decide_True by (by right).
      * rewrite decide_False; [done|]. by intros [?|?]%elem_of_cons.
  - by rewrite Hc2, Hc1.
Qed.

Lemma removeChildren_spec t this cs index howMany :
  childrenOf t this = Some cs →
  index + howMany ≤ length cs →
  (∀ c, c ∈ take howMany (drop index cs) → is_Some (parentOf t c)) →
  ∃ t', _removeChildren this index howMany t
        = Some (take howMany (drop index cs), t')
        ∧ (∀ x, parentOf t' x
                = if decide (x ∈ take howMany (drop index cs)) then Some None
                  else parentOf t x)
        ∧ (∀ x, childrenOf t' x
                = if decide (x = this)
                  then Some (take index cs ++ drop (index + howMany) cs)
                  else childrenOf t x).
Proof.
  intros Hcs Hlen Hin. unfold _removeChildren.
  destruct (fireChangeAt_spec ChildrenChange this t) as (t0 & Hfire & Hp0 & Hc0).
  rewrite (bind_Some _ _ _ _ _ Hfire).
  rewrite (bind_Some _ _ _ _ _ (getChildren_spec t0 this cs ltac:(by rewrite Hc0))).
  destruct (clearParents_spec cs index howMany t0) as (t1 & Hclear & Hp1 & Hc1);
    [done|by intros c Hc; rewrite Hp0; apply Hin|].
  rewrite (bind_Some _ _ _ _ _ Hclear).
  rewrite (bind_Some _ _ _ _ _
             (getChildren_spec t1 this cs ltac:(by rewrite Hc1, Hc0))).
  unfold splice. simpl.
  destruct (putChildren_spec t1 this cs
              (take index cs ++ drop (index + howMany) cs))
    as (t2 & Hput & Hc2 & Hp2); [by rewrite Hc1, Hc0|].
  rewrite (bind_Some _ _ _ _ _ Hput). exists t2. split; [done|].
  split; intros x.
  - by rewrite Hp2, Hp1, Hp0.
  - by rewrite Hc2, Hc1, Hc0.
Qed.

Lemma remove_spec t n p siblings :
  parentOf t n = Some (Some p) →
  childrenOf t p = Some siblings →
  n ∈ siblings →
  ∃ t' index, _remove n t = Some (tt, t')
    ∧ siblings !! index = Some n
    ∧ (∀ x, parentOf t' x = if decide (x = n) then Some None else parentOf t x)
    ∧ (∀ x, childrenOf t' x
            = if decide (x = p)
              then Some (take index siblings ++ drop (S index) siblings)
              else childrenOf t x).
Proof.
  intros Hparent Hsiblings Hin. unfold _remove.
  rewrite (bind_Some _ _ _ _ _ (getParent_spec t n _ Hparent)).
  rewrite (bind_Some _ _ _ _ _ (getChildren_spec t p _ Hsiblings)).
  destruct (indexOf_elem_of n siblings Hin) as (index & -> & Hlookup).
  assert (Hremoved : take 1 (drop index siblings) = [n]).
  { by rewrite (drop_S _ _ _ Hlookup). }
  destruct (removeChildren_spec t p siblings index 1 Hsiblings)
    as (t' & Hremove & Hp & Hc).
  { apply lookup_lt_Some in Hlookup. lia. }
  { rewrite Hremoved. intros c ->%list_elem_of_singleton. rewrite Hparent.
    by eexists. }
  rewrite (bind_Some _ _ _ _ _ Hremove). exists t', index.
  split; [done|]. split; [done|]. split; intros x.
  - rewrite Hp, Hremoved. destruct (decide (x = n)) as [->|Hne].
    + by rewrite decide_True by left.
    + rewrite decide_False; [done|]. by intros ?%list_elem_of_singleton.
  - rewrite Hc. by replace (index + 1) with (S index) by lia.
Qed.

(** The first half of a round of [_insertChild]: the node is taken from
    the parent it has. *)
Lemma detach_spec t this n :
  attachable t this n →
  ∃ t', (p ← getParent n;
         if bool_decide (p = None) then mret tt else _remove n) t
        = Some (tt, t')
    ∧ is_Some (parentOf t' n)
    ∧ (∀ x, x ≠ n → parentOf t' x = parentOf t x)
    ∧ childrenOf t' this = childrenOf t this
    ∧ (∀ x siblings, childrenOf t x = Some siblings →
         ∃ siblings', childrenOf t' x = Some siblings'
                      ∧ ∀ m, m ≠ n → m ∈ siblings → m ∈ siblings').
Proof.
  intros ([q|] & Hparent & Hq).
  - destruct Hq as (Hne & siblings & Hsiblings & Hin).
    destruct (remove_spec t n q siblings Hparent Hsiblings Hin)
      as (t' & index & Hremove & Hlookup & Hp & Hc).
    exists t'. rewrite (bind_Some _ _ _ _ _ (getParent_spec t n _ Hparent)).
    simpl. split; [done|]. split_and!.
    + rewrite Hp, decide_True by done. by eexists.
    + intros x Hx. by rewrite Hp, decide_False.
    + by rewrite Hc, decide_False.
    + intros x siblings0 Hx. rewrite Hc.
      destruct (decide (x = q)) as [->|Hxq]; [|by eauto].
      eexists. split; [done|]. intros m Hm Hin0. simplify_eq.
      rewrite <-(take_drop_middle _ _ _ Hlookup) in Hin0.
      apply elem_of_app in Hin0 as [Hin0|Hin0]; [apply elem_of_app; by left|].
      apply elem_of_cons in Hin0 as [->|Hin0]; [done|].
      apply elem_of_app. by right.
  - exists t. rewrite (bind_Some _ _ _ _ _ (getParent_spec t n _ Hparent)).
    simpl. split; [done|]. split_and!; eauto.
Qed.

Lemma splice_insert_middle cs index (inserted : list NodeRef) n :
  index ≤ length cs →
  (splice (index + length inserted) 0 [n]
     (take index cs ++ inserted ++ drop index cs)).1
  = take index cs ++ (inserted ++ [n]) ++ drop index cs.
Proof.
  intros Hlen. unfold splice. simpl.
  rewrite Nat.add_0_r, !app_assoc.
  rewrite take_app_length', drop_app_length';
    [|by rewrite length_app, length_take_le..].
  by rewrite <-!app_assoc.
Qed.

(** The loop of [_insertChild], with the nodes already inserted. *)
Lemma insertNodes_spec this cs index ns :
  index ≤ length cs →
  (∀ n, n ∈ ns → n ∉ cs) →
  ∀ inserted t count,
    childrenOf t this = Some (take index cs ++ inserted ++ drop index cs) →
    NoDup (inserted ++ ns) →
    (∀ n, n ∈ ns → attachable t this n) →
    (∀ n, n ∈ inserted → parentOf t n = Some (Some this)) →
    ∃ t', insertNodes this (index + length inserted) count ns t
          = Some (count + length ns, t')
      ∧ childrenOf t' this
        = Some (take index cs ++ (inserted ++ ns) ++ drop index cs)
      ∧ ∀ n, n ∈ inserted ++ ns → parentOf t' n = Some (Some this).
Proof.
  intros Hlen. induction ns as [|n ns IH];
    intros Hfresh inserted t count Hchildren Hnodup Hattachable Hinserted.
  { exists t. rewrite app_nil_r, Nat.add_0_r. by split_and!. }
  cbn [insertNodes].
  destruct (detach_spec t this n) as (t1 & Hdetach & Hn1 & Hp1 & Hthis1 & Hc1).
  { apply Hattachable. left. }
  assert (Hstep : ∀ (k : TreeOp V nat),
    (p ← getParent n;
     (if bool_decide (p = None) then mret tt else _remove n);; k) t = k t1).
  { intros k. unfold mbind, TreeOp_bind in *.
    destruct (getParent n t) as [[p t0]|]; [|done].
    by destruct ((if bool_decide (p = None) then mret tt else _remove n) t0)
      as [[[] ?]|]; simplify_eq. }
  rewrite Hstep. clear Hstep.
  destruct (putParent_spec t1 n (Some this) Hn1) as (t2 & Hput & Hp2 & Hc2).
  rewrite (bind_Some _ _ _ _ _ Hput).
  assert (Hchildren2 : childrenOf t2 this
                       = Some (take index cs ++ inserted ++ drop index cs))
    by (by rewrite Hc2, Hthis1).
  rewrite (bind_Some _ _ _ _ _ (getChildren_spec t2 this _ Hchildren2)).
  rewrite splice_insert_middle by done.
  destruct (putChildren_spec t2 this _
              (take index cs ++ (inserted ++ [n]) ++ drop index cs) Hchildren2)
    as (t3 & Hput3 & Hc3 & Hp3).
  rewrite (bind_Some _ _ _ _ _ Hput3).
  assert (Hnotin : ∀ m, m ∈ ns → m ≠ n).
  { intros m Hm ->. apply NoDup_app in Hnodup as (_ & _ & Hnodup).
    apply NoDup_cons in Hnodup as [Hnodup _]. done. }
  destruct (IH (λ m Hm, Hfresh m (list_elem_of_further _ _ _ Hm))
              (inserted ++ [n]) t3 (S count))
    as (t' & Hloop & Hchildren' & Hparents').
  - by rewrite Hc3, decide_True.
  - by rewrite <-app_assoc.
  - intros m Hm. destruct (Hattachable m) as (p & Hparent & Hp); [by right|].
    exists p. split.
    { rewrite Hp3, Hp2, decide_False by auto. by rewrite Hp1 by auto. }
    destruct p as [q|]; [|done]. destruct Hp as (Hq & siblings & Hsiblings & Hin).
    split; [done|]. destruct (Hc1 q siblings Hsiblings) as (siblings' & Hs' & Hin').
    exists siblings'. split; [|by auto].
    by rewrite Hc3, decide_False, Hc2.
  - intros m Hm. rewrite Hp3, Hp2. destruct (decide (m = n)) as [->|Hne]; [done|].
    apply elem_of_app in Hm as [Hm|Hm%list_elem_of_singleton]; [|done].
    rewrite Hp1 by done. by apply Hinserted.
  - exists t'. rewrite length_app in Hloop. simpl in Hloop.
    replace (S (index + length inserted)) with (index + (length inserted + 1))
      by lia.
    rewrite Hloop. rewrite <-!app_assoc in *. simpl in *.
    split_and!; [f_equal; f_equal; lia|done|done].
Qed.

(** C6, as the code has it. For an element with the children [cs], an
    index that is at most their number, and nodes that are pairwise
    distinct, are not among [cs], and are detached or held by another
    parent: [_insertChild] of the nodes at the index inserts all of them,
    [_removeChildren] at the same index, of as many nodes, returns the
    inserted nodes in their order; afterwards each of them has no parent
    and the children of the element are [cs] again. *)
Theorem insertChild_removeChildren_roundtrip t this cs index ns :
  childrenOf t this = Some cs →
  index ≤ length cs →
  NoDup ns →
  (∀ n, n ∈ ns → n ∉ cs) →
  (∀ n, n ∈ ns → attachable t this n) →
  ∃ t1 t2,
    _insertChild this index (NodeInput <$> ns) t = Some (length ns, t1)
    ∧ childrenOf t1 this = Some (take index cs ++ ns ++ drop index cs)
    ∧ _removeChildren this index (length ns) t1 = Some (ns, t2)
    ∧ (∀ n, n ∈ ns → parentOf t2 n = Some None)
    ∧ childrenOf t2 this = Some cs.
Proof.
  intros Hchildren Hlen Hnodup Hfresh Hattachable. unfold _insertChild.
  destruct (fireChangeAt_spec ChildrenChange this t) as (t0 & Hfire & Hp0 & Hc0).
  rewrite (bind_Some _ _ _ _ _ Hfire).
  rewrite (bind_Some _ _ _ _ _ (normalize_nodes ns t0)).
  destruct (insertNodes_spec this cs index ns Hlen Hfresh [] t0 0)
    as (t1 & Hinsert & Hchildren1 & Hparents1).
  - simpl. by rewrite Hc0, take_drop.
  - done.
  - intros n Hn. destruct (Hattachable n Hn) as (p & Hparent & Hp).
    exists p. rewrite Hp0. split; [done|]. destruct p as [q|]; [|done].
    destruct Hp as (Hq & siblings & Hs & Hin). split; [done|].
    exists siblings. by rewrite Hc0.
  - by intros n ?%elem_of_nil.
  - simpl in *. rewrite Nat.add_0_r in Hinsert.
    assert (Hremoved : take (length ns)
                         (drop index (take index cs ++ ns ++ drop index cs))
                       = ns).
    { rewrite drop_app_length' by (by rewrite length_take_le).
      by rewrite take_app_length. }
    destruct (removeChildren_spec t1 this _ index (length ns) Hchildren1)
      as (t2 & Hremove & Hp2 & Hc2).
    + rewrite !length_app, length_take_le, length_drop by done. lia.
    + rewrite Hremoved. intros c Hc. rewrite Hparents1 by done. by eexists.
    + rewrite Hremoved in *. exists t1, t2. split_and!; try done.
      * intros n Hn. by rewrite Hp2, decide_True.
      * rewrite Hc2, decide_True by done. f_equal.
        rewrite take_app_length' by (by rewrite length_take_le).
        rewrite app_assoc, drop_app_length'
          by (by rewrite length_app, length_take_le).
        apply take_drop.
Qed.

End tree_facts.

Lemma insertChild_removeChildren_roundtrip_witness :
  ∃ t1 t2,
    _insertChild 0 1 (NodeInput <$> [3; 5]) exampleTree = Some (length [3; 5], t1)
    ∧ childrenOf t1 0 = Some (take 1 [1; 2] ++ [3; 5] ++ drop 1 [1; 2])
    ∧ _removeChildren 0 1 (length [3; 5]) t1 = Some ([3; 5], t2)
    ∧ (∀ n, n ∈ [3; 5] → parentOf t2 n = Some None)
    ∧ childrenOf t2 0 = Some [1; 2].
Proof.
  apply (insertChild_removeChildren_roundtrip exampleTree 0 [1; 2] 1 [3; 5]).
  - reflexivity.
  - simpl. lia.
  - apply NoDup_cons. split; [by intros ?%list_elem_of_singleton|].
    apply NoDup_singleton.
  - intros n Hn Hin. apply elem_of_cons in Hn as [->|Hn%list_elem_of_singleton];
      apply elem_of_cons in Hin as [?|Hin%list_elem_of_singleton]; by simplify_eq.
  - intros n Hn. apply elem_of_cons in Hn as [->|Hn].
    + by exists None.
    + apply list_elem_of_singleton in Hn as ->. exists (Some 4).
      split; [reflexivity|]. split; [done|]. exists [5]. split; [reflexivity|].
      left.
Defined.

(** C6, as stated, fails for a node that is a child of the element already:
    [_insertChild] first takes the node 1 out of the element 0, whose
    children are then the node 2 alone, and inserts it at the index 1, behind
    the node 2; [_removeChildren] returns the node, and the children of
    the element are not what they were before the insertion. At the index 2
    the node is inserted at the index 1 all the same, and [_removeChildren]
    at the index 2 throws. *)
Lemma insertChild_removeChildren_counterexample :
  childrenOf exampleTree 0 = Some [1; 2]
  ∧ (λ r, (r.1, childrenOf r.2 0))
      <$> (_insertChild 0 1 [NodeInput 1];; _removeChildren 0 1 1) exampleTree
    = Some ([1], Some [2])
  ∧ (_insertChild 0 2 [NodeInput 1];; _removeChildren 0 2 1) exampleTree = None.
Proof. split_and!; by vm_compute. Qed.

(** ** Similarity and the identity string *)

Lemma sort_Permutation (l1 l2 : list string) : l1 ≡ₚ l2 → sort l1 = sort l2.
Proof.
  intros Hperm. unfold sort.
  apply (Sorted_unique String.le); [apply Sorted_merge_sort; apply _..|].
  by rewrite !merge_sort_Permutation.
Qed.

Section identity_facts.
Context {V : Type} `{!Value.ElementAttributeValue V, !Value.Kinds V}.
Implicit Types (this other : Element V).

Lemma isSimilar_entries this other :
  isSimilar this (OtherElement other) = true →
  name this = name other
  ∧ length (_attrs this) = length (_attrs other)
  ∧ ∀ key value, (key, value) ∈ _attrs this →
      ∃ otherValue, map_get key (_attrs other) = Some otherValue
                    ∧ compareValues Value.isSimilar value otherValue = true.
Proof.
  unfold isSimilar, map_size.
  case_bool_decide as Hname; [|done]. case_bool_decide as Hsize; [|done].
  simpl. intros Hall. split_and!; [done..|]. intros key value Hin.
  rewrite forallb_forall in Hall. apply list_elem_of_In in Hin.
  specialize (Hall _ Hin). simpl in Hall.
  destruct (map_get key (_attrs other)) as [otherValue|]; [|done]. by eexists.
Qed.

Lemma isSimilar_keys this other key :
  map_wf (_attrs this) →
  isSimilar this (OtherElement other) = true →
  key ∈ map_keys (_attrs this) ↔ key ∈ map_keys (_attrs other).
Proof.
  intros Hwf (_ & Hlength & Hentries)%isSimilar_entries.
  assert (Hsub : map_keys (_attrs this) ⊆+ map_keys (_attrs other)).
  { apply NoDup_submseteq; [done|]. intros k Hk.
    apply list_elem_of_fmap in Hk as [[k' v] [-> Hin]].
    destruct (Hentries _ _ Hin) as (ov & Hget & _).
    apply map_get_is_Some_keys. by eexists. }
  apply submseteq_length_Permutation in Hsub as Hperm.
  - by rewrite Hperm.
  - unfold map_keys. by rewrite !length_fmap, Hlength.
Qed.

(** The attribute of a key, on two similar elements. *)
Lemma isSimilar_lookup this other key :
  map_wf (_attrs this) →
  isSimilar this (OtherElement other) = true →
  match map_get key (_attrs this), map_get key (_attrs other) with
  | Some value, Some otherValue =>
      compareValues Value.isSimilar value otherValue = true
  | None, None => True
  | _, _ => False
  end.
Proof.
  intros Hwf Hsimilar. pose proof (isSimilar_keys this other key Hwf Hsimilar)
    as Hkeys.
  rewrite <-!map_get_is_Some_keys in Hkeys.
  apply isSimilar_entries in Hsimilar as (_ & _ & Hentries).
  destruct (map_get key (_attrs this)) as [value|] eqn:Hthis.
  - destruct (Hentries _ _ (map_get_elem_of _ _ _ Hthis)) as (ov & -> & Hcmp).
    done.
  - destruct (map_get key (_attrs other)) as [otherValue|]; [|done].
    destruct Hkeys as [_ Hkeys]. by destruct Hkeys.
Qed.

(** Similar elements have the same identity string, when the structured
    values the two elements hold under one key answer [isSimilar] as sets
    of keys do, and, under a key other than [class], have one string form
    when they are similar. *)
Theorem isSimilar_getIdentity this other :
  map_wf (_attrs this) →
  map_wf (_attrs other) →
  (∀ v w, map_get "class" (_attrs this) = Some (Structured v) →
          map_get "class" (_attrs other) = Some (Structured w) →
          Value.isSimilar v w = true → Value.keys v ≡ₚ Value.keys w) →
  (∀ key v w, key ≠ "class" →
              map_get key (_attrs this) = Some (Structured v) →
              map_get key (_attrs other) = Some (Structured w) →
              Value.isSimilar v w = true →
              Value.toString v = Value.toString w) →
  isSimilar this (OtherElement other) = true →
  getIdentity this = getIdentity other.
Proof.
  intros Hwf Hwf' Hclass Hcanonical Hsimilar.
  assert (Hstring : ∀ key value otherValue, key ≠ "class" →
    map_get key (_attrs this) = Some value →
    map_get key (_attrs other) = Some otherValue →
    valueString value = valueString otherValue).
  { intros key value otherValue Hkey Hthis Hother.
    pose proof (isSimilar_lookup this other key Hwf Hsimilar) as Hcmp.
    rewrite Hthis, Hother in Hcmp.
    destruct value as [s|v], otherValue as [os|w]; simpl in *; try done.
    - by apply bool_decide_eq_true in Hcmp.
    - by eapply Hcanonical. }
  assert (Hname : name this = name other)
    by (by apply isSimilar_entries in Hsimilar as [? _]).
  assert (Hclasses :
    match asValue (_classes this) with
    | Some classes => join "," (sort (Value.keys classes))
    | None => ""
    end
    = match asValue (_classes other) with
      | Some classes => join "," (sort (Value.keys classes))
      | None => ""
      end).
  { unfold _classes.
    pose proof (isSimilar_lookup this other "class" Hwf Hsimilar) as Hcmp.
    destruct (map_get "class" (_attrs this)) as [[s|v]|] eqn:Hthis;
      destruct (map_get "class" (_attrs other)) as [[os|w]|] eqn:Hother;
      simpl in Hcmp |- *; try done.
    by rewrite (sort_Permutation _ _ (Hclass v w eq_refl eq_refl Hcmp)). }
  assert (Hstyles :
    match asValue (_styles this) with
    | Some styles => Value.toString styles
    | None => ""
    end
    = match asValue (_styles other) with
      | Some styles => Value.toString styles
      | None => ""
      end).
  { unfold _styles.
    pose proof (isSimilar_lookup this other "style" Hwf Hsimilar) as Hcmp.
    destruct (map_get "style" (_attrs this)) as [[s|v]|] eqn:Hthis;
      destruct (map_get "style" (_attrs other)) as [[os|w]|] eqn:Hother;
      simpl in Hcmp |- *; try done.
    by apply (Hcanonical "style" v w). }
  set (P := λ kv : string * AttrValue V, kv.1 ≠ "style" ∧ kv.1 ≠ "class").
  set (render := λ i : string * AttrValue V,
         i.1 +:+ "=" +:+ dquote +:+ valueString i.2 +:+ dquote).
  assert (Hperm : render <$> filter P (_attrs this)
                  ≡ₚ render <$> filter P (_attrs other)).
  { set (entry := λ kv : string * AttrValue V, (kv.1, valueString kv.2)).
    assert (Hrender : ∀ l : JsMap (AttrValue V),
      render <$> l
      = (λ ks : string * string, ks.1 +:+ "=" +:+ dquote +:+ ks.2 +:+ dquote)
          <$> (entry <$> l)).
    { intros l. by rewrite <-list_fmap_compose. }
    rewrite !Hrender. apply fmap_Permutation.
    assert (Hnodup : ∀ e : Element V, map_wf (_attrs e) →
              NoDup (entry <$> filter P (_attrs e))).
    { intros e He. apply (NoDup_fmap_1 fst). rewrite <-list_fmap_compose.
      change (fst ∘ entry) with (@fst string (AttrValue V)).
      refine (sublist_NoDup _ _ He _).
      apply fmap_sublist, sublist_filter. }
    assert (Hin : ∀ (e e' : Element V) key value,
      (∀ key value otherValue, key ≠ "class" →
         map_get key (_attrs e) = Some value →
         map_get key (_attrs e') = Some otherValue →
         valueString value = valueString otherValue) →
      (key ∈ map_keys (_attrs e) → key ∈ map_keys (_attrs e')) →
      map_wf (_attrs e) →
      (key, value) ∈ filter P (_attrs e) →
      entry (key, value) ∈ entry <$> filter P (_attrs e')).
    { intros e e' key value Hvalues Hkeys He
        [[Hstyle Hcls] Hentry]%list_elem_of_filter. simpl in *.
      destruct (proj2 (map_get_is_Some_keys key (_attrs e'))) as [ov Hov].
      { apply Hkeys. apply list_elem_of_fmap. by exists (key, value). }
      apply list_elem_of_fmap. exists (key, ov). split.
      - unfold entry. simpl. f_equal.
        eapply Hvalues; [done| |done]. by apply elem_of_map_get.
      - apply list_elem_of_filter. split; [done|]. by apply map_get_elem_of. }
    apply NoDup_Permutation; [by apply Hnodup..|].
    intros [key str]. split;
      intros [[key' value] [[= -> ->] Hentry]]%list_elem_of_fmap.
    - apply (Hin this other); [done| |done|done].
      exact (proj1 (isSimilar_keys this other key' Hwf Hsimilar)).
    - apply (Hin other this); [| |done|done].
      + intros k v ov Hk Hv Hov. symmetry. by eapply Hstring.
      + exact (proj2 (isSimilar_keys this other key' Hwf Hsimilar)). }
  unfold getIdentity. cbv zeta. fold P. fold render.
  by rewrite Hname, Hclasses, Hstyles, (sort_Permutation _ _ Hperm).
Qed.

End identity_facts.

(** Similar token lists hold the same tokens. *)
Lemma TokenList_isSimilar_keys (s other : TokenList.t) :
  NoDup s →
  TokenList.isSimilar s other = true →
  TokenList.keys s ≡ₚ TokenList.keys other.
Proof.
  unfold TokenList.isSimilar, TokenList.keys, TokenList.size, TokenList.has.
  intros Hnodup [Hsize Hall]%andb_true_iff.
  apply bool_decide_eq_true in Hsize. rewrite forallb_forall in Hall.
  apply submseteq_length_Permutation; [|by rewrite Hsize].
  apply NoDup_submseteq; [done|]. intros x Hx%list_elem_of_In.
  specialize (Hall _ Hx). by apply bool_decide_eq_true in Hall.
Qed.

(** Similar styles maps hold the same declarations. *)
Lemma StylesMap_isSimilar_Permutation (s other : StylesMap.t) :
  map_wf s → StylesMap.isSimilar s other = true → s ≡ₚ other.
Proof.
  unfold StylesMap.isSimilar, StylesMap.size, StylesMap.has, StylesMap.keys,
    StylesMap.getAsString.
  intros Hwf [Hsize Hall]%andb_true_iff.
  apply bool_decide_eq_true in Hsize. rewrite forallb_forall in Hall.
  apply submseteq_length_Permutation; [|by rewrite Hsize].
  apply NoDup_submseteq; [by apply (NoDup_fmap_1 fst)|].
  intros [k v] Hin. assert (Hk : In k (map_keys s)).
  { apply list_elem_of_In, list_elem_of_fmap. by exists (k, v). }
  apply Hall, andb_true_iff in Hk as [_ Hget].
  apply bool_decide_eq_true in Hget.
  rewrite (elem_of_map_get k v s Hwf Hin) in Hget. by apply map_get_elem_of.
Qed.

(** The string form of a styles map is canonical: similar styles maps have
    one string form. *)
Lemma StylesMap_isSimilar_toString (s other : StylesMap.t) :
  map_wf s →
  StylesMap.isSimilar s other = true →
  StylesMap.toString s = StylesMap.toString other.
Proof.
  intros Hwf Hsimilar.
  pose proof (StylesMap_isSimilar_Permutation s other Hwf Hsimilar) as Hperm.
  unfold StylesMap.toString, StylesMap.isEmpty.
  rewrite (Permutation_length Hperm).
  destruct (bool_decide (length other = 0)); [done|].
  f_equal. f_equal. apply sort_Permutation. by rewrite Hperm.
Qed.

(** On the elements of the programs: similar elements have one identity
    string, as long as no attribute other than [class] is a token list. *)
Theorem isSimilar_getIdentity_tokens_in_class (this other : ViewElement) :
  map_wf (_attrs this) →
  map_wf (_attrs other) →
  Forall (λ kv, value_wf kv.2) (_attrs this) →
  (∀ key tokens,
     map_get key (_attrs this) = Some (Structured (Tokens tokens)) →
     key = "class") →
  isSimilar this (OtherElement other) = true →
  getIdentity this = getIdentity other.
Proof.
  intros Hwf Hwf' Hvalues Htokens Hsimilar.
  assert (Hvalue : ∀ key value, map_get key (_attrs this) = Some value →
                                value_wf value).
  { intros key value Hget%map_get_elem_of. rewrite Forall_forall in Hvalues.
    apply (Hvalues _ Hget). }
  apply isSimilar_getIdentity; [done..| | |done].
  - intros [s|s] [o|o] Hthis Hother Hsim; simpl in *; try done.
    + apply TokenList_isSimilar_keys; [|done]. apply (Hvalue _ _ Hthis).
    + unfold StylesMap.keys, map_keys. apply fmap_Permutation.
      apply StylesMap_isSimilar_Permutation; [|done]. apply (Hvalue _ _ Hthis).
  - intros key [s|s] [o|o] Hkey Hthis Hother Hsim; simpl in *; try done.
    + by apply Htokens in Hthis.
    + apply StylesMap_isSimilar_toString; [|done]. apply (Hvalue _ _ Hthis).
Qed.

Lemma fooElement_attrs :
  _attrs fooElement
  = [("banana", Plain "10"); ("apple", Plain "20");
     ("style", Structured (Styles [("color", "red"); ("border-color", "white")]));
     ("class", Structured (Tokens ["baz"]))].
Proof. reflexivity. Qed.

Lemma isSimilar_getIdentity_tokens_in_class_witness :
  getIdentity fooElement
  = getIdentity
      (createElement "foo"
         [("class", InString "baz"); ("apple", InString "20");
          ("style", InString "border-color: white; color: red");
          ("banana", InString "10")]).
Proof.
  apply isSimilar_getIdentity_tokens_in_class.
  - apply (parseAttributes_wf "foo").
  - apply (parseAttributes_wf "foo").
  - rewrite fooElement_attrs.
    repeat apply Forall_cons_2; try apply Forall_nil_2; simpl; try done.
    + unfold map_wf. apply NoDup_cons. split; [by intros ?%list_elem_of_singleton|].
      apply NoDup_singleton.
    + apply NoDup_singleton.
  - intros key tokens. rewrite fooElement_attrs. simpl.
    repeat case_decide; by intros; simplify_eq.
  - reflexivity.
Defined.

(** C2 on the code. The [rel] attribute of an anchor is a token list, which
    [isSimilar] compares as a set of tokens and [getIdentity] writes in the
    order of the tokens: two anchors with [rel="x y"] and [rel="y x"] are
    similar, and their identity strings differ. *)
Theorem getIdentity_rel_token_order :
  isSimilar relXY (OtherElement relYX) = true
  ∧ getIdentity relXY = "a rel=" +:+ dquote +:+ "x y" +:+ dquote
  ∧ getIdentity relYX = "a rel=" +:+ dquote +:+ "y x" +:+ dquote
  ∧ getIdentity relXY ≠ getIdentity relYX.
Proof. split_and!; by vm_compute. Qed.

(** ** The programs on examples *)

(** The example in the documentation of [getIdentity]. *)
Example getIdentity_fooElement :
  getIdentity fooElement
  = "foo class=" +:+ dquote +:+ "baz" +:+ dquote
    +:+ " style=" +:+ dquote +:+ "border-color:white;color:red;" +:+ dquote
    +:+ " apple=" +:+ dquote +:+ "20" +:+ dquote
    +:+ " banana=" +:+ dquote +:+ "10" +:+ dquote.
Proof. reflexivity. Qed.

(** Classes are set, added and removed as token lists are. *)
Example class_tokens :
  let r := run (_setAttribute "class" (InString "a b") true;;
                _addClass (InString "c");;
                this ← getThis;
                _removeClass (Single "a");;
                mret this) (createElement "p" []) in
  getAttribute (result r) "class" = Some "a b c"
  ∧ hasClass (result r) ["a"; "b"; "c"] = true
  ∧ hasAttribute (after r) "class" (Some "a") = false
  ∧ hasAttribute (after r) "class" (Some "b") = true
  ∧ getAttribute (after r) "class" = Some "b c".
Proof. by vm_compute. Qed.

(** Removing the last class removes the attribute, and is reported;
    removing one class of two is not. *)
Example removeAttribute_last_token :
  result (run (_removeAttribute "class" (Some (Single "a"))) spanA) = true
  ∧ getAttributeKeys (after (run (_removeAttribute "class" (Some (Single "a")))
                               spanA)) = ["title"]
  ∧ result (run (_removeAttribute "class" (Some (Single "b")))
              (createElement "p" [("class", InString "a b")])) = false.
Proof. by vm_compute. Qed.

(** A merge that passes its check, and one that does not. *)
Example mergeAttributesFrom_spans :
  result (run (_mergeAttributesFrom spanB) spanA) = true
  ∧ getAttributes (after (run (_mergeAttributesFrom spanB) spanA))
    = [("class", "a b"); ("title", "t"); ("lang", "en")]
  ∧ fst <$> fired (run (_mergeAttributesFrom spanB) spanA)
    = [AttributesChange; AttributesChange]
  ∧ run (_mergeAttributesFrom spanU) spanA = (false, (spanA, [])).
Proof. by vm_compute. Qed.

(** A subtraction that passes its check, and one that does not. *)
Example subtractAttributesOf_spans :
  result (run (_subtractAttributesOf
                 (createElement "span" [("class", InString "a")])) spanA) = true
  ∧ getAttributes (after (run (_subtractAttributesOf
                                 (createElement "span" [("class", InString "a")]))
                            spanA))
    = [("title", "t")]
  ∧ run (_subtractAttributesOf spanB) spanA = (false, (spanA, [])).
Proof. by vm_compute. Qed.

(** Tokens named in a string with a no-break space between them: both are
    removed, as after [split( /\s+/ )]. The string of the second example
    holds an ideographic space and a zero width no-break space. *)
Example removeAttribute_no_break_space :
  split_ws ("a" +:+ noBreakSpace +:+ "b") = ["a"; "b"]
  ∧ getAttributes
      (after (run (_removeAttribute "class"
                     (Some (Single ("a" +:+ noBreakSpace +:+ "b"))))
                (createElement "p" [("class", InString "a b c")])))
    = [("class", "c")]
  ∧ split_ws (" x" +:+ ideographicSpace +:+ "y" +:+ byteOrderMark +:+ "z ")
    = [""; "x"; "y"; "z"; ""].
Proof. by vm_compute. Qed.

(** * Further properties of the code *)

(** ** The constructor and the mutators of the attributes *)

Section mutator_facts.
Context {V : Type} `{!Value.ElementAttributeValue V, !Value.Kinds V}.
Implicit Types (this other : Element V) (key : string)
  (st : Element V * list (Notification V)).

Lemma map_set_absent {A} (k : string) (v : A) (m : JsMap A) :
  map_get k m = None → map_set k v m = m ++ [(k, v)].
Proof.
  induction m as [|[k' v'] m IH]; simpl; [done|].
  destruct (decide (k' = k)); [done|]. intros Hm. by rewrite IH.
Qed.

Lemma map_get_app {A} (k : string) (m1 m2 : JsMap A) :
  map_get k (m1 ++ m2)
  = match map_get k m1 with Some v => Some v | None => map_get k m2 end.
Proof.
  induction m1 as [|[k' v'] m1 IH]; simpl; [done|].
  by destruct (decide (k' = k)).
Qed.

Lemma parseAttribute_null (elementName key : string)
    (value : AttributeInput V) :
  parseAttribute elementName key value = None ↔ isNull value = true.
Proof.
  unfold parseAttribute.
  destruct value, (usesStylesMap elementName key),
    (usesTokenList elementName key); simpl; split; done.
Qed.

Lemma parseAttributes_keys (elementName : string)
    (attrs : list (string * AttributeInput V)) :
  map_keys (_parseAttributes elementName attrs)
  = map_keys (filter (λ kv, isNull kv.2 = false) (toMap attrs)).
Proof.
  unfold _parseAttributes, map_keys.
  induction (toMap attrs) as [|[k v] m IH]; [done|].
  rewrite filter_cons. csimpl.
  pose proof (parseAttribute_null elementName k v) as Hnull.
  destruct (parseAttribute elementName k v) as [x|]; simpl.
  - rewrite decide_True; [csimpl; by rewrite IH|].
    destruct (isNull v); [|done]. by destruct Hnull as [_ Hnull]; discriminate Hnull.
  - rewrite decide_False; [exact IH|]. by rewrite (proj1 Hnull).
Qed.

(** X1. The attribute map the constructor builds holds no key twice, holds
    a structured value at the keys that use a styles map or a token list
    and a string at every other key; its keys are the keys it was given
    with a value other than [null], in the order of their first
    occurrence. What it holds for a key is made of the last value given
    for the key: under [style], a clone of that value when it is a styles
    map, else a new styles map set to its string; under [class], and under
    [rel] on an element named [a], a clone of that value when it is a token
    list, else a new token list set to its string; its string under every
    other key. *)
Theorem parseAttributes_normalizes (elementName : string)
    (attrs : list (string * AttributeInput V)) (children : list NodeRef) :
  element_inv (mkElement elementName (_parseAttributes elementName attrs)
                 children)
  ∧ map_keys (_parseAttributes elementName attrs)
    = map_keys (filter (λ kv, isNull kv.2 = false) (toMap attrs))
  ∧ ∀ key value,
      map_get key (toMap attrs) = Some value →
      isNull value = false →
      map_get key (_parseAttributes elementName attrs)
      = Some
          (if bool_decide (key = "style")
           then Structured
                  match value with
                  | InValue given =>
                      if Value.instanceofStylesMap given
                      then Value._clone given
                      else Value.setTo Value.newStylesMap (coerceString value)
                  | _ => Value.setTo Value.newStylesMap (coerceString value)
                  end
           else if bool_decide (key = "class")
                   || bool_decide (elementName = "a")
                      && bool_decide (key = "rel")
           then Structured
                  match value with
                  | InValue given =>
                      if Value.instanceofTokenList given
                      then Value._clone given
                      else Value.setTo Value.newTokenList (coerceString value)
                  | _ => Value.setTo Value.newTokenList (coerceString value)
                  end
           else Plain (coerceString value)).
Proof.
  split; [split; simpl|split].
  - apply parseAttributes_wf.
  - apply parseAttributes_typed.
  - apply parseAttributes_keys.
  - intros key value Hget Hvalue. rewrite map_get_parseAttributes, Hget. simpl.
    unfold parseAttribute.
    change (bool_decide (key = "style")) with (usesStylesMap elementName key).
    change (bool_decide (key = "class")
            || bool_decide (elementName = "a") && bool_decide (key = "rel"))
      with (usesTokenList elementName key).
    destruct value; try done;
      by destruct (usesStylesMap elementName key),
           (usesTokenList elementName key).
Qed.

(** X2. [_setAttribute] fires one notification, of the kind "attributes",
    which shows the element as it was. Afterwards the key is present: at
    the place it had when it was present before, at the end of the map
    otherwise; every other attribute, the name and the children are as
    before. For a key that uses no structured value, [getAttribute] then
    returns the string form of the value that was set. *)
Theorem setAttribute_effect this key (value : AttributeInput V) (reset : bool) :
  attrs_typed (name this) (_attrs this) →
  let r := run (_setAttribute key value reset) this in
  fired r = [(AttributesChange, this)]
  ∧ name (after r) = name this
  ∧ _children (after r) = _children this
  ∧ map_keys (_attrs (after r))
    = (if map_has key (_attrs this) then map_keys (_attrs this)
       else map_keys (_attrs this) ++ [key])
  ∧ (∀ key', key' ≠ key →
       getAttribute (after r) key' = getAttribute this key')
  ∧ (if usesStylesMap (name this) key || usesTokenList (name this) key
     then ∃ v, map_get key (_attrs (after r)) = Some (Structured v)
     else getAttribute (after r) key = Some (coerceString value)).
Proof.
  intros _. destruct this as [nm attrs children].
  unfold _setAttribute, getAttribute. op_unfold.
  assert (Hkeys2 : ∀ v v' : AttrValue V,
    map_keys (map_set key v (map_set key v' attrs))
    = if map_has key attrs then map_keys attrs else map_keys attrs ++ [key]).
  { intros v v'. rewrite !map_keys_set.
    assert (map_has key (map_set key v' attrs) = true) as ->.
    { apply map_has_true. rewrite map_get_set_eq. by eexists. }
    done. }
  destruct (usesStylesMap nm key || usesTokenList nm key); simpl.
  - destruct (asValue (map_get key attrs)) as [currentValue|]; simpl.
    + split_and!; try done.
      * apply map_keys_set.
      * intros key' Hne. by rewrite map_get_set_ne.
      * rewrite map_get_set_eq. by eexists.
    + split_and!; try done.
      * intros key' Hne. by rewrite !map_get_set_ne.
      * rewrite map_get_set_eq. by eexists.
  - split_and!; try done.
    + apply map_keys_set.
    + intros key' Hne. by rewrite map_get_set_ne.
    + by rewrite map_get_set_eq.
Qed.

(** X3. The four mutators of the attributes keep the invariant of the
    attribute map: no key twice, structured values exactly at the keys that
    use them. *)
Theorem mutators_keep_invariant this other key (value : AttributeInput V)
    (reset : bool) (tokens : option ArrayOrItem) :
  element_inv this →
  element_inv (after (run (_setAttribute key value reset) this))
  ∧ element_inv (after (run (_removeAttribute key tokens) this))
  ∧ element_inv (after (run (_mergeAttributesFrom other) this))
  ∧ element_inv (after (run (_subtractAttributesOf other) this)).
Proof.
  intros Hinv. split_and!.
  - apply (setAttribute_inv key value reset (this, [])), Hinv.
  - apply (removeAttribute_inv key tokens (this, [])), Hinv.
  - by apply mergeAttributesFrom_inv.
  - by apply subtractAttributesOf_inv.
Qed.

(** X4. Setting an attribute that the element does not have and removing
    it again, without tokens, gives the element back as it was; the
    removal reports [true], and two notifications are fired. *)
Theorem setAttribute_removeAttribute_roundtrip this key
    (value : AttributeInput V) (reset : bool) :
  map_has key (_attrs this) = false →
  let r := run (_setAttribute key value reset;; _removeAttribute key None)
             this in
  result r = true
  ∧ after r = this
  ∧ fst <$> fired r = [AttributesChange; AttributesChange].
Proof.
  intros Habsent. pose proof Habsent as Hnone. apply map_has_false in Hnone.
  destruct this as [nm attrs children]. simpl in *.
  unfold _setAttribute, _removeAttribute. op_unfold. rewrite Hnone. simpl.
  assert (Hhas : ∀ v : AttrValue V, map_has key (map_set key v attrs) = true).
  { intros v. apply map_has_true. rewrite map_get_set_eq. by eexists. }
  destruct (usesStylesMap nm key || usesTokenList nm key); simpl.
  - rewrite !map_delete_set, (map_delete_absent _ _ Hnone).
    split_and!; [|done|done]. apply map_has_true.
    rewrite map_get_set_eq. by eexists.
  - rewrite !map_delete_set, (map_delete_absent _ _ Hnone), Hhas. done.
Qed.

End mutator_facts.

Lemma setAttribute_effect_witness :
  fired (run (_setAttribute "title" (InString "u") true) spanA)
  = [(AttributesChange, spanA)]
  ∧ name (after (run (_setAttribute "title" (InString "u") true) spanA))
    = name spanA
  ∧ _children (after (run (_setAttribute "title" (InString "u") true) spanA))
    = _children spanA
  ∧ map_keys (_attrs (after (run (_setAttribute "title" (InString "u") true)
                               spanA)))
    = (if map_has "title" (_attrs spanA) then map_keys (_attrs spanA)
       else map_keys (_attrs spanA) ++ ["title"])
  ∧ (∀ key', key' ≠ "title" →
       getAttribute (after (run (_setAttribute "title" (InString "u") true)
                              spanA)) key'
       = getAttribute spanA key')
  ∧ (if usesStylesMap (name spanA) "title" || usesTokenList (name spanA) "title"
     then ∃ v, map_get "title"
                 (_attrs (after (run (_setAttribute "title" (InString "u") true)
                                   spanA)))
               = Some (Structured v)
     else getAttribute (after (run (_setAttribute "title" (InString "u") true)
                                 spanA)) "title"
          = Some (coerceString (InString "u"))).
Proof.
  apply (setAttribute_effect spanA "title" (InString "u") true).
  apply (parseAttributes_typed "span").
Defined.

Lemma mutators_keep_invariant_witness :
  element_inv (after (run (_setAttribute "class" (InString "b") false) spanA))
  ∧ element_inv (after (run (_removeAttribute "class" (Some (Single "a"))) spanA))
  ∧ element_inv (after (run (_mergeAttributesFrom spanB) spanA))
  ∧ element_inv (after (run (_subtractAttributesOf spanB) spanA)).
Proof.
  apply (mutators_keep_invariant spanA spanB).
  split; [apply (parseAttributes_wf "span")|apply (parseAttributes_typed "span")].
Defined.

Lemma setAttribute_removeAttribute_roundtrip_witness :
  result (run (_setAttribute "lang" (InString "en") true;;
               _removeAttribute "lang" None) spanA) = true
  ∧ after (run (_setAttribute "lang" (InString "en") true;;
                _removeAttribute "lang" None) spanA) = spanA
  ∧ fst <$> fired (run (_setAttribute "lang" (InString "en") true;;
                        _removeAttribute "lang" None) spanA)
    = [AttributesChange; AttributesChange].
Proof.
  apply (setAttribute_removeAttribute_roundtrip spanA "lang"). reflexivity.
Defined.

(** ** Merging and subtracting, in full *)

Section merge_subtract_facts.
Context {V : Type} `{!Value.ElementAttributeValue V, !Value.Kinds V}.
Implicit Types (this other : Element V) (key : string)
  (st : Element V * list (Notification V)).

Lemma mergeAttributesFrom_unfold other :
  _mergeAttributesFrom other
  = (this ← getThis;
     if negb (_canMergeAttributesFrom this other) then mret false
     else _fireChange AttributesChange;;
          forEach mergeRound (_attrs other);; mret true).
Proof. reflexivity. Qed.

Lemma subtractAttributesOf_unfold other :
  _subtractAttributesOf other
  = (this ← getThis;
     if negb (_hasAttributesMatching this other) then mret false
     else _fireChange AttributesChange;;
          forEach subtractRound (_attrs other);; mret true).
Proof. reflexivity. Qed.

Lemma setAttribute_plain key s st :
  usesStylesMap (name st.1) key || usesTokenList (name st.1) key = false →
  (_setAttribute key (InString s) true st).2.1
  = mkElement (name st.1) (map_set key (Plain s) (_attrs st.1))
      (_children st.1).
Proof.
  destruct st as [e log]. unfold _setAttribute. op_unfold. by intros ->.
Qed.

Lemma mergeRound_plain key s st :
  usesStylesMap (name st.1) key || usesTokenList (name st.1) key = false →
  (mergeRound (key, Plain s) st).2.1
  = mkElement (name st.1) (map_set key (Plain s) (_attrs st.1))
      (_children st.1).
Proof.
  intros Hkey. unfold mergeRound, mbind, Op_bind, getThis. simpl.
  destruct (map_get key (_attrs st.1)) as [[?|?]|];
    by apply setAttribute_plain.
Qed.

Lemma subtractRound_plain key s st :
  (subtractRound (key, Plain s) st).2.1
  = mkElement (name st.1) (map_delete key (_attrs st.1)) (_children st.1).
Proof.
  unfold subtractRound, mbind, Op_bind, getThis. simpl.
  by destruct (map_get key (_attrs st.1)) as [[?|?]|].
Qed.

(** After a merge a plain attribute of the other element is an attribute
    of the element. *)
Lemma merge_loop_plain (entries : JsMap (AttrValue V)) st key s :
  map_wf entries →
  (key, Plain s) ∈ entries →
  usesStylesMap (name st.1) key || usesTokenList (name st.1) key = false →
  map_get key (_attrs (forEach mergeRound entries st).2.1) = Some (Plain s).
Proof.
  revert st. induction entries as [|kv entries IH]; intros st Hwf Hin Hkey.
  { by apply elem_of_nil in Hin. }
  unfold map_wf, map_keys in Hwf. rewrite fmap_cons, NoDup_cons in Hwf.
  destruct Hwf as [Hfresh Hwf]. simpl. unfold mbind, Op_bind.
  destruct (mergeRound kv st) as [[] st'] eqn:Hround.
  pose proof (changes_only_merge_round kv st) as Hframe.
  change (changes_only [kv.1] st (mergeRound kv st).2) in Hframe.
  rewrite Hround in Hframe. simpl in Hframe.
  apply elem_of_cons in Hin as [<-|Hin].
  - pose proof (changes_only_forEach mergeRound entries st'
                  changes_only_merge_round) as (_ & _ & Hrest & _).
    rewrite Hrest by done.
    pose proof (mergeRound_plain key s st Hkey) as Hset.
    rewrite Hround in Hset. simpl in Hset. rewrite Hset. simpl.
    apply map_get_set_eq.
  - apply IH; [done..|]. destruct Hframe as (-> & _). done.
Qed.

(** X5. After a merge that passes its check, the keys of the element are
    its former keys and the keys of the other element, and every plain
    attribute of the other element is an attribute of the element, with the
    same value. *)
Theorem mergeAttributesFrom_result this other :
  _canMergeAttributesFrom this other = true →
  attrs_typed (name this) (_attrs this) →
  map_wf (_attrs other) →
  attrs_typed (name other) (_attrs other) →
  let r := run (_mergeAttributesFrom other) this in
  (∀ key, map_has key (_attrs (after r))
          = map_has key (_attrs this)
            || bool_decide (key ∈ map_keys (_attrs other)))
  ∧ (∀ key s, (key, Plain s) ∈ _attrs other →
              getAttribute (after r) key = Some s).
Proof.
  intros Hcheck _ Hwf Htyped r. split.
  - intros key. by apply mergeAttributesFrom_keys.
  - intros key s Hin. subst r. rewrite mergeAttributesFrom_unfold.
    assert (Hname : name this = name other).
    { unfold _canMergeAttributesFrom in Hcheck.
      by case_bool_decide. }
    unfold getAttribute. op_unfold. rewrite Hcheck. simpl.
    pose proof (merge_loop_plain (_attrs other)
                  (this, [(AttributesChange, this)]) key s Hwf Hin) as Hloop.
    destruct (forEach _ _ _) as [[] st']. simpl in *. rewrite Hloop; [done|].
    unfold attrs_typed in Htyped. rewrite Forall_forall in Htyped.
    specialize (Htyped _ Hin). simpl in Htyped. rewrite Hname.
    by apply negb_true_iff.
Qed.

(** X6. A subtraction that passes its check adds no key, and leaves no key
    that the other element holds with a plain value. *)
Theorem subtractAttributesOf_result this other :
  _hasAttributesMatching this other = true →
  let r := run (_subtractAttributesOf other) this in
  (∀ key, map_has key (_attrs (after r)) = true →
          map_has key (_attrs this) = true)
  ∧ (∀ key s, (key, Plain s) ∈ _attrs other →
              getAttribute (after r) key = None).
Proof.
  intros Hcheck r. split.
  - intros key Hhas.
    by destruct (subtractAttributesOf_keys this other key Hcheck Hhas).
  - intros key s Hin. unfold getAttribute.
    destruct (map_get key (_attrs (after r))) as [v|] eqn:Hget; [|done].
    destruct (subtractAttributesOf_keys this other key Hcheck) as [_ Hno].
    { apply map_has_true. fold r. rewrite Hget. by eexists. }
    by destruct (Hno s).
Qed.

Lemma merge_loop_append (entries : JsMap (AttrValue V)) st :
  map_wf entries →
  plain_attrs (name st.1) entries →
  (∀ key, key ∈ map_keys entries → map_get key (_attrs st.1) = None) →
  (forEach mergeRound entries st).2.1
  = mkElement (name st.1) (_attrs st.1 ++ entries) (_children st.1).
Proof.
  revert st. induction entries as [|[key value] entries IH];
    intros [e log] Hwf Hplain Hfresh; simpl.
  { rewrite app_nil_r. by destruct e. }
  unfold map_wf, map_keys in Hwf. rewrite fmap_cons, NoDup_cons in Hwf.
  destruct Hwf as [Hkey Hwf]. simpl in *.
  destruct (Hplain key value) as [[s ->] Huses]; [left|].
  unfold mbind, Op_bind.
  pose proof (mergeRound_plain key s (e, log) Huses) as Hround.
  destruct (mergeRound (key, Plain s) (e, log)) as [[] st']. simpl in Hround.
  subst. destruct st' as [e' log']. simpl in *. subst e'.
  rewrite IH; simpl.
  - rewrite map_set_absent by (apply Hfresh; left). by rewrite <-app_assoc.
  - done.
  - intros k v Hin. apply Hplain. by right.
  - intros k Hk. rewrite map_set_absent by (apply Hfresh; left).
    rewrite map_get_app, Hfresh by (by right). simpl.
    rewrite decide_False; [done|]. intros ->. done.
Qed.

Lemma subtract_loop_delete (entries prefix : JsMap (AttrValue V)) st :
  map_wf entries →
  plain_attrs (name st.1) entries →
  (∀ key, key ∈ map_keys entries → map_get key prefix = None) →
  _attrs st.1 = prefix ++ entries →
  (forEach subtractRound entries st).2.1
  = mkElement (name st.1) prefix (_children st.1).
Proof.
  revert st. induction entries as [|[key value] entries IH];
    intros [e log] Hwf Hplain Hfresh Hattrs; simpl in *.
  { rewrite app_nil_r in Hattrs. rewrite <-Hattrs. by destruct e. }
  unfold map_wf, map_keys in Hwf. rewrite fmap_cons, NoDup_cons in Hwf.
  destruct Hwf as [Hkey Hwf]. simpl in *.
  destruct (Hplain key value) as [[s ->] Huses]; [left|].
  unfold mbind, Op_bind.
  pose proof (subtractRound_plain key s (e, log)) as Hround.
  destruct (subtractRound (key, Plain s) (e, log)) as [[] [e' log']].
  simpl in Hround. subst e'. rewrite IH; simpl; try done.
  - intros k v Hin. apply Hplain. by right.
  - intros k Hk. apply Hfresh. by right.
  - rewrite Hattrs. unfold map_delete. rewrite filter_app, filter_cons. simpl.
    rewrite decide_False by (intros Hne; by apply Hne).
    fold (map_delete key prefix). fold (map_delete key entries).
    rewrite !map_delete_absent; [done| |apply Hfresh; left].
    by apply map_get_None_keys.
Qed.

(** X7. Merging the attributes of another element of the same name and
    subtracting them again gives the element back as it was, when the
    attributes of the other element are plain strings under keys the
    element does not have: both calls return [true]. *)
Theorem merge_subtract_roundtrip this other :
  name this = name other →
  map_wf (_attrs other) →
  plain_attrs (name other) (_attrs other) →
  (∀ key, key ∈ map_keys (_attrs other) → map_has key (_attrs this) = false) →
  let r := run (merged ← _mergeAttributesFrom other;
                subtracted ← _subtractAttributesOf other;
                mret (merged, subtracted)) this in
  result r = (true, true) ∧ after r = this.
Proof.
  intros Hname Hwf Hplain Hfresh r.
  assert (Hnone : ∀ key, key ∈ map_keys (_attrs other) →
                         map_get key (_attrs this) = None).
  { intros key Hkey. by apply map_has_false, Hfresh. }
  assert (Hmerge : _canMergeAttributesFrom this other = true).
  { unfold _canMergeAttributesFrom. rewrite bool_decide_eq_true_2 by done.
    simpl. apply forallb_forall. intros [k v] Hin%list_elem_of_In. simpl.
    rewrite Hnone; [done|]. apply list_elem_of_fmap. by exists (k, v). }
  subst r. unfold run.
  rewrite mergeAttributesFrom_unfold, subtractAttributesOf_unfold.
  unfold result, after, mbind, Op_bind, mret, Op_ret, getThis, _fireChange.
  simpl. rewrite Hmerge. simpl.
  pose proof (merge_loop_append (_attrs other)
                (this, [(AttributesChange, this)]) Hwf) as Hloop.
  simpl in Hloop. rewrite Hname in Hloop. specialize (Hloop Hplain Hnone).
  destruct (forEach mergeRound _ _) as [[] [merged log]]. simpl in Hloop.
  subst merged. simpl.
  assert (Hmatch : _hasAttributesMatching
                     (mkElement (name other) (_attrs this ++ _attrs other)
                        (_children this)) other = true).
  { unfold _hasAttributesMatching. simpl.
    rewrite bool_decide_eq_true_2 by done. simpl.
    apply forallb_forall. intros [k v] Hin%list_elem_of_In. simpl.
    rewrite map_get_app, Hnone
      by (apply list_elem_of_fmap; by exists (k, v)).
    rewrite (elem_of_map_get k v _ Hwf Hin).
    destruct (Hplain k v Hin) as [[s ->] _]. simpl.
    by apply bool_decide_eq_true. }
  rewrite Hmatch. simpl.
  pose proof (subtract_loop_delete (_attrs other) (_attrs this)
                (mkElement (name other) (_attrs this ++ _attrs other)
                   (_children this),
                 log ++ [(AttributesChange,
                          mkElement (name other) (_attrs this ++ _attrs other)
                            (_children this))]) Hwf Hplain Hnone eq_refl)
    as Hloop.
  destruct (forEach subtractRound _ _) as [[] [subtracted log']].
  simpl in Hloop. subst subtracted. simpl. split; [done|].
  rewrite <-Hname. by destruct this.
Qed.

End merge_subtract_facts.

Lemma mergeAttributesFrom_result_witness :
  (∀ key, map_has key (_attrs (after (run (_mergeAttributesFrom spanB) spanA)))
          = map_has key (_attrs spanA)
            || bool_decide (key ∈ map_keys (_attrs spanB)))
  ∧ (∀ key s, (key, Plain s) ∈ _attrs spanB →
              getAttribute (after (run (_mergeAttributesFrom spanB) spanA)) key
              = Some s).
Proof.
  apply (mergeAttributesFrom_result spanA spanB).
  - reflexivity.
  - apply (parseAttributes_typed "span").
  - apply (parseAttributes_wf "span").
  - apply (parseAttributes_typed "span").
Defined.

Lemma subtractAttributesOf_result_witness :
  (∀ key,
     map_has key
       (_attrs (after (run (_subtractAttributesOf
                              (createElement "span" [("title", InString "t")]))
                         spanA))) = true →
     map_has key (_attrs spanA) = true)
  ∧ (∀ key s,
       (key, Plain s) ∈ _attrs (createElement "span" [("title", InString "t")]) →
       getAttribute
         (after (run (_subtractAttributesOf
                        (createElement "span" [("title", InString "t")]))
                   spanA)) key = None).
Proof.
  apply (subtractAttributesOf_result spanA
           (createElement "span" [("title", InString "t")])).
  reflexivity.
Defined.

Lemma merge_subtract_roundtrip_witness :
  result (run (merged ← _mergeAttributesFrom
                          (createElement "span" [("lang", InString "en")]);
               subtracted ← _subtractAttributesOf
                              (createElement "span" [("lang", InString "en")]);
               mret (merged, subtracted)) spanA) = (true, true)
  ∧ after (run (merged ← _mergeAttributesFrom
                           (createElement "span" [("lang", InString "en")]);
                subtracted ← _subtractAttributesOf
                               (createElement "span" [("lang", InString "en")]);
                mret (merged, subtracted)) spanA) = spanA.
Proof.
  apply (merge_subtract_roundtrip spanA
           (createElement "span" [("lang", InString "en")])).
  - reflexivity.
  - apply (parseAttributes_wf "span").
  - intros key value Hin. change (_attrs _) with
      [("lang", @Plain StructuredValue "en")] in Hin.
    apply list_elem_of_singleton in Hin as [= -> ->]. split; [by eexists|done].
  - intros key Hin. change (map_keys _) with ["lang"] in Hin.
    apply list_elem_of_singleton in Hin as ->. reflexivity.
Defined.

(** ** Comparing elements *)

Section comparison_facts.
Context {V : Type} `{!Value.ElementAttributeValue V, !Value.Kinds V}.
Implicit Types (this other : Element V) (key : string).

Lemma compareValues_plain (method : V → V → bool) (value : AttrValue V) s :
  compareValues method value (Plain s) = true → value = Plain s.
Proof. destruct value; simpl; [|done]. by intros ->%bool_decide_eq_true. Qed.

Lemma isSimilar_swap this other :
  map_wf (_attrs this) →
  map_wf (_attrs other) →
  (∀ key v w, map_get key (_attrs this) = Some (Structured v) →
              map_get key (_attrs other) = Some (Structured w) →
              Value.isSimilar v w = true → Value.isSimilar w v = true) →
  isSimilar this (OtherElement other) = true →
  isSimilar other (OtherElement this) = true.
Proof.
  intros Hwf Hwf' Hsym Hsimilar.
  pose proof (isSimilar_entries _ _ Hsimilar) as (Hname & Hlength & _).
  unfold isSimilar, map_size.
  rewrite !bool_decide_eq_true_2 by done. simpl.
  apply forallb_forall. intros [key w] Hin%list_elem_of_In. simpl.
  pose proof (isSimilar_lookup this other key Hwf Hsimilar) as Hlookup.
  pose proof (elem_of_map_get key w _ Hwf' Hin) as Hother.
  rewrite Hother in Hlookup.
  destruct (map_get key (_attrs this)) as [v|] eqn:Hthis; [|done].
  destruct v as [s|v], w as [s'|w]; simpl in *; try done.
  - apply bool_decide_eq_true in Hlookup. by apply bool_decide_eq_true.
  - by apply (Hsym key).
Qed.

(** X8. Similarity of elements is symmetric, although the code walks the
    attributes of one of the two elements only: it is, as soon as the
    similarity of the structured values under one key is. *)
Theorem isSimilar_symmetric this other :
  map_wf (_attrs this) →
  map_wf (_attrs other) →
  (∀ key v w, map_get key (_attrs this) = Some (Structured v) →
              map_get key (_attrs other) = Some (Structured w) →
              Value.isSimilar v w = Value.isSimilar w v) →
  isSimilar this (OtherElement other) = isSimilar other (OtherElement this).
Proof.
  intros Hwf Hwf' Hsym.
  destruct (isSimilar this _) eqn:Hthis, (isSimilar other _) eqn:Hother;
    try done.
  - rewrite <-Hother. symmetry. apply isSimilar_swap; try done.
    intros key v w Hv Hw. by rewrite (Hsym key v w Hv Hw).
  - rewrite <-Hthis. apply isSimilar_swap; try done.
    intros key w v Hw Hv. by rewrite (Hsym key v w Hv Hw).
Qed.

(** X9. An element whose attributes match those of another one, so that
    they can be subtracted from it, has the name of the other element, every
    key of the other element, and every plain attribute of the other element
    with the same value; the attributes of the other element could as well be
    merged into it, when structured values that match can be merged. *)
Theorem hasAttributesMatching_sound this other :
  _hasAttributesMatching this other = true →
  name this = name other
  ∧ (∀ key, key ∈ map_keys (_attrs other) → hasAttribute this key None = true)
  ∧ (∀ key s, (key, Plain s) ∈ _attrs other →
              getAttribute this key = Some s
              ∧ (usesStylesMap (name this) key || usesTokenList (name this) key
                 = false →
                 hasAttribute this key (Some s) = true))
  ∧ ((∀ v w, Value.isMatching v w = true → Value.canMergeFrom v w = true) →
     _canMergeAttributesFrom this other = true).
Proof.
  unfold _hasAttributesMatching, _canMergeAttributesFrom.
  case_bool_decide as Hname; [|done]. simpl. intros Hall.
  rewrite forallb_forall in Hall.
  assert (Hentry : ∀ key w, (key, w) ∈ _attrs other →
            ∃ v, map_get key (_attrs this) = Some v
                 ∧ compareValues Value.isMatching v w = true).
  { intros key w Hin%list_elem_of_In. specialize (Hall _ Hin). simpl in Hall.
    destruct (map_get key (_attrs this)) as [v|]; [|done]. by eexists. }
  split_and!; [done|..].
  - intros key (kv & -> & Hin)%list_elem_of_fmap. destruct kv as [key w].
    destruct (Hentry _ _ Hin) as (v & Hget & _). simpl.
    rewrite hasAttribute_key. apply map_has_true. rewrite Hget. by eexists.
  - intros key s Hin. destruct (Hentry _ _ Hin) as (v & Hget & Hcmp).
    apply compareValues_plain in Hcmp as ->.
    unfold getAttribute, hasAttribute. rewrite Hget. simpl.
    assert (Hhas : map_has key (_attrs this) = true).
    { apply map_has_true. rewrite Hget. by eexists. }
    rewrite Hhas. simpl. split; [done|]. intros ->.
    by apply bool_decide_eq_true.
  - intros Hmerge. apply forallb_forall. intros [key w] Hin. simpl.
    specialize (Hall _ Hin). simpl in Hall.
    destruct (map_get key (_attrs this)) as [v|]; [|done].
    destruct v, w; simpl in *; try done. by apply Hmerge.
Qed.

End comparison_facts.

Lemma isSimilar_symmetric_witness :
  isSimilar spanA
    (OtherElement
       (createElement "span" [("title", InString "t"); ("class", InString "a")]))
  = isSimilar
      (createElement "span" [("title", InString "t"); ("class", InString "a")])
      (OtherElement spanA).
Proof.
  apply (isSimilar_symmetric spanA
           (createElement "span"
              [("title", InString "t"); ("class", InString "a")])).
  - apply (parseAttributes_wf "span").
  - apply (parseAttributes_wf "span").
  - intros key v w Hv%map_get_elem_of Hw%map_get_elem_of.
    change (_attrs spanA)
      with [("class", Structured (Tokens ["a"])); ("title", Plain "t")] in Hv.
    change (_attrs (createElement _ _))
      with [("title", Plain "t"); ("class", Structured (Tokens ["a"]))] in Hw.
    repeat (apply elem_of_cons in Hv as [Hv|Hv]);
      try (by apply elem_of_nil in Hv); try done.
    repeat (apply elem_of_cons in Hw as [Hw|Hw]);
      try (by apply elem_of_nil in Hw); try done.
    by simplify_eq.
Defined.

Lemma hasAttributesMatching_sound_witness :
  name spanA = name (createElement "span" [("title", InString "t")])
  ∧ (∀ key,
       key ∈ map_keys (_attrs (createElement "span" [("title", InString "t")])) →
       hasAttribute spanA key None = true)
  ∧ (∀ key s,
       (key, Plain s) ∈ _attrs (createElement "span" [("title", InString "t")]) →
       getAttribute spanA key = Some s
       ∧ (usesStylesMap (name spanA) key || usesTokenList (name spanA) key
          = false →
          hasAttribute spanA key (Some s) = true))
  ∧ ((∀ v w : StructuredValue,
        Value.isMatching v w = true → Value.canMergeFrom v w = true) →
     _canMergeAttributesFrom spanA
       (createElement "span" [("title", InString "t")]) = true).
Proof.
  apply (hasAttributesMatching_sound spanA
           (createElement "span" [("title", InString "t")])).
  reflexivity.
Defined.

(** ** Consumables *)

Lemma filter_all {A} (P : A → Prop) `{!∀ x, Decision (P x)} (l : list A) :
  (∀ x, x ∈ l → P x) → filter P l = l.
Proof.
  induction l as [|x l IH]; [done|]. intros Hall.
  rewrite filter_cons, decide_True by (apply Hall; left).
  f_equal. apply IH. intros y Hy. apply Hall. by right.
Qed.

Lemma filter_none {A} (P : A → Prop) `{!∀ x, Decision (P x)} (l : list A) :
  (∀ x, x ∈ l → ¬ P x) → filter P l = [].
Proof.
  induction l as [|x l IH]; [done|]. intros Hall.
  rewrite filter_cons, decide_False by (apply Hall; left).
  apply IH. intros y Hy. apply Hall. by right.
Qed.

Section consumables_facts.
Context {V : Type} `{!Value.ElementAttributeValue V, !Value.Kinds V}.
Implicit Types (this : Element V) (key : string).

Lemma attributeConsumables_key key (value : AttrValue V) token a :
  a ∈ attributeConsumables key value token → a.1 = key.
Proof.
  destruct value as [s|v]; simpl.
  - by intros ->%list_elem_of_singleton.
  - by intros (prop & -> & _)%list_elem_of_fmap.
Qed.

Lemma flat_map_consumables_key (m : JsMap (AttrValue V)) a :
  a ∈ flat_map (λ kv, attributeConsumables kv.1 kv.2 None) m →
  a.1 ∈ map_keys m.
Proof.
  intros Hin%list_elem_of_In. apply in_flat_map in Hin as (kv & Hkv & Ha).
  apply list_elem_of_In in Hkv, Ha. apply attributeConsumables_key in Ha as ->.
  apply list_elem_of_fmap. by exists kv.
Qed.

Lemma filter_consumables_key key (m : JsMap (AttrValue V)) :
  map_wf m →
  filter (λ a, a.1 = key)
    (flat_map (λ kv, attributeConsumables kv.1 kv.2 None) m)
  = match map_get key m with
    | Some value => attributeConsumables key value None
    | None => []
    end.
Proof.
  unfold map_wf, map_keys. induction m as [|[k v] m IH]; [done|].
  rewrite fmap_cons, NoDup_cons. intros [Hfresh Hwf]. simpl.
  rewrite filter_app, IH by done.
  destruct (decide (k = key)) as [->|Hne].
  - assert (map_get key m = None) as -> by by apply map_get_None_keys.
    rewrite app_nil_r. apply filter_all.
    intros a Ha. by apply attributeConsumables_key in Ha.
  - rewrite (filter_none _ (attributeConsumables k v None)); [done|].
    intros a Ha. apply attributeConsumables_key in Ha. congruence.
Qed.

(** X10. The consumables of one key are the consumables of the whole
    element under that key, in their order, and the name of the element is a
    consumable of the whole element only; a consumable always names an
    attribute the element has. *)
Theorem getConsumables_by_key this key :
  map_wf (_attrs this) →
  key ≠ "" →
  consumable_attributes (_getConsumables this (Some key) None)
  = filter (λ a, a.1 = key)
      (consumable_attributes (_getConsumables this None None))
  ∧ consumable_name (_getConsumables this (Some key) None) = false
  ∧ consumable_name (_getConsumables this None None) = true
  ∧ ∀ (given : option string) token a,
      a ∈ consumable_attributes (_getConsumables this given token) →
      hasAttribute this a.1 None = true.
Proof.
  intros Hwf Hkey. split_and!.
  - unfold _getConsumables. simpl. rewrite filter_consumables_key by done.
    by destruct key.
  - by destruct key.
  - done.
  - intros given token a Ha. rewrite hasAttribute_key. apply map_has_true.
    apply map_get_is_Some_keys.
    assert (Hall : a ∈ flat_map (λ kv, attributeConsumables kv.1 kv.2 None)
                         (_attrs this) → a.1 ∈ map_keys (_attrs this))
      by apply flat_map_consumables_key.
    destruct given as [[|c k]|]; simpl in Ha; try by apply Hall.
    destruct (map_get (String c k) (_attrs this)) as [value|] eqn:Hget;
      [|by apply elem_of_nil in Ha].
    apply attributeConsumables_key in Ha as ->.
    apply map_get_is_Some_keys. by eexists.
Qed.

(** X11. [getChildIndex] answers [-1] exactly for a node that is not a
    child; otherwise the child at the index it answers is the node, and no
    child before that index is. *)
Theorem getChildIndex_getChild this (node : NodeRef) :
  (getChildIndex this node = (-1)%Z ↔ node ∉ _children this)
  ∧ (node ∈ _children this →
     getChild this (getChildIndex this node) = Some node
     ∧ ∀ index, (0 ≤ index < getChildIndex this node)%Z →
                getChild this index ≠ Some node).
Proof.
  unfold getChildIndex, getChild.
  assert (Hindex : ∀ cs : list NodeRef,
    match indexOf node cs with
    | Some index => cs !! index = Some node
                    ∧ ∀ i, i < index → cs !! i ≠ Some node
    | None => node ∉ cs
    end).
  { induction cs as [|c cs IH]; simpl; [apply not_elem_of_nil|].
    destruct (decide (c = node)) as [->|Hne].
    - split; [done|]. intros i Hi. lia.
    - destruct (indexOf node cs) as [index|]; simpl.
      + destruct IH as [Hat Hbefore]. split; [done|].
        intros [|i] Hi; simpl; [congruence|]. apply Hbefore. lia.
      + rewrite not_elem_of_cons. by split. }
  specialize (Hindex (_children this)).
  destruct (indexOf node (_children this)) as [index|].
  - destruct Hindex as [Hat Hbefore]. split.
    + split; [lia|]. intros Hnot. exfalso. apply Hnot.
      by apply list_elem_of_lookup_2 in Hat.
    + intros _. rewrite decide_False by lia. rewrite Nat2Z.id. split; [done|].
      intros i Hi. rewrite decide_False by lia. apply Hbefore. lia.
  - split; [done|]. by intros Hin.
Qed.

End consumables_facts.

Lemma getConsumables_by_key_witness :
  consumable_attributes (_getConsumables spanA (Some "class") None)
  = filter (λ a, a.1 = "class")
      (consumable_attributes (_getConsumables spanA None None))
  ∧ consumable_name (_getConsumables spanA (Some "class") None) = false
  ∧ consumable_name (_getConsumables spanA None None) = true
  ∧ ∀ (given : option string) token a,
      a ∈ consumable_attributes (_getConsumables spanA given token) →
      hasAttribute spanA a.1 None = true.
Proof.
  apply (getConsumables_by_key spanA "class");
    [apply (parseAttributes_wf "span")|done].
Defined.

(** ** Children: the agreement of parents and children *)

Section consistency_facts.
Context {V : Type}.
Implicit Types (t : Tree V) (n this : NodeRef) (cs ns : list NodeRef).

Lemma filter_ne_absent n cs : n ∉ cs → filter (λ c, c ≠ n) cs = cs.
Proof. intros Hn. apply filter_all. by intros x Hx ->. Qed.

Lemma take_drop_filter n cs index :
  NoDup cs → cs !! index = Some n →
  take index cs ++ drop (S index) cs = filter (λ c, c ≠ n) cs.
Proof.
  intros Hnodup Hat. pose proof (take_drop_middle cs index n Hat) as Hsplit.
  rewrite <-Hsplit in Hnodup.
  apply NoDup_app in Hnodup as (_ & Hleft & [Hright _]%NoDup_cons).
  rewrite <-Hsplit at 3.
  rewrite filter_app, filter_cons, decide_False by (by intros Hne).
  rewrite !filter_ne_absent; [done|done|].
  intros Hin. apply (Hleft n Hin). left.
Qed.

Lemma splice_insert_Permutation index n cs :
  (splice index 0 [n] cs).1 ≡ₚ n :: cs.
Proof.
  unfold splice. cbn [fst]. rewrite Nat.add_0_r.
  change ([n] ++ drop index cs) with (n :: drop index cs).
  by rewrite <-Permutation_middle, take_drop.
Qed.

(** The notifications of the steps. *)
Lemma putParent_notified n p t t' :
  putParent n p t = Some (tt, t') → notified t' = notified t.
Proof.
  unfold putParent, putNode, getNode, mbind, TreeOp_bind.
  destruct (nodes t !! n); simpl; [|done]. by intros [= <-].
Qed.

Lemma putChildren_notified this cs t t' :
  putChildren this cs t = Some (tt, t') → notified t' = notified t.
Proof.
  unfold putChildren, putNode, getNode, mbind, TreeOp_bind.
  destruct (nodes t !! this) as [node|]; simpl; [|done].
  destruct (kind node); [done|]. by intros [= <-].
Qed.

Lemma getChildren_state this cs t t' :
  getChildren this t = Some (cs, t') → t' = t.
Proof.
  unfold getChildren, getNode, mbind, TreeOp_bind.
  destruct (nodes t !! this) as [node|]; simpl; [|done].
  destruct (kind node); [done|]. by intros [= _ <-].
Qed.

Lemma clearParents_notified cs index howMany :
  ∀ t t', clearParents cs index howMany t = Some (tt, t') →
          notified t' = notified t.
Proof.
  revert index. induction howMany as [|howMany IH]; intros index t t'; simpl.
  { by intros [= <-]. }
  destruct (cs !! index) as [c|]; [|done]. unfold mbind, TreeOp_bind.
  destruct (putParent c None t) as [[[] t1]|] eqn:Hput; [|done].
  intros Hrest%IH. by rewrite Hrest, (putParent_notified _ _ _ _ Hput).
Qed.

Lemma removeChildren_notified this index howMany t removed t' :
  _removeChildren this index howMany t = Some (removed, t') →
  notified t' = notified t ++ [(ChildrenChange, this)].
Proof.
  unfold _removeChildren, mbind, TreeOp_bind, fireChangeAt.
  destruct (getChildren this _) as [[cs t1]|] eqn:Hget1; [|done].
  apply getChildren_state in Hget1 as ->.
  destruct (clearParents cs index howMany _) as [[[] t2]|] eqn:Hclear; [|done].
  apply clearParents_notified in Hclear.
  destruct (getChildren this t2) as [[cs' t3]|] eqn:Hget2; [|done].
  apply getChildren_state in Hget2 as ->. unfold splice.
  destruct (putChildren this _ t2) as [[[] t4]|] eqn:Hput; [|done].
  apply putChildren_notified in Hput. intros [= _ <-]. by rewrite Hput, Hclear.
Qed.

Lemma remove_notified n p t t' :
  parentOf t n = Some (Some p) →
  _remove n t = Some (tt, t') →
  notified t' = notified t ++ [(ChildrenChange, p)].
Proof.
  intros Hp. unfold _remove.
  rewrite (bind_Some _ _ _ _ _ (getParent_spec t n _ Hp)).
  unfold mbind, TreeOp_bind.
  destruct (getChildren p t) as [[cs t1]|] eqn:Hget; [|done].
  apply getChildren_state in Hget as ->.
  destruct (indexOf n cs) as [index|]; [|done].
  destruct (_removeChildren p index 1 t) as [[removed t2]|] eqn:Hremove;
    [|done].
  apply removeChildren_notified in Hremove. by intros [= <-].
Qed.

(** Detaching a node: the first two lines of the loop of [_insertChild]. *)
Lemma detach_consistent t n :
  tree_consistent t →
  is_Some (parentOf t n) →
  ∃ t1, (p ← getParent n;
         if bool_decide (p = None) then mret tt else _remove n) t
        = Some (tt, t1)
    ∧ (∀ x, parentOf t1 x = if decide (x = n) then Some None else parentOf t x)
    ∧ (∀ x, childrenOf t1 x = filter (λ c, c ≠ n) <$> childrenOf t x)
    ∧ notified t1 = notified t ++ movedFrom t n.
Proof.
  intros [Hdown Hup] [p Hp]. unfold movedFrom. rewrite Hp.
  rewrite (bind_Some _ _ _ _ _ (getParent_spec t n p Hp)).
  assert (Hothers : ∀ x, x ≠ default n p →
            childrenOf t x = filter (λ c, c ≠ n) <$> childrenOf t x).
  { intros x Hx. destruct (childrenOf t x) as [cs|] eqn:Hcs; [|done].
    simpl. f_equal. symmetry. apply filter_ne_absent. intros Hn.
    destruct (Hdown x cs Hcs) as [_ Hparents]. specialize (Hparents n Hn).
    rewrite Hp in Hparents. simplify_eq. }
  destruct p as [q|]; simpl in *.
  - destruct (Hup n q Hp) as (siblings & Hsiblings & Hin).
    destruct (Hdown q siblings Hsiblings) as [Hnodup _].
    destruct (remove_spec t n q siblings Hp Hsiblings Hin)
      as (t1 & index & Hremove & Hat & Hp1 & Hc1).
    exists t1. split_and!; [done|done| |by apply (remove_notified n q)].
    intros x. rewrite Hc1. destruct (decide (x = q)) as [->|Hne].
    + rewrite Hsiblings. simpl. f_equal. by apply take_drop_filter.
    + by apply Hothers.
  - exists t. split_and!; [done|..].
    + intros x. by destruct (decide (x = n)) as [->|].
    + intros x. destruct (childrenOf t x) as [cs|] eqn:Hcs; [|done].
      simpl. f_equal. symmetry. apply filter_ne_absent. intros Hn.
      destruct (Hdown x cs Hcs) as [_ Hparents]. specialize (Hparents n Hn).
      congruence.
    + by rewrite app_nil_r.
Qed.

(** One round of the loop of [_insertChild]. *)
Lemma insert_round_consistent t this n index cs :
  tree_consistent t →
  childrenOf t this = Some cs →
  is_Some (parentOf t n) →
  ∃ t3,
    (∀ k : TreeOp V nat,
       (p ← getParent n;
        (if bool_decide (p = None) then mret tt else _remove n);;
        putParent n (Some this);;
        children ← getChildren this;
        putChildren this (splice index 0 [n] children).1;; k) t = k t3)
    ∧ tree_consistent t3
    ∧ (∀ x, parentOf t3 x
            = if decide (x = n) then Some (Some this) else parentOf t x)
    ∧ (∀ x, is_Some (childrenOf t3 x) ↔ is_Some (childrenOf t x))
    ∧ (∀ x, childrenOf t3 x
            = if decide (x = this)
              then Some (take index (filter (λ c, c ≠ n) cs) ++ [n]
                         ++ drop index (filter (λ c, c ≠ n) cs))
              else filter (λ c, c ≠ n) <$> childrenOf t x)
    ∧ notified t3 = notified t ++ movedFrom t n.
Proof.
  intros Hconsistent Hcs Hn. pose proof Hconsistent as [Hdown Hup].
  destruct (detach_consistent t n Hconsistent Hn)
    as (t1 & Hdetach & Hp1 & Hc1 & Hfired1).
  assert (Hn1 : is_Some (parentOf t1 n)) by (by rewrite Hp1, decide_True).
  destruct (putParent_spec t1 n (Some this) Hn1) as (t2 & Hput & Hp2 & Hc2).
  set (cs1 := filter (λ c, c ≠ n) cs).
  assert (Hcs2 : childrenOf t2 this = Some cs1) by (by rewrite Hc2, Hc1, Hcs).
  destruct (putChildren_spec t2 this cs1 (splice index 0 [n] cs1).1 Hcs2)
    as (t3 & Hput3 & Hc3 & Hp3).
  assert (Hparent3 : ∀ x, parentOf t3 x
            = if decide (x = n) then Some (Some this) else parentOf t x).
  { intros x. rewrite Hp3, Hp2, Hp1. by destruct (decide (x = n)). }
  assert (Hchildren3 : ∀ x, childrenOf t3 x
            = if decide (x = this) then Some (splice index 0 [n] cs1).1
              else filter (λ c, c ≠ n) <$> childrenOf t x).
  { intros x. rewrite Hc3. destruct (decide (x = this)); [done|].
    by rewrite Hc2, Hc1. }
  exists t3. split_and!.
  - intros k. unfold mbind, TreeOp_bind in *.
    destruct (getParent n t) as [[p t0]|]; [|done].
    destruct ((if bool_decide (p = None) then mret tt else _remove n) t0)
      as [[[] ?]|]; simplify_eq.
    rewrite Hput. rewrite (getChildren_spec t2 this cs1 Hcs2). by rewrite Hput3.
  - split.
    + intros p l. rewrite Hchildren3. destruct (decide (p = this)) as [->|Hne].
      * intros Hl%(inj Some). subst l.
        destruct (Hdown this cs Hcs) as [Hnodup Hparents]. split.
        { rewrite splice_insert_Permutation. apply NoDup_cons. split.
          - unfold cs1. rewrite list_elem_of_filter. by intros [? _].
          - by apply NoDup_filter. }
        intros c. rewrite splice_insert_Permutation, Hparent3.
        intros [->|Hc]%elem_of_cons; [by rewrite decide_True|].
        apply list_elem_of_filter in Hc as [Hne Hc].
        rewrite decide_False by done. by apply Hparents.
      * destruct (childrenOf t p) as [l0|] eqn:Hl0; [|done]. simpl.
        intros [= <-]. destruct (Hdown p l0 Hl0) as [Hnodup Hparents]. split.
        { by apply NoDup_filter. }
        intros c [Hc Hin]%list_elem_of_filter. rewrite Hparent3.
        rewrite decide_False by done. by apply Hparents.
    + intros x p. rewrite Hparent3, Hchildren3.
      destruct (decide (x = n)) as [->|Hx].
      * intros [= <-]. rewrite decide_True by done. eexists. split; [done|].
        rewrite splice_insert_Permutation. left.
      * intros (l & Hl & Hin)%Hup. destruct (decide (p = this)) as [->|Hp].
        { eexists. split; [done|]. rewrite splice_insert_Permutation. right.
          apply list_elem_of_filter. split; [done|]. congruence. }
        rewrite Hl. eexists. split; [done|]. by apply list_elem_of_filter.
  - done.
  - intros x. rewrite Hchildren3. destruct (decide (x = this)) as [->|].
    + rewrite Hcs. split; by eexists.
    + by rewrite fmap_is_Some.
  - intros x. rewrite Hchildren3. destruct (decide (x = this)); [|done].
    unfold splice. cbn [fst]. by rewrite Nat.add_0_r.
  - by rewrite (putChildren_notified _ _ _ _ Hput3),
      (putParent_notified _ _ _ _ Hput), Hfired1.
Qed.

Lemma insertNodes_consistent this ns :
  ∀ t index count,
    tree_consistent t →
    is_Some (childrenOf t this) →
    (∀ n, n ∈ ns → is_Some (parentOf t n)) →
    ∃ t', insertNodes this index count ns t = Some (count + length ns, t')
      ∧ tree_consistent t'
      ∧ (∀ x, parentOf t' x
              = if decide (x ∈ ns) then Some (Some this) else parentOf t x)
      ∧ (∀ x, x ≠ this →
              childrenOf t' x = filter (λ c, c ∉ ns) <$> childrenOf t x).
Proof.
  induction ns as [|n ns IH]; intros t index count Hconsistent Hthis Hnodes.
  { exists t. split_and!; [by rewrite Nat.add_0_r|done|..].
    - intros x. rewrite decide_False; [done|apply not_elem_of_nil].
    - intros x _. destruct (childrenOf t x) as [l|]; [|done]. simpl. f_equal.
      symmetry. apply filter_all. intros c _. apply not_elem_of_nil. }
  cbn [insertNodes]. destruct Hthis as [cs Hcs].
  destruct (insert_round_consistent t this n index cs Hconsistent Hcs)
    as (t3 & Hround & Hconsistent3 & Hp3 & Hc3 & Hchildren3 & _);
    [apply Hnodes; left|].
  rewrite Hround.
  destruct (IH t3 (S index) (S count) Hconsistent3)
    as (t' & Hloop & Ht' & Hp' & Hchildren').
  - apply Hc3. by eexists.
  - intros m Hm. rewrite Hp3. destruct (decide (m = n)); [by eexists|].
    apply Hnodes. by right.
  - exists t'. rewrite Hloop.
    split_and!; [simpl; f_equal; f_equal; lia|done|..].
    + intros x. rewrite Hp', Hp3.
      destruct (decide (x ∈ ns)) as [Hin|Hnot].
      * rewrite decide_True; [done|by right].
      * destruct (decide (x = n)) as [->|Hne].
        { rewrite decide_True; [done|left]. }
        rewrite decide_False; [done|]. rewrite not_elem_of_cons. done.
    + intros x Hx. rewrite Hchildren', Hchildren3, decide_False by done.
      destruct (childrenOf t x) as [l|]; [|done]. simpl. f_equal.
      rewrite list_filter_filter. apply list_filter_iff.
      intros c. rewrite not_elem_of_cons. tauto.
Qed.

(** [normalize]: a string becomes a new text node that has no parent. *)
Lemma normalize_consistent (items : list ChildInput) :
  ∀ t,
    tree_consistent t →
    (∀ n, NodeInput n ∈ items → is_Some (parentOf t n)) →
    ∃ ns t0, normalize items t = Some (ns, t0)
      ∧ length ns = length items
      ∧ tree_consistent t0
      ∧ (∀ n, NodeInput n ∈ items → n ∈ ns)
      ∧ (∀ n, n ∈ ns → is_Some (parentOf t0 n))
      ∧ (∀ x, childrenOf t0 x = childrenOf t x)
      ∧ (∀ x, is_Some (parentOf t x) → parentOf t0 x = parentOf t x).
Proof.
  assert (Hnew : ∀ t data, tree_consistent t →
    ∃ n t0, newText data t = Some (n, t0)
      ∧ tree_consistent t0
      ∧ parentOf t n = None
      ∧ (∀ x, parentOf t0 x = if decide (x = n) then Some None else parentOf t x)
      ∧ (∀ x, childrenOf t0 x = childrenOf t x)).
  { intros t data [Hdown Hup].
    set (n := fresh (dom (nodes t))).
    assert (Hfresh : nodes t !! n = None).
    { apply not_elem_of_dom. apply is_fresh. }
    assert (Hparent : ∀ x,
      parentOf (mkTree (<[n := mkNode None (TextKind data)]> (nodes t))
                  (notified t)) x
      = if decide (x = n) then Some None else parentOf t x).
    { intros x. unfold parentOf. simpl. destruct (decide (x = n)) as [->|Hne].
      - by rewrite lookup_insert_eq.
      - by rewrite lookup_insert_ne. }
    assert (Hchildren : ∀ x,
      childrenOf (mkTree (<[n := mkNode None (TextKind data)]> (nodes t))
                    (notified t)) x
      = childrenOf t x).
    { intros x. unfold childrenOf. simpl. destruct (decide (x = n)) as [->|Hne].
      - by rewrite lookup_insert_eq, Hfresh.
      - by rewrite lookup_insert_ne. }
    assert (Hnone : parentOf t n = None) by (unfold parentOf; by rewrite Hfresh).
    exists n. eexists. split; [done|]. split_and!; try done. split.
    - intros p cs. rewrite Hchildren. intros Hcs.
      destruct (Hdown p cs Hcs) as [Hnodup Hparents]. split; [done|].
      intros c Hc. rewrite Hparent. rewrite decide_False; [by apply Hparents|].
      intros ->. specialize (Hparents n Hc). congruence.
    - intros x p. rewrite Hparent. destruct (decide (x = n)); [done|].
      intros (cs & Hcs & Hin)%Hup. exists cs. split; [|done].
      rewrite <-Hcs. apply Hchildren. }
  induction items as [|item items IH]; intros t Hconsistent Hnodes.
  { exists [], t. split_and!; try done; by intros n ?%elem_of_nil. }
  cbn [normalize].
  assert (Hitem : ∃ n t1,
    match item with
    | NodeInput n => mret n
    | StringInput s => newText s
    | TextProxyInput data => newText data
    end t = Some (n, t1)
    ∧ tree_consistent t1
    ∧ (∀ m, item = NodeInput m → m = n)
    ∧ is_Some (parentOf t1 n)
    ∧ (∀ x, childrenOf t1 x = childrenOf t x)
    ∧ (∀ x, is_Some (parentOf t x) → parentOf t1 x = parentOf t x)).
  { assert (Htext : ∀ data, ∃ n t1, newText data t = Some (n, t1)
      ∧ tree_consistent t1
      ∧ (∀ m, item = NodeInput m → m = n)
      ∧ is_Some (parentOf t1 n)
      ∧ (∀ x, childrenOf t1 x = childrenOf t x)
      ∧ (∀ x, is_Some (parentOf t x) → parentOf t1 x = parentOf t x) ∨
        ∃ m, item = NodeInput m).
    { intros data. destruct (Hnew t data Hconsistent)
        as (n & t1 & Hrun & Ht1 & Hnone & Hp1 & Hc1).
      destruct item as [m| |]; [exists m, t; right; by eexists|..];
        exists n, t1; left; split_and!; try done.
      - by rewrite Hp1, decide_True.
      - intros x Hx. rewrite Hp1. destruct (decide (x = n)) as [->|]; [|done].
        rewrite Hnone in Hx. by destruct Hx.
      - by rewrite Hp1, decide_True.
      - intros x Hx. rewrite Hp1. destruct (decide (x = n)) as [->|]; [|done].
        rewrite Hnone in Hx. by destruct Hx. }
    destruct item as [m|s|data].
    - exists m, t. split_and!; try done.
      + by intros ? [= ->].
      + apply Hnodes. left.
    - destruct (Htext s) as (n & t1 & [H|[? ?]]); [|done]. by exists n, t1.
    - destruct (Htext data) as (n & t1 & [H|[? ?]]); [|done]. by exists n, t1. }
  destruct Hitem as (n & t1 & Hrun & Ht1 & Hnode & Hn1 & Hc1 & Hp1).
  rewrite (bind_Some _ _ _ _ _ Hrun).
  destruct (IH t1 Ht1) as (ns & t0 & Hrest & Hlength & Ht0 & Hin & Hns & Hc0 & Hp0).
  { intros m Hm. rewrite Hp1; apply Hnodes; by right. }
  rewrite (bind_Some _ _ _ _ _ Hrest).
  exists (n :: ns), t0. split_and!; try done.
  - simpl. by rewrite Hlength.
  - intros m [Hm|Hm]%elem_of_cons.
    + rewrite (Hnode m (eq_sym Hm)). left.
    + right. by apply Hin.
  - intros m [->|Hm]%elem_of_cons; [|by apply Hns].
    rewrite Hp0 by done. done.
  - intros x. by rewrite Hc0, Hc1.
  - intros x Hx. rewrite Hp0, Hp1; try done. by rewrite Hp1.
Qed.

(** X12. On a tree whose parent pointers and children agree, [_insertChild]
    never throws, whatever the index, for nodes of the tree and strings
    alike: nodes that have a parent, the element itself included, are moved,
    and nodes given twice are inserted once. It returns the number of items,
    the tree is in agreement again, the nodes given have the element as
    their parent and are among its children, and the children of other
    elements are their former children without the nodes that moved. *)
Theorem insertChild_consistent t this index (items : list ChildInput) :
  tree_consistent t →
  is_Some (childrenOf t this) →
  (∀ n, NodeInput n ∈ items → is_Some (parentOf t n)) →
  ∃ t', _insertChild this index items t = Some (length items, t')
    ∧ tree_consistent t'
    ∧ (∀ n, NodeInput n ∈ items →
         parentOf t' n = Some (Some this)
         ∧ ∃ cs, childrenOf t' this = Some cs ∧ n ∈ cs).
Proof.
  intros Hconsistent Hthis Hnodes. unfold _insertChild.
  destruct (fireChangeAt_spec ChildrenChange this t) as (t0 & Hfire & Hp0 & Hc0).
  rewrite (bind_Some _ _ _ _ _ Hfire).
  assert (Hconsistent0 : tree_consistent t0).
  { destruct Hconsistent as [Hdown Hup]. split.
    - intros p cs. rewrite Hc0. setoid_rewrite Hp0. apply Hdown.
    - intros n p. rewrite Hp0. setoid_rewrite Hc0. apply Hup. }
  destruct (normalize_consistent items t0 Hconsistent0)
    as (ns & t1 & Hnormalize & Hlength & Ht1 & Hin & Hns & Hc1 & Hp1).
  { intros n Hn. rewrite Hp0. by apply Hnodes. }
  rewrite (bind_Some _ _ _ _ _ Hnormalize).
  destruct (insertNodes_consistent this ns t1 index 0 Ht1)
    as (t' & Hloop & Ht' & Hp' & _); [by rewrite Hc1, Hc0|done|].
  exists t'. rewrite Hloop, Hlength. split_and!; [done|done|].
  intros n Hn. assert (Hparent : parentOf t' n = Some (Some this)).
  { rewrite Hp', decide_True; [done|by apply Hin]. }
  split; [done|]. destruct Ht' as [_ Hup]. by apply Hup.
Qed.

(** [_removeChildren] of a range that is within the children. *)
Lemma removeChildren_within t this cs index howMany :
  tree_consistent t →
  childrenOf t this = Some cs →
  index + howMany ≤ length cs →
  ∃ t', _removeChildren this index howMany t
        = Some (take howMany (drop index cs), t')
    ∧ tree_consistent t'
    ∧ childrenOf t' this = Some (take index cs ++ drop (index + howMany) cs)
    ∧ (∀ n, n ∈ take howMany (drop index cs) → parentOf t' n = Some None)
    ∧ notified t' = notified t ++ [(ChildrenChange, this)]
    ∧ (∀ x, parentOf t' x
            = if decide (x ∈ take howMany (drop index cs)) then Some None
              else parentOf t x)
    ∧ (∀ x, x ≠ this → childrenOf t' x = childrenOf t x).
Proof.
  intros Hconsistent Hcs Hlen. pose proof Hconsistent as [Hdown Hup].
  destruct (Hdown this cs Hcs) as [Hnodup Hparents].
  assert (Hsplit : cs = take index cs ++ take howMany (drop index cs)
                        ++ drop (index + howMany) cs).
  { rewrite <-drop_drop, take_drop. by rewrite take_drop. }
  set (removed := take howMany (drop index cs)) in *.
  assert (Hremoved : ∀ c, c ∈ removed → c ∈ cs).
  { intros c Hc. rewrite Hsplit, !elem_of_app. auto. }
  destruct (removeChildren_spec t this cs index howMany Hcs Hlen)
    as (t' & Hrun & Hp' & Hc').
  { intros c Hc. rewrite (Hparents c) by auto. by eexists. }
  change (take howMany (drop index cs)) with removed in Hrun, Hp', Hc'.
  rewrite Hsplit in Hnodup.
  apply NoDup_app in Hnodup as (Hleft & Hleft' & Hnodup).
  apply NoDup_app in Hnodup as (Hmiddle & Hmiddle' & Hright).
  assert (Hkept : ∀ c, c ∈ take index cs ++ drop (index + howMany) cs →
                       c ∈ cs ∧ c ∉ removed).
  { intros c Hc. apply elem_of_app in Hc. split.
    { rewrite Hsplit, !elem_of_app. tauto. }
    intros Hr. destruct Hc as [Hc|Hc].
    - apply (Hleft' c Hc). apply elem_of_app. by left.
    - by apply (Hmiddle' c Hr). }
  exists t'.
  split_and!; [done| |by rewrite Hc', decide_True|
               |by apply removeChildren_notified in Hrun|done|].
  - split.
    + intros p l. rewrite Hc'. destruct (decide (p = this)) as [->|Hne].
      * intros [= <-]. split.
        { apply NoDup_app. split_and!; [done| |done].
          intros c Hc Hright'. apply (Hleft' c Hc).
          apply elem_of_app. by right. }
        intros c Hc. destruct (Hkept c Hc) as [Hin Hnot].
        rewrite Hp', decide_False by done. by apply Hparents.
      * intros Hl. destruct (Hdown p l Hl) as [Hnodup' Hparents']. split; [done|].
        intros c Hc. rewrite Hp'. rewrite decide_False; [by apply Hparents'|].
        intros Hr. specialize (Hparents' c Hc).
        rewrite (Hparents c) in Hparents' by auto. congruence.
    + intros x p. rewrite Hp'. destruct (decide (x ∈ removed)); [done|].
      intros (l & Hl & Hin)%Hup. rewrite Hc'.
      destruct (decide (p = this)) as [->|Hne]; [|by eexists].
      eexists. split; [done|]. rewrite Hcs in Hl. injection Hl as <-.
      rewrite Hsplit, !elem_of_app in Hin. rewrite elem_of_app. tauto.
  - intros n Hn. by rewrite Hp', decide_True.
  - intros x Hx. by rewrite Hc', decide_False.
Qed.

(** X13. On such a tree [_removeChildren] returns exactly when the range is
    within the children or empty, and throws otherwise. When the range is
    within the children, it returns the children of the range, which have
    no parent afterwards; the children left are those around the range, the
    tree is in agreement again, and one change of children was fired on the
    element. *)
Theorem removeChildren_consistent t this cs index howMany :
  tree_consistent t →
  childrenOf t this = Some cs →
  (is_Some (_removeChildren this index howMany t)
   ↔ howMany = 0 ∨ index + howMany ≤ length cs)
  ∧ (index + howMany ≤ length cs →
     ∃ t', _removeChildren this index howMany t
           = Some (take howMany (drop index cs), t')
       ∧ tree_consistent t'
       ∧ childrenOf t' this
         = Some (take index cs ++ drop (index + howMany) cs)
       ∧ (∀ n, n ∈ take howMany (drop index cs) → parentOf t' n = Some None)
       ∧ notified t' = notified t ++ [(ChildrenChange, this)]).
Proof.
  intros Hconsistent Hcs.
  assert (Hwithin : index + howMany ≤ length cs →
     ∃ t', _removeChildren this index howMany t
           = Some (take howMany (drop index cs), t')
       ∧ tree_consistent t'
       ∧ childrenOf t' this
         = Some (take index cs ++ drop (index + howMany) cs)
       ∧ (∀ n, n ∈ take howMany (drop index cs) → parentOf t' n = Some None)
       ∧ notified t' = notified t ++ [(ChildrenChange, this)]).
  { intros Hlen.
    destruct (removeChildren_within t this cs index howMany Hconsistent Hcs Hlen)
      as (t' & Hrun & Ht' & Hchildren & Hremoved & Hfired & _).
    by exists t'. }
  split; [|done]. split.
  - intros Hsome. destruct (decide (howMany = 0)) as [|Hmany]; [by left|right].
    destruct (decide (index + howMany ≤ length cs)) as [|Hout]; [done|].
    exfalso. revert Hsome. unfold _removeChildren.
    destruct (fireChangeAt_spec ChildrenChange this t)
      as (t0 & Hfire & Hp0 & Hc0).
    rewrite (bind_Some _ _ _ _ _ Hfire).
    rewrite (bind_Some _ _ _ _ _
               (getChildren_spec t0 this cs ltac:(by rewrite Hc0))).
    assert (Hthrow : ∀ many i (s : Tree V), many ≠ 0 → length cs < i + many →
              clearParents cs i many s = None).
    { clear. induction many as [|many IH]; intros i s Hmany Hlen; [done|].
      simpl. destruct (cs !! i) as [c|] eqn:Hc; [|done].
      apply lookup_lt_Some in Hc. unfold mbind, TreeOp_bind.
      destruct (putParent c None s) as [[[] s']|]; [|done].
      apply IH; lia. }
    unfold mbind at 1, TreeOp_bind at 1.
    rewrite Hthrow by lia. by intros [? ?].
  - intros [->|Hlen].
    + unfold _removeChildren.
      destruct (fireChangeAt_spec ChildrenChange this t)
        as (t0 & Hfire & Hp0 & Hc0).
      assert (Hcs0 : childrenOf t0 this = Some cs) by (by rewrite Hc0).
      rewrite (bind_Some _ _ _ _ _ Hfire).
      rewrite (bind_Some _ _ _ _ _ (getChildren_spec t0 this cs Hcs0)).
      cbn [clearParents].
      rewrite (bind_Some (mret tt) _ t0 tt t0 eq_refl).
      rewrite (bind_Some _ _ _ _ _ (getChildren_spec t0 this cs Hcs0)).
      unfold splice.
      destruct (putChildren_spec t0 this cs
                  (take index cs ++ [] ++ drop (index + 0) cs) Hcs0)
        as (t' & Hput & _).
      rewrite (bind_Some _ _ _ _ _ Hput). by eexists.
    + destruct (Hwithin Hlen) as (t' & -> & _). by eexists.
Qed.

End consistency_facts.

Lemma exampleTree_consistent : tree_consistent exampleTree.
Proof.
  assert (Hnodes : ∀ n node, nodes exampleTree !! n = Some node →
    (n, node) ∈ [(0, mkNode None (ElementKind (mkElement "p" [] [1; 2])));
                 (1, mkNode (Some 0) (TextKind "x"));
                 (2, mkNode (Some 0) (TextKind "y"));
                 (3, mkNode None (TextKind "z"));
                 (4, mkNode None (ElementKind (mkElement "div" [] [5])));
                 (5, mkNode (Some 4) (@TextKind StructuredValue "w"))]).
  { intros n node Hn. by apply (elem_of_list_to_map_2 (M:=gmap NodeRef)). }
  split.
  - intros p cs. unfold childrenOf.
    destruct (nodes exampleTree !! p) as [node|] eqn:Hnode; [|done].
    apply Hnodes in Hnode.
    repeat (apply elem_of_cons in Hnode as [Hnode|Hnode]);
      try (by apply elem_of_nil in Hnode); simplify_eq; simpl; try done;
      intros [= <-]; (split; [|intros c Hc;
        repeat (apply elem_of_cons in Hc as [->|Hc]);
        try (by apply elem_of_nil in Hc); reflexivity]).
    + apply NoDup_cons. split; [by intros ?%list_elem_of_singleton|].
      apply NoDup_singleton.
    + apply NoDup_singleton.
  - intros n p. unfold parentOf.
    destruct (nodes exampleTree !! n) as [node|] eqn:Hnode; [|done].
    apply Hnodes in Hnode.
    repeat (apply elem_of_cons in Hnode as [Hnode|Hnode]);
      try (by apply elem_of_nil in Hnode); simplify_eq; simpl; try done;
      intros [= <-]; (eexists; split; [reflexivity|]).
    + left.
    + right. left.
    + left.
Qed.

Lemma insertChild_consistent_witness :
  ∃ t', _insertChild 0 1 [NodeInput 5; StringInput "s"; NodeInput 1] exampleTree
        = Some (length [NodeInput 5; StringInput "s"; NodeInput 1], t')
    ∧ tree_consistent t'
    ∧ (∀ n, NodeInput n ∈ [NodeInput 5; StringInput "s"; NodeInput 1] →
         parentOf t' n = Some (Some 0)
         ∧ ∃ cs, childrenOf t' 0 = Some cs ∧ n ∈ cs).
Proof.
  apply (insertChild_consistent exampleTree 0 1
           [NodeInput 5; StringInput "s"; NodeInput 1]).
  - apply exampleTree_consistent.
  - by eexists.
  - intros n Hn. repeat (apply elem_of_cons in Hn as [Hn|Hn]);
      try (by apply elem_of_nil in Hn); simplify_eq; by eexists.
Defined.

Lemma removeChildren_consistent_witness :
  (is_Some (_removeChildren 0 0 1 exampleTree) ↔ 1 = 0 ∨ 0 + 1 ≤ length [1; 2])
  ∧ (0 + 1 ≤ length [1; 2] →
     ∃ t', _removeChildren 0 0 1 exampleTree
           = Some (take 1 (drop 0 [1; 2]), t')
       ∧ tree_consistent t'
       ∧ childrenOf t' 0 = Some (take 0 [1; 2] ++ drop (0 + 1) [1; 2])
       ∧ (∀ n, n ∈ take 1 (drop 0 [1; 2]) → parentOf t' n = Some None)
       ∧ notified t' = notified exampleTree ++ [(ChildrenChange, 0)]).
Proof.
  apply (removeChildren_consistent exampleTree 0 [1; 2] 0 1).
  - apply exampleTree_consistent.
  - reflexivity.
Defined.

Section move_facts.
Context {V : Type}.
Implicit Types (t : Tree V) (n this : NodeRef) (cs : list NodeRef).

Lemma insertChild_one t this n index cs :
  tree_consistent t →
  childrenOf t this = Some cs →
  is_Some (parentOf t n) →
  ∃ t', _insertChild this index [NodeInput n] t = Some (1, t')
    ∧ tree_consistent t'
    ∧ childrenOf t' this
      = Some (take index (filter (λ c, c ≠ n) cs) ++ [n]
              ++ drop index (filter (λ c, c ≠ n) cs))
    ∧ (∀ x, x ≠ this →
            childrenOf t' x = filter (λ c, c ≠ n) <$> childrenOf t x)
    ∧ (∀ x, parentOf t' x
            = if decide (x = n) then Some (Some this) else parentOf t x)
    ∧ notified t'
      = notified t ++ (ChildrenChange, this) :: movedFrom t n.
Proof.
  intros [Hdown Hup] Hcs Hn. unfold _insertChild.
  set (t0 := mkTree (nodes t) (notified t ++ [(ChildrenChange, this)])).
  assert (Hconsistent0 : tree_consistent t0) by (by split).
  rewrite (bind_Some (fireChangeAt ChildrenChange this) _ t tt t0 eq_refl).
  rewrite (bind_Some (normalize [NodeInput n]) _ t0 [n] t0 eq_refl).
  destruct (insert_round_consistent t0 this n index cs Hconsistent0 Hcs Hn)
    as (t3 & Hround & Hconsistent3 & Hp3 & _ & Hc3 & Hfired3).
  cbn [insertNodes]. rewrite Hround. exists t3.
  split_and!; [done|done|by rewrite Hc3, decide_True| |done|].
  - intros x Hx. by rewrite Hc3, decide_False.
  - rewrite Hfired3. unfold t0. simpl. by rewrite <-app_assoc.
Qed.

(** X14. [_insertChild] of one node on a tree whose parent pointers and
    children agree: the node is first taken out of the children of the
    parent it has, be it the element itself, and then inserted at the index,
    so that the index counts the children without the node; one change of
    children is fired on the element and then one on the former parent of
    the node. [_appendChild] moves a child of the element to the end. *)
Theorem insertChild_moves t this n index cs :
  tree_consistent t →
  childrenOf t this = Some cs →
  is_Some (parentOf t n) →
  (∃ t', _insertChild this index [NodeInput n] t = Some (1, t')
     ∧ childrenOf t' this
       = Some (take index (filter (λ c, c ≠ n) cs) ++ [n]
               ++ drop index (filter (λ c, c ≠ n) cs))
     ∧ (∀ x, x ≠ this →
             childrenOf t' x = filter (λ c, c ≠ n) <$> childrenOf t x)
     ∧ (∀ x, parentOf t' x
             = if decide (x = n) then Some (Some this) else parentOf t x)
     ∧ notified t'
       = notified t ++ (ChildrenChange, this) :: movedFrom t n)
  ∧ (∃ t', _appendChild this [NodeInput n] t = Some (1, t')
       ∧ childrenOf t' this = Some (filter (λ c, c ≠ n) cs ++ [n])).
Proof.
  intros Hconsistent Hcs Hn. split.
  - destruct (insertChild_one t this n index cs Hconsistent Hcs Hn)
      as (t' & Hrun & _ & Hrest). by exists t'.
  - destruct (insertChild_one t this n (length cs) cs Hconsistent Hcs Hn)
      as (t' & Hrun & _ & Hchildren & _).
    exists t'. unfold _appendChild.
    rewrite (bind_Some _ _ _ _ _ (getChildren_spec t this cs Hcs)).
    split; [done|]. rewrite Hchildren. f_equal.
    assert (Hshort : length (filter (λ c, c ≠ n) cs) ≤ length cs)
      by apply length_filter.
    by rewrite take_ge, drop_ge, app_nil_r by done.
Qed.

End move_facts.

Lemma insertChild_moves_witness :
  (∃ t', _insertChild 0 1 [NodeInput 5] exampleTree = Some (1, t')
     ∧ childrenOf t' 0
       = Some (take 1 (filter (λ c, c ≠ 5) [1; 2]) ++ [5]
               ++ drop 1 (filter (λ c, c ≠ 5) [1; 2]))
     ∧ (∀ x, x ≠ 0 →
             childrenOf t' x
             = filter (λ c, c ≠ 5) <$> childrenOf exampleTree x)
     ∧ (∀ x, parentOf t' x
             = if decide (x = 5) then Some (Some 0)
               else parentOf exampleTree x)
     ∧ notified t'
       = notified exampleTree ++ (ChildrenChange, 0) :: movedFrom exampleTree 5)
  ∧ (∃ t', _appendChild 0 [NodeInput 5] exampleTree = Some (1, t')
       ∧ childrenOf t' 0 = Some (filter (λ c, c ≠ 5) [1; 2] ++ [5])).
Proof.
  apply (insertChild_moves exampleTree 0 5 1 [1; 2]).
  - apply exampleTree_consistent.
  - reflexivity.
  - by eexists.
Defined.

(** ** Matching: lists of patterns, and excluded keys *)

Section matching_composition.
Context {V : Type} `{!Value.ElementAttributeValue V, !Value.Kinds V}.
Implicit Types (attrs : JsMap (AttrValue V)) (matched : Match)
  (patterns : list NormalizedPropertyPattern).

Lemma matchPatterns_acc patterns exclude attrs matched :
  matchPatterns patterns exclude attrs matched
  = (matched ++.) <$> matchPatterns patterns exclude attrs [].
Proof.
  revert matched.
  induction patterns as [|[[pk pt] pv] patterns IH]; intros matched; simpl.
  { by rewrite app_nil_r. }
  rewrite !matchAttributes_closed.
  destruct (instanceofRegExp pk || forallb _ _); [|done]. simpl.
  destruct (negb _ || negb _); [done|].
  rewrite IH, (IH (collectedMatch _ _ _ _ _)).
  destruct (matchPatterns patterns exclude attrs []); simpl; [|done].
  by rewrite app_assoc.
Qed.

Lemma matchPatterns_app patterns patterns' exclude attrs matched :
  matchPatterns (patterns ++ patterns') exclude attrs matched
  = matchPatterns patterns exclude attrs matched
    ≫= matchPatterns patterns' exclude attrs.
Proof.
  revert matched.
  induction patterns as [|[[pk pt] pv] patterns IH]; intros matched; [done|].
  simpl. destruct (matchAttributes _ _ _ _ _ _) as [[[m hasKey] hasValue]|];
    [|done].
  by destruct (negb hasKey || negb hasValue).
Qed.

Lemma matchAttributes_exclude patternKey patternToken patternValue
    (exclude : list string) attrs (st : Match * bool * bool) :
  matchAttributes patternKey patternToken patternValue (Some exclude) attrs st
  = matchAttributes patternKey patternToken patternValue None
      (filter (λ kv, kv.1 ∉ exclude) attrs) st.
Proof.
  revert st. induction attrs as [|[key value] attrs IH]; intros st; [done|].
  rewrite filter_cons. cbn [fst]. destruct (decide (key ∉ exclude)) as [Hkey|Hkey].
  - cbn [matchAttributes excluded].
    rewrite bool_decide_eq_false_2 by done. cbn [orb].
    destruct (negb (isPatternMatched patternKey key)); [apply IH|].
    destruct st as [[matched hasKey] hasValue].
    destruct value as [s|v].
    + destruct (isPatternMatched patternToken s); [apply IH|].
      destruct (negb (instanceofRegExp patternKey)); [done|apply IH].
    + destruct (Value._getTokensMatch v key patternToken (orTrue patternValue));
        [apply IH|].
      destruct (negb (instanceofRegExp patternKey)); [done|apply IH].
  - cbn [matchAttributes excluded].
    rewrite bool_decide_eq_true_2 by (by apply dec_stable). apply IH.
Qed.

(** X15. The patterns of [_getAttributesMatch] are matched one by one: the
    match of two lists of patterns, one after the other, is the match of the
    first list followed by the match of the second, and there is none when
    one of the two has none. The excluded keys count as little as if the
    element did not have them. *)
Theorem getAttributesMatch_compose (this : Element V) patterns patterns'
    (exclude : option (list string)) (excludedKeys : list string) :
  _getAttributesMatch this (patterns ++ patterns') exclude
  = match _getAttributesMatch this patterns exclude,
          _getAttributesMatch this patterns' exclude with
    | Some matched, Some matched' => Some (matched ++ matched')
    | _, _ => None
    end
  ∧ _getAttributesMatch this patterns (Some excludedKeys)
    = _getAttributesMatch
        (mkElement (name this)
           (filter (λ kv, kv.1 ∉ excludedKeys) (_attrs this))
           (_children this))
        patterns None.
Proof.
  unfold _getAttributesMatch. split.
  - rewrite matchPatterns_app.
    destruct (matchPatterns patterns exclude (_attrs this) []) as [matched|];
      [|done].
    simpl. rewrite matchPatterns_acc.
    by destruct (matchPatterns patterns' exclude (_attrs this) []).
  - simpl. generalize (@nil (string * option string)).
    induction patterns as [|[[pk pt] pv] patterns IH]; intros matched; [done|].
    simpl. rewrite matchAttributes_exclude.
    destruct (matchAttributes _ _ _ _ _ _) as [[[m hasKey] hasValue]|]; [|done].
    destruct (negb hasKey || negb hasValue); [done|apply IH].
Qed.

(** X16. [getAttributes] yields one pair for each key of the element, in
    the order of the map; the pairs it yields are the values [getAttribute]
    returns, and the keys are those [hasAttribute] accepts. An attribute
    that has a token is an attribute of the element. *)
Theorem getAttributes_getAttribute (this : Element V) :
  map_wf (_attrs this) →
  (getAttributes this).*1 = map_keys (_attrs this)
  ∧ (∀ key s, (key, s) ∈ getAttributes this ↔ getAttribute this key = Some s)
  ∧ (∀ key, hasAttribute this key None = true
            ↔ is_Some (getAttribute this key))
  ∧ (∀ key token, hasAttribute this key (Some token) = true →
                  hasAttribute this key None = true).
Proof.
  intros Hwf. unfold getAttributes, getAttribute. split_and!.
  - unfold map_keys. rewrite <-list_fmap_compose. by apply list_fmap_ext.
  - intros key s. rewrite list_elem_of_fmap. split.
    + intros ([k v] & [= -> ->] & Hin).
      by rewrite (elem_of_map_get _ _ _ Hwf Hin).
    + destruct (map_get key (_attrs this)) as [v|] eqn:Hget; [|done].
      intros [= <-]. exists (key, v). split; [done|]. by apply map_get_elem_of.
  - intros key. rewrite hasAttribute_key, map_has_true. by rewrite fmap_is_Some.
  - intros key token. rewrite hasAttribute_key. unfold hasAttribute.
    by destruct (map_has key (_attrs this)).
Qed.

End matching_composition.

Lemma getAttributes_getAttribute_witness :
  (getAttributes spanA).*1 = map_keys (_attrs spanA)
  ∧ (∀ key s, (key, s) ∈ getAttributes spanA ↔ getAttribute spanA key = Some s)
  ∧ (∀ key, hasAttribute spanA key None = true
            ↔ is_Some (getAttribute spanA key))
  ∧ (∀ key token, hasAttribute spanA key (Some token) = true →
                  hasAttribute spanA key None = true).
Proof.
  apply (getAttributes_getAttribute spanA). apply (parseAttributes_wf "span").
Defined.

(** ** The bookmark elements the plugin tracks *)

Section tracking_facts.
Variable rootName : ModelRef → string.
Variable modelElement : ModelRef → ModelElement.
Implicit Types (changes : list DiffItem) (inserted : list ModelRef)
  (bookmarkElements : gmap ModelRef (option string)).

Local Abbreviation track := (_trackBookmarkElements rootName modelElement).

Lemma track_stops changes change changes' bookmarkElements :
  bookmarkInsertion change = false →
  track (changes ++ change :: changes') bookmarkElements
  = track (changes ++ [change]) bookmarkElements.
Proof.
  intros Hchange. revert bookmarkElements.
  induction changes as [|c changes IH]; intros bookmarkElements.
  - destruct change as [|name e|name]; simpl in *; [done| |done].
    apply bool_decide_eq_false in Hchange.
    by rewrite bool_decide_eq_true_2.
  - simpl. destruct c as [|name e|name]; [done| |done].
    destruct (bool_decide (name ≠ "bookmark")); [done|apply IH].
Qed.

Lemma track_insertions inserted changes bookmarkElements :
  track ((DiffInsert "bookmark" <$> inserted) ++ changes) bookmarkElements
  = track changes
      (foldl (λ tracked e, <[e := bookmarkIdOf modelElement e]> tracked)
         bookmarkElements inserted).
Proof.
  revert bookmarkElements.
  induction inserted as [|e inserted IH]; intros bookmarkElements; [done|].
  rewrite fmap_cons. cbn [app _trackBookmarkElements foldl].
  rewrite bool_decide_eq_false_2 by (by intros Hne). apply IH.
Qed.

Lemma lookup_insertions inserted bookmarkElements (element : ModelRef) :
  foldl (λ tracked e, <[e := bookmarkIdOf modelElement e]> tracked)
    bookmarkElements inserted !! element
  = if decide (element ∈ inserted)
    then Some (bookmarkIdOf modelElement element)
    else bookmarkElements !! element.
Proof.
  revert bookmarkElements.
  induction inserted as [|e inserted IH]; intros bookmarkElements;
    cbn [foldl].
  { rewrite decide_False; [done|apply not_elem_of_nil]. }
  rewrite IH. destruct (decide (element ∈ inserted)) as [Hin|Hnot].
  - rewrite decide_True; [done|by right].
  - destruct (decide (element = e)) as [->|Hne].
    + rewrite lookup_insert_eq. rewrite decide_True; [done|left].
    + rewrite lookup_insert_ne by done. rewrite decide_False; [done|].
      rewrite not_elem_of_cons. done.
Qed.

(** X17. [_trackBookmarkElements] reads the changes of the differ up to the
    first one that is not the insertion of a bookmark, and no further: what
    follows that change is not looked at. Up to there every bookmark that
    was inserted is tracked under its [bookmarkId]. When the loop ends on
    the removal of a bookmark, no tracked element is left whose root is the
    graveyard, and the other tracked elements are kept; when it ends on any
    other change, the tracked elements are not filtered. *)
Theorem trackBookmarkElements_reads_prefix inserted change changes
    bookmarkElements (element : ModelRef) :
  bookmarkInsertion change = false →
  let tracked :=
    track ((DiffInsert "bookmark" <$> inserted) ++ change :: changes)
      bookmarkElements in
  let insertedOrTracked :=
    if decide (element ∈ inserted)
    then Some (bookmarkIdOf modelElement element)
    else bookmarkElements !! element in
  tracked
  = track ((DiffInsert "bookmark" <$> inserted) ++ [change]) bookmarkElements
  ∧ tracked !! element
    = if bool_decide (change = DiffRemove "bookmark")
         && bool_decide (rootName element = "$graveyard")
      then None
      else insertedOrTracked.
Proof.
  intros Hchange tracked insertedOrTracked. split.
  { by apply track_stops. }
  subst tracked insertedOrTracked. rewrite track_insertions.
  rewrite <-lookup_insertions.
  set (m := foldl _ _ _).
  destruct change as [|name e|name]; simpl in *.
  - done.
  - apply bool_decide_eq_false in Hchange.
    by rewrite bool_decide_eq_true_2.
  - destruct (decide (name = "bookmark")) as [->|Hname].
    + rewrite bool_decide_eq_false_2 by (by intros Hne).
      rewrite bool_decide_eq_true_2 by done. simpl.
      destruct (decide (rootName element = "$graveyard")) as [Hroot|Hroot];
        [rewrite bool_decide_eq_true_2 by done
        |rewrite bool_decide_eq_false_2 by done].
      * destruct (filter _ m !! element) as [id|] eqn:Hlookup; [|done].
        apply map_lookup_filter_Some in Hlookup as [_ Hkept]. done.
      * destruct (m !! element) as [id|] eqn:Hlookup.
        { by apply map_lookup_filter_Some. }
        destruct (filter _ m !! element) as [id|] eqn:Hfiltered; [|done].
        apply map_lookup_filter_Some in Hfiltered as [Hsome _]. congruence.
    + rewrite bool_decide_eq_true_2 by done.
      rewrite bool_decide_eq_false_2; [done|]. by intros [= ->].
Qed.

End tracking_facts.

Lemma trackBookmarkElements_reads_prefix_witness :
  _trackBookmarkElements exampleRootName exampleModelElement
    ((DiffInsert "bookmark" <$> [2]) ++ DiffRemove "bookmark"
       :: [DiffInsert "bookmark" 3])
    {[ 1 := Some "b" ]}
  = _trackBookmarkElements exampleRootName exampleModelElement
      ((DiffInsert "bookmark" <$> [2]) ++ [DiffRemove "bookmark"])
      {[ 1 := Some "b" ]}
  ∧ _trackBookmarkElements exampleRootName exampleModelElement
      ((DiffInsert "bookmark" <$> [2]) ++ DiffRemove "bookmark"
         :: [DiffInsert "bookmark" 3])
      {[ 1 := Some "b" ]} !! 1
    = if bool_decide (DiffRemove "bookmark" = DiffRemove "bookmark")
         && bool_decide (exampleRootName 1 = "$graveyard")
      then None
      else if decide (1 ∈ [2]) then Some (bookmarkIdOf exampleModelElement 1)
           else ({[ 1 := Some "b" ]} : gmap ModelRef (option string)) !! 1.
Proof.
  apply (trackBookmarkElements_reads_prefix exampleRootName exampleModelElement
           [2] (DiffRemove "bookmark") [DiffInsert "bookmark" 3]
           {[ 1 := Some "b" ]} 1).
  reflexivity.
Defined.

(** ** Children: removal and insertion again *)

Section remove_insert_facts.
Context {V : Type}.
Implicit Types (t : Tree V) (n this : NodeRef) (cs : list NodeRef).

(** X18. On a tree whose parent pointers and children agree, removing a
    range of children and inserting the removed nodes again at the index of
    the range gives every node the parent and the children it had. *)
Theorem removeChildren_insertChild_roundtrip t this cs index howMany :
  tree_consistent t →
  childrenOf t this = Some cs →
  index + howMany ≤ length cs →
  ∃ removed t1 t2,
    _removeChildren this index howMany t = Some (removed, t1)
    ∧ length removed = howMany
    ∧ _insertChild this index (NodeInput <$> removed) t1 = Some (howMany, t2)
    ∧ (∀ x, parentOf t2 x = parentOf t x)
    ∧ (∀ x, childrenOf t2 x = childrenOf t x).
Proof.
  intros Hconsistent Hcs Hlen. pose proof Hconsistent as [Hdown Hup].
  destruct (Hdown this cs Hcs) as [Hnodup Hparents].
  destruct (removeChildren_within t this cs index howMany Hconsistent Hcs Hlen)
    as (t1 & Hremove & Ht1 & Hcs1 & _ & _ & Hp1 & Hc1).
  set (removed := take howMany (drop index cs)) in *.
  set (kept := take index cs ++ drop (index + howMany) cs) in *.
  assert (Hsplit : cs = take index cs ++ removed ++ drop (index + howMany) cs).
  { unfold removed. rewrite <-drop_drop, take_drop. by rewrite take_drop. }
  assert (Hlength : length removed = howMany).
  { unfold removed. rewrite length_take, length_drop. lia. }
  assert (Hin : ∀ c, c ∈ removed → c ∈ cs).
  { intros c Hc. rewrite Hsplit, !elem_of_app. auto. }
  pose proof Hnodup as Hnodup'. rewrite Hsplit in Hnodup'.
  apply NoDup_app in Hnodup' as (_ & Hleft & Hnodup').
  apply NoDup_app in Hnodup' as (Hremoved & Hright & _).
  assert (Hfresh : ∀ c, c ∈ removed → c ∉ kept).
  { intros c Hc [Hk|Hk]%elem_of_app.
    - apply (Hleft c Hk). apply elem_of_app. by left.
    - by apply (Hright c Hc). }
  assert (Hindex : length (take index cs) = index)
    by (rewrite length_take; lia).
  assert (Htake : take index kept = take index cs).
  { unfold kept. rewrite take_app_length'; done. }
  assert (Hdrop : drop index kept = drop (index + howMany) cs).
  { unfold kept. rewrite drop_app_length'; done. }
  exists removed, t1. unfold _insertChild.
  set (t0 := mkTree (nodes t1) (notified t1 ++ [(ChildrenChange, this)])).
  assert (Hconsistent0 : tree_consistent t0) by (by destruct Ht1).
  rewrite (bind_Some (fireChangeAt ChildrenChange this) _ t1 tt t0 eq_refl).
  rewrite (bind_Some _ _ _ _ _ (normalize_nodes removed t0)).
  assert (Hwithin : index ≤ length kept).
  { unfold kept. rewrite length_app, length_take. lia. }
  destruct (@insertNodes_spec V this kept index removed Hwithin Hfresh [] t0 0)
    as (t2 & Hinsert & Hchildren2 & _).
  { simpl. by rewrite take_drop. }
  { done. }
  { intros c Hc. exists None. split; [|done].
    change (parentOf t0 c) with (parentOf t1 c). by rewrite Hp1, decide_True. }
  { by intros c ?%elem_of_nil. }
  destruct (insertNodes_consistent this removed t0 index 0 Hconsistent0)
    as (t2' & Hinsert' & _ & Hp2 & Hc2).
  { by eexists. }
  { intros c Hc. change (parentOf t0 c) with (parentOf t1 c).
    rewrite Hp1, decide_True by done. by eexists. }
  simpl in Hinsert, Hchildren2. rewrite Nat.add_0_r in Hinsert.
  rewrite Hinsert in Hinsert'. injection Hinsert' as <-.
  exists t2. rewrite Hinsert, Hlength. split_and!; try done.
  - intros x. rewrite Hp2. change (parentOf t0 x) with (parentOf t1 x).
    rewrite Hp1. destruct (decide (x ∈ removed)) as [Hx|Hx]; [|done].
    symmetry. apply Hparents. by apply Hin.
  - intros x. destruct (decide (x = this)) as [->|Hne].
    + rewrite Hchildren2, Hcs, Htake, Hdrop. f_equal. by symmetry.
    + rewrite Hc2 by done. change (childrenOf t0 x) with (childrenOf t1 x).
      rewrite Hc1 by done.
      destruct (childrenOf t x) as [l|] eqn:Hl; [|done]. simpl. f_equal.
      apply filter_all. intros c Hc Hr.
      destruct (Hdown x l Hl) as [_ Hparents']. specialize (Hparents' c Hc).
      rewrite (Hparents c) in Hparents' by auto. congruence.
Qed.

End remove_insert_facts.

Lemma removeChildren_insertChild_roundtrip_witness :
  ∃ removed t1 t2,
    _removeChildren 0 0 1 exampleTree = Some (removed, t1)
    ∧ length removed = 1
    ∧ _insertChild 0 0 (NodeInput <$> removed) t1 = Some (1, t2)
    ∧ (∀ x, parentOf t2 x = parentOf exampleTree x)
    ∧ (∀ x, childrenOf t2 x = childrenOf exampleTree x).
Proof.
  apply (removeChildren_insertChild_roundtrip exampleTree 0 [1; 2] 0 1).
  - apply exampleTree_consistent.
  - reflexivity.
  - simpl. lia.
Defined.

Section string_facts.
Context {V : Type}.
Implicit Types (t : Tree V) (this : NodeRef) (cs : list NodeRef).

(** X19. A string handed to [_insertChild], as well as a text proxy, becomes
    a new text node with that text: the node was not in the tree before, it
    has the element as its parent and stands at the index among the
    children, and the other nodes are as they were. *)
Theorem insertChild_string t this cs index (data : string) (proxy : bool) :
  childrenOf t this = Some cs →
  let n := fresh (dom (nodes t)) in
  ∃ t', _insertChild this index
          [if proxy then TextProxyInput data else StringInput data] t
        = Some (1, t')
    ∧ nodes t !! n = None
    ∧ nodes t' !! n = Some (mkNode (Some this) (TextKind data))
    ∧ childrenOf t' this = Some (take index cs ++ [n] ++ drop index cs)
    ∧ (∀ x, x ≠ n → x ≠ this → nodes t' !! x = nodes t !! x).
Proof.
  intros Hcs n.
  assert (Hfresh : nodes t !! n = None) by apply not_elem_of_dom, is_fresh.
  unfold childrenOf in Hcs.
  destruct (nodes t !! this) as [node|] eqn:Hthis; [|done].
  destruct (kind node) as [|e] eqn:Hkind; [done|]. injection Hcs as <-.
  assert (Hne : this ≠ n) by congruence.
  assert (Hne' : n ≠ this) by congruence.
  eexists. split.
  { unfold _insertChild.
    assert (Hnormalize :
      normalize [if proxy then TextProxyInput data else StringInput data]
        (mkTree (nodes t) (notified t ++ [(ChildrenChange, this)]))
      = Some ([n], mkTree (<[n := mkNode None (TextKind data)]> (nodes t))
                     (notified t ++ [(ChildrenChange, this)])))
      by (by destruct proxy).
    rewrite (bind_Some (fireChangeAt ChildrenChange this) _ t tt _ eq_refl).
    rewrite (bind_Some _ _ _ _ _ Hnormalize).
    cbn [insertNodes].
    unfold getParent, putParent, getChildren, putChildren, getNode, putNode,
      mbind, TreeOp_bind, mret, TreeOp_ret. simpl.
    repeat (first [rewrite lookup_insert_eq
                  |rewrite lookup_insert_ne by done
                  |rewrite Hthis
                  |rewrite Hkind]; simpl).
    reflexivity. }
  simpl. split_and!.
  - done.
  - rewrite lookup_insert_ne by done. by rewrite lookup_insert_eq.
  - unfold childrenOf. simpl. rewrite lookup_insert_eq. simpl.
    unfold splice. simpl. by rewrite Nat.add_0_r.
  - intros x Hx Hx'. by rewrite !lookup_insert_ne.
Qed.

End string_facts.

Lemma insertChild_string_witness :
  ∃ t', _insertChild 0 1 [StringInput "s"] exampleTree = Some (1, t')
    ∧ nodes exampleTree !! fresh (dom (nodes exampleTree)) = None
    ∧ nodes t' !! fresh (dom (nodes exampleTree))
      = Some (mkNode (Some 0) (TextKind "s"))
    ∧ childrenOf t' 0
      = Some (take 1 [1; 2] ++ [fresh (dom (nodes exampleTree))]
              ++ drop 1 [1; 2])
    ∧ (∀ x, x ≠ fresh (dom (nodes exampleTree)) → x ≠ 0 →
            nodes t' !! x = nodes exampleTree !! x).
Proof.
  apply (insertChild_string exampleTree 0 [1; 2] 1 "s" false). reflexivity.
Defined.

(** ** The identity string and the order of the attributes *)

Section identity_order_facts.
Context {V : Type} `{!Value.ElementAttributeValue V, !Value.Kinds V}.
Implicit Types (this other : Element V) (key : string).

Lemma map_get_Permutation (m m' : JsMap (AttrValue V)) key :
  map_wf m → m ≡ₚ m' → map_get key m = map_get key m'.
Proof.
  intros Hwf Hperm.
  assert (Hwf' : map_wf m').
  { unfold map_wf, map_keys in *. by rewrite <-Hperm. }
  destruct (map_get key m) as [v|] eqn:Hm.
  - apply map_get_elem_of in Hm. rewrite Hperm in Hm.
    symmetry. by apply elem_of_map_get.
  - destruct (map_get key m') as [v|] eqn:Hm'; [|done].
    apply map_get_elem_of in Hm'. rewrite <-Hperm in Hm'.
    apply elem_of_map_get in Hm'; [congruence|done].
Qed.

(** X20. The identity string does not depend on the order in which the
    attributes were set: an element whose attribute map is as the
    constructor and the mutators leave it, and an element of the same name
    whose attribute map holds the same entries, have the same identity
    string. *)
Theorem getIdentity_attribute_order this other :
  element_inv this →
  name this = name other →
  _attrs this ≡ₚ _attrs other →
  getIdentity this = getIdentity other.
Proof.
  intros [Hwf _] Hname Hperm.
  assert (Hsort :
    sort ((λ i, i.1 +:+ "=" +:+ dquote +:+ valueString i.2 +:+ dquote)
            <$> filter (λ kv, kv.1 ≠ "style" ∧ kv.1 ≠ "class") (_attrs this))
    = sort ((λ i, i.1 +:+ "=" +:+ dquote +:+ valueString i.2 +:+ dquote)
              <$> filter (λ kv, kv.1 ≠ "style" ∧ kv.1 ≠ "class")
                    (_attrs other))).
  { apply sort_Permutation. by rewrite Hperm. }
  unfold getIdentity, _classes, _styles. cbv zeta.
  rewrite Hsort, Hname.
  by rewrite !(map_get_Permutation (_attrs this) (_attrs other)).
Qed.

End identity_order_facts.

Lemma getIdentity_attribute_order_witness :
  getIdentity spanA
  = getIdentity
      (createElement "span" [("title", InString "t"); ("class", InString "a")]).
Proof.
  apply (getIdentity_attribute_order spanA
           (createElement "span"
              [("title", InString "t"); ("class", InString "a")])).
  - split; [apply (parseAttributes_wf "span")
           |apply (parseAttributes_typed "span")].
  - reflexivity.
  - apply perm_swap.
Defined.
